(** * linkcheck: the pool, the rate limiter, the reply observers, the
      response parser and URL normalisation, embedded from the JavaScript
      sources and checked against the specification.

    Layout: the embedding comes first (one module per source unit), the
    theorems follow in the second half of the file. *)

From Stdlib Require Import NArith ZArith Ascii String List Bool Lia.
From stdpp Require Import base option list gmap.
Import ListNotations.

Local Open Scope N_scope.

(* ===================================================================== *)
(** ** JavaScript strings

    A JavaScript string is a sequence of UTF-16 code units; [length],
    [trim], [includes], [split] and the regular expressions of the sources
    (none carries the [u] flag) all work on code units.  A code unit is a
    number below 65536, held in [N]. *)
(* ===================================================================== *)

Module Js.

Definition str := list N.

(** [lit] turns an ASCII literal into the code units it denotes. *)
Definition lit (s : string) : str := map N_of_ascii (list_ascii_of_string s).
Arguments lit s%_string.

Definition in_range (lo hi c : N) : bool := (lo <=? c) && (c <=? hi).

Definition is_digit (c : N) : bool := in_range 48 57 c.
Definition is_upper (c : N) : bool := in_range 65 90 c.
Definition is_lower (c : N) : bool := in_range 97 122 c.
Definition is_alnum (c : N) : bool := is_lower c || is_upper c || is_digit c.
(** [\w] *)
Definition is_word (c : N) : bool := is_alnum c || (c =? 95).

(** ECMAScript LineTerminator and WhiteSpace; [\s] and [trim] use both. *)
Definition is_line_terminator (c : N) : bool :=
  (c =? 10) || (c =? 13) || (c =? 0x2028) || (c =? 0x2029).
Definition is_white_space (c : N) : bool :=
  (c =? 9) || (c =? 11) || (c =? 12) || (c =? 32) || (c =? 160)
  || (c =? 0x1680) || in_range 0x2000 0x200A c || (c =? 0x202F)
  || (c =? 0x205F) || (c =? 0x3000) || (c =? 0xFEFF).
Definition is_space (c : N) : bool := is_white_space c || is_line_terminator c.

(** [!s] on a string: only the empty string is falsy. *)
Definition is_empty (s : str) : bool :=
  match s with [] => true | _ => false end.

(** [String.prototype.trim] *)
Fixpoint trim_start (s : str) : str :=
  match s with
  | c :: t => if is_space c then trim_start t else s
  | [] => []
  end.
Definition trim_end (s : str) : str := rev (trim_start (rev s)).
Definition trim (s : str) : str := trim_end (trim_start s).

(** [a.startsWith(b)] *)
Fixpoint starts_with (b a : str) : bool :=
  match b, a with
  | [], _ => true
  | x :: b', y :: a' => (x =? y) && starts_with b' a'
  | _ :: _, [] => false
  end.

(** [a.endsWith(b)] *)
Definition ends_with (b a : str) : bool := starts_with (rev b) (rev a).

(** [s.includes(needle)] *)
Fixpoint includes (needle s : str) : bool :=
  starts_with needle s ||
  match s with
  | [] => false
  | _ :: t => includes needle t
  end.

(** [s.split(sep)] for a one-unit separator string *)
Fixpoint split_on (sep : N) (s : str) : list str :=
  match s with
  | [] => [[]]
  | c :: t =>
      if c =? sep then [] :: split_on sep t
      else match split_on sep t with
           | cur :: more => (c :: cur) :: more
           | [] => [[c]]
           end
  end.

(** [parts.join(sep)] *)
Fixpoint join (sep : str) (parts : list str) : str :=
  match parts with
  | [] => []
  | [p] => p
  | p :: more => p ++ sep ++ join sep more
  end.

(** [String.prototype.toLowerCase], as far as an ASCII needle can tell:
    the only code units outside ASCII whose lower-case form contains an
    ASCII letter are U+212A (KELVIN SIGN, to [k]) and U+0130 (to [i]
    followed by U+0307); every other one maps to code units outside ASCII,
    which the model leaves in place. *)
Definition lower_unit (c : N) : str :=
  if is_upper c then [c + 32]
  else if c =? 0x212A then [107]
  else if c =? 0x0130 then [105; 0x0307]
  else [c].
Definition to_lower (s : str) : str := flat_map lower_unit s.

(** [parseInt(digits, 10)] on a string of decimal digits, as an exact
    natural number (a JavaScript number holds it exactly below 2^53). *)
Definition parse_int (s : str) : N :=
  fold_left (fun acc c => 10 * acc + (c - 48)) s 0.

End Js.

(* ===================================================================== *)
(** ** Regular expressions

    A backtracking matcher in the order ECMAScript prescribes: alternatives
    left to right, greedy quantifiers longest first, lazy ones shortest
    first, with numbered capture groups.  Only the constructs that occur in
    the sources are present. *)
(* ===================================================================== *)

Module Re.

Inductive re : Type :=
| Eps
| Cls (p : N -> bool)                 (* one code unit of a class *)
| Bol                                 (* ^ (no m flag) *)
| Eol                                 (* $ (no m flag) *)
| Cat (r1 r2 : re)
| Alt (r1 r2 : re)
| Rep (greedy : bool) (lo : nat) (hi : option nat) (r : re)
| Grp (i : nat) (r : re).             (* i-th capturing parenthesis *)

Record mstate := MState {
  pos : nat;                          (* units consumed so far *)
  rest : Js.str;                      (* units still ahead *)
  caps : list (nat * Js.str)          (* captures, newest first *)
}.

Definition advance (s : mstate) (t : Js.str) : mstate :=
  MState (S (pos s)) t (caps s).

Definition capture (i : nat) (from to : mstate) : mstate :=
  MState (pos to) (rest to)
         ((i, take (pos to - pos from) (rest from)) :: caps to).

Definition below (n : nat) (hi : option nat) : bool :=
  match hi with
  | None => true
  | Some h => (n <? h)%nat
  end.

Fixpoint run (r : re) (k : mstate -> option mstate) (s : mstate)
  : option mstate :=
  match r with
  | Eps => k s
  | Cls p =>
      match rest s with
      | c :: t => if p c then k (advance s t) else None
      | [] => None
      end
  | Bol => if (pos s =? 0)%nat then k s else None
  | Eol => match rest s with [] => k s | _ :: _ => None end
  | Cat r1 r2 => run r1 (run r2 k) s
  | Alt r1 r2 =>
      match run r1 k s with
      | Some s' => Some s'
      | None => run r2 k s
      end
  | Grp i r1 => run r1 (fun s' => k (capture i s s')) s
  | Rep greedy lo hi r1 =>
      (fix iter (fuel n : nat) (s : mstate) {struct fuel} : option mstate :=
         match fuel with
         | O => None
         | S fuel' =>
             if greedy then
               match
                 (if below n hi then
                    run r1 (fun s' =>
                              if (lo <=? n)%nat && (pos s' =? pos s)%nat
                              then None
                              else iter fuel' (S n) s') s
                  else None)
               with
               | Some s' => Some s'
               | None => if (lo <=? n)%nat then k s else None
               end
             else
               match (if (lo <=? n)%nat then k s else None) with
               | Some s' => Some s'
               | None =>
                   if below n hi then
                     run r1 (fun s' =>
                               if (lo <=? n)%nat && (pos s' =? pos s)%nat
                               then None
                               else iter fuel' (S n) s') s
                   else None
               end
         end) (lo + S (S (length (rest s))))%nat O s
  end.

(** A match attempt that must start at offset [i] of [s] (the sticky
    match of the specification's RegExpBuiltinExec). *)
Definition match_at (r : re) (s : Js.str) (i : nat) : option mstate :=
  run r Some (MState i (drop i s) []).

(** The leftmost match, scanning start offsets from [i] upwards. *)
Fixpoint search_from (r : re) (s : Js.str) (fuel i : nat)
  : option (nat * mstate) :=
  match match_at r s i with
  | Some m => Some (i, m)
  | None =>
      match fuel with
      | O => None
      | S fuel' => search_from r s fuel' (S i)
      end
  end.

Definition exec (r : re) (s : Js.str) : option (nat * mstate) :=
  search_from r s (length s) 0.

(** [re.test(s)] *)
Definition test (r : re) (s : Js.str) : bool :=
  match exec r s with Some _ => true | None => false end.

(** [m[i]] of a successful match: the last capture of group [i]. *)
Definition group (i : nat) (m : mstate) : Js.str :=
  match find (fun c => (fst c =? i)%nat) (caps m) with
  | Some c => snd c
  | None => []
  end.

(** [s.replace(re, '')] for a regular expression without the g flag. *)
Definition remove_first (r : re) (s : Js.str) : Js.str :=
  match exec r s with
  | Some (i, m) => take i s ++ rest m
  | None => s
  end.

(** [s.split(re)] for a regular expression without groups
    (ECMAScript's RegExp.prototype[@@split], no limit). *)
Fixpoint split_loop (r : re) (s : Js.str) (fuel p q : nat) : list Js.str :=
  match fuel with
  | O => [drop p s]
  | S fuel' =>
      if (length s <=? q)%nat then [drop p s]
      else
        match match_at r s q with
        | None => split_loop r s fuel' p (S q)
        | Some m =>
            let e := Nat.min (pos m) (length s) in
            if (e =? p)%nat then split_loop r s fuel' p (S q)
            else take (q - p) (drop p s) :: split_loop r s fuel' e e
        end
  end.

Definition split (r : re) (s : Js.str) : list Js.str :=
  match s with
  | [] => match match_at r s 0 with Some _ => [] | None => [s] end
  | _ :: _ => split_loop r s (S (length s)) 0 0
  end.

(** *** Pattern syntax *)

Definition chr (c : N) : re := Cls (N.eqb c).
Definition any : re := Cls (fun c => negb (Js.is_line_terminator c)).  (* . *)
Definition ws : re := Cls Js.is_space.                                 (* \s *)
Definition digit : re := Cls Js.is_digit.                              (* \d *)
Definition star (r : re) : re := Rep true 0 None r.
Definition plus (r : re) : re := Rep true 1 None r.
Definition plus_lazy (r : re) : re := Rep false 1 None r.
Definition opt (r : re) : re := Rep true 0 (Some 1%nat) r.

Fixpoint seq (rs : list re) : re :=
  match rs with
  | [] => Eps
  | [r] => r
  | r :: more => Cat r (seq more)
  end.

(** A literal run of code units. *)
Definition word (s : Js.str) : re := seq (map chr s).

(** The same under the [i] flag.  Without the [u] flag a code unit matches
    a pattern unit when their canonical (upper-case) forms agree, and a
    unit outside ASCII never canonicalises into ASCII; for a pattern unit
    that is ASCII or has no case this is ASCII case folding. *)
Definition fold_case (c : N) : N := if Js.is_lower c then c - 32 else c.
Definition chr_i (c : N) : re := Cls (fun d => fold_case d =? fold_case c).
Definition word_i (s : Js.str) : re := seq (map chr_i s).

End Re.

(* ===================================================================== *)
(** ** URL normalisation: [sanitizeUrl] (native web server) and [cleanUrl]
       (Discord bot) *)
(* ===================================================================== *)

Module Url.
Import Js Re.

(** What a query parameter or a JSON array element can be: absent, a
    string, or some other value (array, object, number), of which only the
    string conversion matters to the callers. *)
Inductive value : Type :=
| VUndefined
| VStr (s : str)
| VOther (shown : str).

(** [/^https?:\/\//i] *)
Definition scheme_prefix : re :=
  seq [Bol; word_i (lit "http"); opt (chr_i 115); word (lit "://")].
(** [/\/$/] *)
Definition trailing_slash : re := Cat (chr 47) Eol.
(** [/[a-zA-Z0-9]/] *)
Definition alphanumeric : re := Cls is_alnum.

(** The texts [/^https?:\/\//i] matches: [http://] and [https://] in any
    mix of cases. *)
Definition is_scheme (pre : str) : Prop :=
  map fold_case pre = lit "HTTP://" \/ map fold_case pre = lit "HTTPS://".

Definition strip (u : str) : str :=
  remove_first trailing_slash (remove_first scheme_prefix u).

Definition cleanUrl (raw : str) : option str :=
  let u := trim raw in
  if is_empty u then None
  else if (2048 <? length u)%nat then None
  else
    let u := strip u in
    if is_empty u || includes (lit " ") u || includes (lit "<") u
       || includes (lit ">") u then None
    else if negb (test alphanumeric u) then None
    else Some u.

Definition sanitizeUrl (raw : value) : option str :=
  match raw with
  | VStr raw =>
      let cleaned := trim raw in
      if is_empty cleaned then None
      else if (2048 <? length cleaned)%nat then None
      else
        let cleaned := strip cleaned in
        if is_empty cleaned || includes (lit " ") cleaned
           || includes (lit "<") cleaned || includes (lit ">") cleaned
        then None
        else if negb (test alphanumeric cleaned) then None
        else Some cleaned
  | _ => None
  end.

End Url.

(* ===================================================================== *)
(** ** The response parser: [parseBotResponse] and [tryCompactLine] *)
(* ===================================================================== *)

Module Parser.
Import Js Re.

Inductive status : Type := Blocked | Unblocked | Loading | Error | Unknown.

#[global] Instance status_eq_dec : EqDecision status.
Proof. solve_decision. Defined.

Record platform := Platform {
  name : str;
  category : str;
  pstatus : status;
  detail : str;
  ms : option N;                       (* null when there is no timing *)
  icon : str
}.

Record reply := Reply { text : str; embeds : list str }.

Record parsed := Parsed {
  platforms : list platform;
  note : option str;
  raw : str
}.

(** U+23F3, U+26A0 U+FE0F, U+2014 *)
Definition hourglass : str := [0x23F3].
Definition warning_sign : str := [0x26A0; 0xFE0F].
Definition em_dash : N := 0x2014.

(** [/loading|⏳/i] *)
Definition loadingPattern : re :=
  Alt (word_i (lit "loading")) (word_i hourglass).
(** [/error|⚠️|report to/i] *)
Definition errorPattern : re :=
  Alt (word_i (lit "error"))
      (Alt (word_i warning_sign) (word_i (lit "report to"))).
(** [/all checkers use the default settings/i] *)
Definition notePattern : re :=
  word_i (lit "all checkers use the default settings").
(** [/^results for /i] *)
Definition headerPattern : re := Cat Bol (word_i (lit "results for ")).

(** [\(took\s+(\d+)ms\)] with the digits in group [g] *)
Definition took (g : nat) : re :=
  seq [word (lit "(took"); plus ws; Grp g (plus digit); word (lit "ms)")].
(** [\s+-\s+] *)
Definition dash : re := seq [plus ws; chr 45; plus ws].
(** [^[^\w]*] *)
Definition leading_nonword : re :=
  Cat Bol (star (Cls (fun c => negb (is_word c)))).

(** [/^[^\w]*(.+?)\s*[:—]\s+(.+?)\s+-\s+(.+?)\s*\(took\s+(\d+)ms\)$/] *)
Definition compactLinePattern : re :=
  seq [leading_nonword; Grp 1 (plus_lazy any); star ws;
       Cls (fun c => (c =? 58) || (c =? em_dash)); plus ws;
       Grp 2 (plus_lazy any); dash; Grp 3 (plus_lazy any); star ws;
       took 4; Eol].
(** [/^(.+?)\s+-\s+(.+?)\s*\(took\s+(\d+)ms\)$/] *)
Definition resultPattern : re :=
  seq [Bol; Grp 1 (plus_lazy any); dash; Grp 2 (plus_lazy any); star ws;
       took 3; Eol].
(** [/^[^\w]*(.+?)\s+-\s+(.+?)\s*\(took\s+(\d+)ms\)$/] *)
Definition broadPattern : re :=
  seq [leading_nonword; Grp 1 (plus_lazy any); dash; Grp 2 (plus_lazy any);
       star ws; took 3; Eol].
(** [/\s*[-:—]\s/] *)
Definition nameSeparator : re :=
  seq [star ws; Cls (fun c => (c =? 45) || (c =? 58) || (c =? em_dash)); ws].
(** [/\s*\(took\s+\d+ms\)$/] *)
Definition tookSuffix : re :=
  seq [star ws; word (lit "(took"); plus ws; plus digit; word (lit "ms)"); Eol].
(** [/\(took\s+(\d+)ms\)/] *)
Definition tookAnywhere : re := took 1.

(** The three-way classification of a detail text. *)
Definition classify (detail : str) : status :=
  if includes (lit "unblocked") (to_lower detail) then Unblocked
  else if includes (lit "blocked") (to_lower detail) then Blocked
  else Unknown.

(** The mutable locals of [parseBotResponse]: the [platforms] array, the
    [seen] set and [note]. *)
Record pstate := PState {
  out : list platform;
  seen : gset str;
  pnote : option str
}.

Definition push (p : platform) (st : pstate) : pstate :=
  PState (out st ++ [p]) (seen st) (pnote st).
Definition mark (n : str) (st : pstate) : pstate :=
  PState (out st) ({[ n ]} ∪ seen st) (pnote st).
Definition has (n : str) (st : pstate) : bool := bool_decide (n ∈ seen st).

Definition tryCompactLine (line : str) (st : pstate) : pstate :=
  match exec compactLinePattern line with
  | None => st
  | Some (_, m) =>
      let name := trim (remove_first leading_nonword (group 1 m)) in
      if has name st then st
      else
        let st := mark name st in
        let category := trim (group 2 m) in
        let detail := trim (group 3 m) in
        let ms := parse_int (group 4 m) in
        push (Platform name category (classify detail) detail (Some ms) []) st
  end.

(** The main loop over [allLines]; the line after the current one is the
    head of the remaining list, and [i++] inside the body drops it. *)
Fixpoint scan (lines : list str) (st : pstate) : pstate :=
  match lines with
  | [] => st
  | line :: later =>
      if test notePattern line then
        scan later
             (PState (out st) (seen st)
                     (Some (trim (remove_first leading_nonword line))))
      else if test headerPattern line then scan later st
      else
        match later with
        | [] => tryCompactLine line st
        | nextLine :: after =>
            if is_empty nextLine then scan later (tryCompactLine line st)
            else
              let isNameLine :=
                negb (includes (lit " - ") line)
                && negb (includes (lit "(took") line)
                && negb (test notePattern line)
                && negb (test headerPattern line) in
              let isResultLine :=
                includes (lit " - ") nextLine
                && includes (lit "(took") nextLine in
              let isLoadingNext :=
                test loadingPattern nextLine
                && negb (includes (lit "(took") nextLine) in
              let isErrorNext :=
                test errorPattern nextLine
                && negb (includes (lit "(took") nextLine) in
              if isNameLine && (isResultLine || isLoadingNext || isErrorNext)
              then
                let name := trim line in
                if has name st then scan after st
                else
                  let st := mark name st in
                  if isLoadingNext then
                    scan after
                         (push (Platform name (lit "Loading...") Loading
                                         (lit "Loading...") None hourglass) st)
                  else if isErrorNext then
                    scan after
                         (push (Platform name (trim nextLine) Error
                                         (trim nextLine) None warning_sign) st)
                  else
                    match exec resultPattern nextLine with
                    | Some (_, m) =>
                        let category := trim (group 1 m) in
                        let detail := trim (group 2 m) in
                        let ms := parse_int (group 3 m) in
                        scan after
                             (push (Platform name category (classify detail)
                                             detail (Some ms) []) st)
                    | None => scan after st
                    end
              else scan later (tryCompactLine line st)
        end
  end.

(** The body of the fallback sweep for one line. *)
Definition sweep_line (st : pstate) (line : str) : pstate :=
  if negb (includes (lit "(took") line) then st
  else if test notePattern line || test headerPattern line then st
  else
    let st := tryCompactLine line st in
    let first :=                       (* undefined when split gives [] *)
      match split nameSeparator line with
      | f :: _ => Some (trim f)
      | [] => None
      end in
    if from_option (fun f => has f st) false first then st
    else
      match exec broadPattern line with
      | None => st
      | Some _ =>
          let beforeTook := remove_first tookSuffix line in
          let dashParts := split dash beforeTook in
          match dashParts with
          | p0 :: p1 :: p2 :: more =>
              let name := trim (remove_first leading_nonword p0) in
              if has name st then st
              else
                let st := mark name st in
                let category := trim p1 in
                let detail := trim (join (lit " - ") (p2 :: more)) in
                let ms :=
                  match exec tookAnywhere line with
                  | Some (_, m) => Some (parse_int (group 1 m))
                  | None => None
                  end in
                push (Platform name category (classify detail) detail ms []) st
          | _ => st
          end
      end.

Definition finished (ps : list platform) : list platform :=
  filter (fun p => pstatus p ≠ Loading) ps.

Definition parseBotResponse (r : reply) : parsed :=
  let raw := join [10] (text r :: embeds r) in
  let allLines :=
    filter (fun l => l ≠ []) (map trim (split_on 10 raw)) in
  let st := scan allLines (PState [] ∅ None) in
  let st :=
    if (length (finished (out st)) <? 5)%nat
    then fold_left sweep_line allLines st
    else st in
  Parsed (out st) (pnote st) raw.

End Parser.

(* ===================================================================== *)
(** ** The sliding-window rate limiter: [RateLimiter] (both web servers;
       [undo] exists in the native one, the legacy status handler pops
       the array itself) *)
(* ===================================================================== *)

Module RateLimiter.

(** [maxHits] is a count or [Infinity] (rate limiting switched off). *)
Inductive limit : Type := Finite (n : nat) | Infinity.

Definition reached (n : nat) (l : limit) : bool :=
  match l with Finite m => (m <=? n)%nat | Infinity => false end.
Definition minus (l : limit) (n : nat) : limit :=
  match l with Finite m => Finite (m - n) | Infinity => Infinity end.

Record t := Limiter {
  _maxHits : limit;
  _windowMs : Z;
  _hits : gmap Js.str (list Z)           (* the Map from ip to timestamps *)
}.

Record verdict := Verdict {
  allowed : bool;
  remaining : limit;
  retryAfterMs : option Z               (* None: NaN, from an empty array *)
}.

Definition with_hits (l : t) (h : gmap Js.str (list Z)) : t :=
  Limiter (_maxHits l) (_windowMs l) h.

(** The timestamps of [ip] still inside the window at time [now]. *)
Definition live (now : Z) (l : t) (ip : Js.str) : list Z :=
  filter (fun t => (now - _windowMs l < t)%Z) (default [] (_hits l !! ip)).

(** [check(ip)] at [Date.now() = now].  The filtered array is stored in the
    map before the push, and the push mutates that same array. *)
Definition check (now : Z) (ip : Js.str) (l : t) : verdict * t :=
  let timestamps := live now l ip in
  if reached (length timestamps) (_maxHits l) then
    (Verdict false (Finite 0)
             ((fun oldest => (oldest + _windowMs l - now)%Z) <$> head timestamps),
     with_hits l (<[ip := timestamps]> (_hits l)))
  else
    (Verdict true (minus (_maxHits l) (S (length timestamps))) (Some 0%Z),
     with_hits l (<[ip := timestamps ++ [now]]> (_hits l))).

(** [undo(ip)]: pop the last timestamp of [ip], if it has an array. *)
Definition undo (ip : Js.str) (l : t) : t :=
  with_hits l (alter (@removelast Z) ip (_hits l)).

(** [cleanup()] *)
Definition cleanup (now : Z) (l : t) : t :=
  with_hits l
    (filter (fun kv => snd kv ≠ [])
            ((fun ts => filter (fun t => (now - _windowMs l < t)%Z) ts) <$> _hits l)).

(** What a status request does to the limiter, and the verdict it reports:
    [check] followed by the pop. *)
Definition status_probe (now : Z) (ip : Js.str) (l : t) : verdict * t :=
  let '(rl, l1) := check now ip l in (rl, undo ip l1).

(** The budget a request arriving at [now] would see. *)
Definition budget (now : Z) (ip : Js.str) (l : t) : limit :=
  minus (_maxHits l) (length (live now l ip)).

End RateLimiter.

(* ===================================================================== *)
(** ** The instance pool: [CheckerPool] (legacy web server)

    Instance objects are never removed from [_instances], so an object
    reference (the [inst] a closure captures) is its index in the list.
    A [LinkChecker] object is a handle, fresh at every [new]. *)
(* ===================================================================== *)

Module Pool.

Record instance := Instance {
  id : nat;
  config : Js.str;                      (* the channel the instance drives *)
  checker : nat;
  busy : bool;
  ready : bool;
  error : option Js.str;
  consecutiveFailures : nat
}.

(** One pending [acquire]: the promise it waits on, and whether it passed
    an [onPositionChange] callback. *)
Record waiter := Waiter { resolve : nat; onPositionChange : bool }.

Record pool := MkPool {
  _instances : list instance;
  _waiters : list waiter;
  _recovering : gset nat;
  fresh : nat                           (* next LinkChecker handle *)
}.

(** What the pool does to its surroundings. *)
Inductive event : Type :=
| Granted (promise slot chk ident : nat)  (* resolve({checker, release, id}) *)
| Unavailable (promise : nat)             (* resolve({checker: null, id: -1}) *)
| Position (promise n : nat)              (* onPositionChange(n) *)
| Launch (chk : nat)                      (* checker.init() *)
| Destroy (chk : nat).                    (* checker.destroy() *)

Definition empty : pool := MkPool [] [] ∅ 0.

Definition set_busy (b : bool) (i : instance) : instance :=
  Instance (id i) (config i) (checker i) b (ready i) (error i)
           (consecutiveFailures i).
Definition set_ready (b : bool) (i : instance) : instance :=
  Instance (id i) (config i) (checker i) (busy i) b (error i)
           (consecutiveFailures i).
Definition set_error (e : option Js.str) (i : instance) : instance :=
  Instance (id i) (config i) (checker i) (busy i) (ready i) e
           (consecutiveFailures i).
Definition set_failures (n : nat) (i : instance) : instance :=
  Instance (id i) (config i) (checker i) (busy i) (ready i) (error i) n.
Definition set_checker (c : nat) (i : instance) : instance :=
  Instance (id i) (config i) c (busy i) (ready i) (error i)
           (consecutiveFailures i).

Definition with_instances (p : pool) (l : list instance) : pool :=
  MkPool l (_waiters p) (_recovering p) (fresh p).
Definition with_waiters (p : pool) (w : list waiter) : pool :=
  MkPool (_instances p) w (_recovering p) (fresh p).
Definition with_recovering (p : pool) (r : gset nat) : pool :=
  MkPool (_instances p) (_waiters p) r (fresh p).

(** Mutating the instance object at index [slot]. *)
Definition update (slot : nat) (f : instance -> instance) (p : pool) : pool :=
  with_instances p (alter f slot (_instances p)).

(** [this._instances.find(i => i.id === id)], with the index found. *)
Definition find_id (x : nat) (p : pool) : option (nat * instance) :=
  list_find (fun i => id i = x) (_instances p).

(** *** Getters *)

Definition size (p : pool) : nat := length (_instances p).
Definition allBusy (p : pool) : bool :=
  forallb busy (filter (fun i => ready i = true) (_instances p)).
Definition pending (p : pool) : nat := length (_waiters p).
Definition anyReady (p : pool) : bool :=
  existsb (fun i => ready i && negb (busy i)) (_instances p).
Definition activeScanCount (p : pool) : nat :=
  length (filter (fun i => busy i = true) (_instances p)).

(** *** Construction and start-up *)

Definition addInstance (x : nat) (cfg : Js.str) (p : pool) : pool :=
  MkPool (_instances p ++ [Instance x cfg (fresh p) false false None 0])
         (_waiters p) (_recovering p) (S (fresh p)).

(** One launch attempt on the instance at [slot]; [launch c] is what
    [init()] of checker [c] does: [None] when it succeeds, the error
    message when it throws. *)
Definition attempt (launch : nat -> option Js.str) (slot : nat) (p : pool)
  : bool * pool * list event :=
  match _instances p !! slot with
  | None => (true, p, [])
  | Some inst =>
      match launch (checker inst) with
      | None =>
          (true,
           update slot (fun i => set_failures 0 (set_error None (set_ready true i))) p,
           [Launch (checker inst)])
      | Some msg =>
          let p1 := update slot (fun i => set_checker (fresh p)
                                  (set_error (Some msg) (set_ready false i))) p in
          (false, MkPool (_instances p1) (_waiters p1) (_recovering p1) (S (fresh p)),
           [Launch (checker inst); Destroy (checker inst)])
      end
  end.

(** The two attempts [initAll] gives one instance. *)
Definition init_one (launch : nat -> option Js.str) (acc : pool * list event)
  (slot : nat) : pool * list event :=
  let '(p, ev) := acc in
  let '(ok, p1, ev1) := attempt launch slot p in
  if ok then (p1, ev ++ ev1)
  else let '(_, p2, ev2) := attempt launch slot p1 in (p2, ev ++ ev1 ++ ev2).

Definition initAll (launch : nat -> option Js.str) (p : pool)
  : pool * list event :=
  fold_left (init_one launch) (seq 0 (length (_instances p))) (p, []).

(** *** Acquire and release *)

(** [_notifyPositions()] over the queue [ws] *)
Definition _notifyPositions (ws : list waiter) : list event :=
  omap (fun x => x)
       (imap (fun i w => if onPositionChange w
                         then Some (Position (resolve w) (S i)) else None) ws).

Definition acquire (w : waiter) (p : pool) : pool * list event :=
  match list_find (fun i => ready i = true ∧ busy i = false) (_instances p) with
  | Some (slot, free) =>
      (update slot (set_busy true) p,
       [Granted (resolve w) slot (checker free) (id free)])
  | None =>
      let ws := _waiters p ++ [w] in
      (with_waiters p ws, _notifyPositions ws)
  end.

(** [_releaseInstance(inst)], [inst] being the object at index [slot]. *)
Definition _releaseInstance (slot : nat) (p : pool) : pool * list event :=
  match _instances p !! slot with
  | None => (p, [])
  | Some inst =>
      match _waiters p with
      | w :: ws =>
          (with_waiters p ws,
           _notifyPositions ws ++ [Granted (resolve w) slot (checker inst) (id inst)])
      | [] => (update slot (set_busy false) p, [])
      end
  end.

(** *** Failure accounting and recovery *)

Definition recordSuccess (x : nat) (p : pool) : pool :=
  match find_id x p with
  | Some (slot, _) => update slot (set_failures 0) p
  | None => p
  end.

(** [recoverInstance(id)] up to its first [await]: the guard, the entry in
    [_recovering], [ready = false], and the call of [destroy()].  The
    result tells whether the recovery was started. *)
Definition recoverInstance (x : nat) (p : pool) : pool * list event :=
  match find_id x p with
  | None => (p, [])
  | Some (slot, inst) =>
      if bool_decide (x ∈ _recovering p) then (p, [])
      else
        (update slot (set_ready false)
                (with_recovering p ({[ x ]} ∪ _recovering p)),
         [Destroy (checker inst)])
  end.

(** The rest of [recoverInstance], resumed when [destroy()] has settled:
    a new checker is made and [init()] is called on it ... *)
Definition recover_relaunch (slot : nat) (p : pool) : pool * list event :=
  let p1 := update slot (set_checker (fresh p)) p in
  (MkPool (_instances p1) (_waiters p1) (_recovering p1) (S (fresh p)),
   [Launch (fresh p)]).

(** ... and resumed again when [init()] has settled, with its outcome
    ([None]: ready; [Some msg]: it threw). *)
Definition recover_finish (slot : nat) (outcome : option Js.str) (p : pool)
  : pool :=
  match _instances p !! slot with
  | None => p
  | Some inst =>
      let p1 :=
        match outcome with
        | None =>
            update slot (fun i => set_failures 0 (set_error None (set_ready true i))) p
        | Some msg => update slot (set_error (Some msg)) p
        end in
      with_recovering p1 (_recovering p1 ∖ {[ id inst ]})
  end.

Definition recordFailure (x : nat) (p : pool) : pool * list event :=
  match find_id x p with
  | None => (p, [])
  | Some (slot, inst) =>
      let n := S (consecutiveFailures inst) in
      let p1 := update slot (set_failures n) p in
      if (3 <=? n)%nat && negb (bool_decide (x ∈ _recovering p1))
      then recoverInstance x p1
      else (p1, [])
  end.

(** [healthCheck()] probes one instance at a time and awaits each probe.
    The guard of the loop body, for the instance at [slot]: *)
Definition health_skips (slot : nat) (p : pool) : bool :=
  match _instances p !! slot with
  | None => true
  | Some inst =>
      negb (ready inst) || busy inst || bool_decide (id inst ∈ _recovering p)
  end.
(** and what happens when the awaited probe has thrown: *)
Definition health_probe_failed (slot : nat) (p : pool) : pool * list event :=
  match _instances p !! slot with
  | None => (p, [])
  | Some inst => recoverInstance (id inst) p
  end.

Definition reset (p : pool) : pool * list event :=
  (MkPool (set_busy false <$> _instances p) [] (_recovering p) (fresh p),
   (fun w => Unavailable (resolve w)) <$> _waiters p).

Definition destroyAll (p : pool) : list event :=
  (fun i => Destroy (checker i)) <$> _instances p.

(** *** Pool operations as a transition system

    Every synchronous stretch of pool code is one operation; a history of
    the pool is a list of operations. *)

Inductive op : Type :=
| AddInstance (x : nat) (cfg : Js.str)
| InitAll (launch : nat -> option Js.str)
| Acquire (w : waiter)
| Release (slot : nat)
| RecordSuccess (x : nat)
| RecordFailure (x : nat)
| RecoverRelaunch (slot : nat)
| RecoverFinish (slot : nat) (outcome : option Js.str)
| HealthProbeFailed (slot : nat)
| ResetPool.

Definition step (p : pool) (o : op) : pool * list event :=
  match o with
  | AddInstance x cfg => (addInstance x cfg p, [])
  | InitAll launch => initAll launch p
  | Acquire w => acquire w p
  | Release slot => _releaseInstance slot p
  | RecordSuccess x => (recordSuccess x p, [])
  | RecordFailure x => recordFailure x p
  | RecoverRelaunch slot => recover_relaunch slot p
  | RecoverFinish slot outcome => (recover_finish slot outcome p, [])
  | HealthProbeFailed slot => health_probe_failed slot p
  | ResetPool => reset p
  end.

Definition run (p : pool) (ops : list op) : pool * list event :=
  fold_left (fun acc o => let '(q, ev) := step (fst acc) o in (q, snd acc ++ ev))
            ops (p, []).

End Pool.

(* ===================================================================== *)
(** ** The reply observers: [waitForBotReply] and [sendAndStreamReply]
       ([DiscordAutomation]) *)
(* ===================================================================== *)

Module Observer.
Import Js.
Import Parser(reply, Reply, text, embeds).

(** What the in-page scripts read off one message element. *)
Record msg := Msg {
  authorId : option str;      (* data-author-id of the first element having one *)
  botTagElement : bool;       (* an element whose class contains botTag *)
  innerHTML : str;
  contentText : option str;   (* textContent of the content element, if any *)
  embedDescriptions : list str;
  embedWrappers : list str
}.

(** The selectors tried for the message list, in the order of the
    five-entry array of [waitForBotReply]. *)
Inductive selector : Type :=
| ChatMessagesId              (* [id^="chat-messages-"] *)
| ChatMessagesLi              (* li[id^="chat-messages"] *)
| MessageContent              (* [class*="message-"] [id^="message-content"] *)
| ChatMessagesOl              (* ol[data-list-id="chat-messages"] > li *)
| ChatContentLi.              (* [class*="chatContent"] li[class*="messageListItem"] *)

(** The rendered page: what each selector yields, and the children of the
    chat list (or of the scroller) when there is one. *)
Record page := Page {
  queryAll : selector -> list msg;
  chatChildren : option (list msg)
}.

Record snapshot := Snapshot { sel : option selector; count : nat }.

Fixpoint first_hit (sels : list selector) (pg : page) : snapshot :=
  match sels with
  | [] => Snapshot None 0
  | s :: more =>
      if (0 <? length (queryAll pg s))%nat
      then Snapshot (Some s) (length (queryAll pg s))
      else first_hit more pg
  end.

(** The baseline taken by [waitForBotReply] ... *)
Definition snapshot_wait (pg : page) : snapshot :=
  first_hit [ChatMessagesId; ChatMessagesLi; MessageContent; ChatMessagesOl;
             ChatContentLi] pg.
(** ... and by [sendAndStreamReply]. *)
Definition snapshot_stream (pg : page) : snapshot :=
  first_hit [ChatMessagesId; ChatMessagesLi; ChatMessagesOl; ChatContentLi] pg.

(** [msgs] of the polling scripts. *)
Definition messages (snap : snapshot) (pg : page) : list msg :=
  match sel snap with
  | Some s => queryAll pg s
  | None => default [] (chatChildren pg)
  end.

(** [!authorId] *)
Definition no_author (m : msg) : bool :=
  match authorId m with
  | None | Some [] => true
  | Some (_ :: _) => false
  end.

(** The three signals, joined by [||]. *)
Definition isFromBot (botId : str) (m : msg) : bool :=
  let hasBotTag := botTagElement m || includes (lit "botTag") (innerHTML m) in
  let avatarMatch := includes botId (innerHTML m) in
  bool_decide (authorId m = Some botId) || avatarMatch
  || (hasBotTag && no_author m).

(** [{ text, embeds }] of a message. *)
Definition extract (m : msg) : reply :=
  let text := from_option trim [] (contentText m) in
  let embeds := trim <$> embedDescriptions m in
  match embeds, embedWrappers m with
  | [], _ :: _ =>
      Reply text (filter (fun t => t ≠ []) (trim <$> embedWrappers m))
  | _, _ => Reply text embeds
  end.

(** [for (let i = n - 1; i >= lo; i--)] over [msgs], returning at the
    first message from the bot; the result carries the index. *)
Fixpoint scan_down (botId : str) (msgs : list msg) (lo : Z) (n : nat)
  : option (nat * reply) :=
  match n with
  | O => None
  | S i =>
      if (Z.of_nat i <? lo)%Z then None
      else
        match msgs !! i with
        | Some m =>
            if isFromBot botId m then Some (i, extract m)
            else scan_down botId msgs lo i
        | None => scan_down botId msgs lo i
        end
  end.

(** The first polling script of [waitForBotReply]. *)
Definition find_new (snap : snapshot) (botId : str) (pg : page)
  : option (nat * reply) :=
  let msgs := messages snap pg in
  if (length msgs <=? count snap)%nat then None
  else scan_down botId msgs (Z.of_nat (count snap)) (length msgs).

(** Its second script, run while the text settles. *)
Definition find_last (snap : snapshot) (botId : str) (pg : page)
  : option (nat * reply) :=
  let msgs := messages snap pg in
  scan_down botId msgs 0 (length msgs).

(** [readBot] of [sendAndStreamReply]. *)
Definition readBot (snap : snapshot) (botId : str) (pg : page)
  : option (nat * reply) :=
  let msgs := messages snap pg in
  scan_down botId msgs (Z.max 0 (Z.of_nat (count snap) - 1)) (length msgs).

(** *** The polling loop of [sendAndStreamReply]

    One entry per turn of the [while] loop: the clock reading of the loop
    condition (as [Date.now() - startTime]), [onUpdate._aborted] after the
    150 ms wait, and what [readBot()] returned. *)

Record poll := Poll {
  elapsed : Z;
  aborted : bool;
  current : option reply
}.

(** What calling [onUpdate] amounts to: a value that is or is not [false],
    or an exception. *)
Inductive cbresult : Type :=
| Returned (notFalse : bool)
| Threw.

Definition full (r : reply) : str := text r ++ [10] ++ join [10] (embeds r).

Section Stream.
Context {U : Type}.
Variable onUpdate : U -> reply -> U * cbresult.
Variable waitMs : Z.

Record lstate := LState {
  lastText : str;
  unchangedCount : nat;
  foundBot : bool;
  contentComplete : bool;
  user : U                           (* the state the callback closes over *)
}.

Definition start (s : U) : lstate := LState [] 0 false true s.

(** The loop body from [foundBot = true] to the stability test. *)
Definition observe (r : reply) (st : lstate) : lstate :=
  if bool_decide (full r ≠ lastText st) then
    let '(s', res) := onUpdate (user st) r in
    LState (full r) 0 true
           (match res with Returned b => b | Threw => true end) s'
  else
    LState (lastText st) (S (unchangedCount st)) true (contentComplete st)
           (user st).

Inductive ending : Type := HardTimeout | Aborted.

Inductive outcome : Type :=
| Stable (r : reply) (st : lstate)        (* the return inside the loop *)
| Ended (why : ending) (st : lstate)      (* the loop was left *)
| Running (st : lstate).                  (* the script of polls ran out *)

Fixpoint loop (polls : list poll) (st : lstate) : outcome :=
  match polls with
  | [] => Running st
  | p :: more =>
      if negb (elapsed p <? waitMs)%Z then Ended HardTimeout st
      else if aborted p then Ended Aborted st
      else
        match current p with
        | None => loop more st
        | Some r =>
            let st' := observe r st in
            if contentComplete st' && (5 <=? unchangedCount st')%nat
            then Stable r st'
            else loop more st'
        end
  end.

(** The loop state after the polls [ps], none of which leaves the loop. *)
Definition replay (ps : list poll) (st : lstate) : lstate :=
  fold_left (fun st p => match current p with
                         | Some r => observe r st
                         | None => st
                         end) ps st.

(** *** Vocabulary for histories of the loop *)

(** The poll passes the loop condition and the abort test. *)
Definition passes (p : poll) : Prop :=
  (elapsed p < waitMs)%Z /\ aborted p = false.

(** What the callback answered for [r0], called after the polls [pre] of
    a loop started with callback state [s0]. *)
Definition complete_after (s0 : U) (pre : list poll) (r0 : reply) : bool :=
  match snd (onUpdate (user (replay pre (start s0))) r0) with
  | Returned b => b
  | Threw => true
  end.

(** Every reading among the polls [tail] has the text of [r0]. *)
Definition unchanged (r0 : reply) (tail : list poll) : Prop :=
  Forall (fun p => forall r, current p = Some r -> full r = full r0) tail.

(** The loop has seen the reply: [p0] brought the text it now holds. *)
Definition tracking (s0 : U) (hist : list poll) (st : lstate) : Prop :=
  exists pre p0 r0 tail,
    hist = pre ++ p0 :: tail
    /\ current p0 = Some r0
    /\ lastText st = full r0
    /\ contentComplete st = complete_after s0 pre r0
    /\ unchanged r0 tail
    /\ unchangedCount st = length (omap current tail).

(** The loop has not seen a reply yet. *)
Definition waiting (st : lstate) : Prop :=
  lastText st = [] /\ unchangedCount st = 0%nat.

(** The state the loop is in after the polls [hist], none of which made
    it return. *)
Definition sound (s0 : U) (hist : list poll) (st : lstate) : Prop :=
  st = replay hist (start s0)
  /\ (waiting st \/ tracking s0 hist st)
  /\ contentComplete st && (5 <=? unchangedCount st)%nat = false
  /\ Forall passes hist.

(** The polls [all] end in the early return of [r]: the reading [r0] of
    [p0] was the last change and was answered "complete", and the five
    readings after it, up to [q], were unchanged. *)
Definition settled (s0 : U) (all : list poll) (r : reply) (st : lstate)
  : Prop :=
  exists pre p0 r0 tail q rest,
    all = pre ++ p0 :: tail ++ q :: rest
    /\ current p0 = Some r0
    /\ complete_after s0 pre r0 = true
    /\ unchanged r0 (tail ++ [q])
    /\ length (omap current (tail ++ [q])) = 5%nat
    /\ current q = Some r
    /\ Forall passes (pre ++ p0 :: tail ++ [q])
    /\ st = replay (pre ++ p0 :: tail ++ [q]) (start s0).

(** After the loop: throw when the bot was never seen, else read once
    more and fall back to the last text. [None] is the thrown error. *)
Definition after_loop (final : option reply) (st : lstate) : option reply :=
  if negb (foundBot st) then None
  else Some (default (Reply (lastText st) []) final).

(** The loop and what follows it, in a run in which [sendMessage] and every
    page call succeed; [StreamCall] below has the whole call. *)
Definition sendAndStreamReply (polls : list poll) (final : option reply)
  (s : U) : option (option reply) :=
  match loop polls (start s) with
  | Stable r _ => Some (Some r)
  | Ended _ st => Some (after_loop final st)
  | Running _ => None
  end.
End Stream.

End Observer.

(* ===================================================================== *)
(** ** Request handlers of the two web servers *)
(* ===================================================================== *)

Module Legacy.
Import Js.

(** [anyReady()] and [firstError()] of [startWebServer] *)
Definition anyReady (p : Pool.pool) : bool :=
  existsb Pool.ready (Pool._instances p).
Definition firstError (p : Pool.pool) : option str :=
  match find (fun i => match Pool.error i with
                       | Some (_ :: _) => true
                       | _ => false
                       end) (Pool._instances p) with
  | Some bad => Pool.error bad
  | None => None
  end.

(** The body of the [/api/status] answer. *)
Record status := Status {
  ready : bool;
  error : option str;
  queue : nat;
  busy : bool;
  poolSize : nat;
  activeScans : nat;
  remaining : RateLimiter.limit;
  retryAfter : option Z                 (* seconds; None: NaN *)
}.

(** [Math.ceil(ms / 1000)] *)
Definition ceil_seconds (ms : Z) : Z := (- ((- ms) / 1000))%Z.

(** [GET /api/status]: [limiter.check], the pop, then the answer. *)
Definition get_status (now : Z) (ip : str) (l : RateLimiter.t) (p : Pool.pool)
  : status * RateLimiter.t :=
  let '(rl, l1) := RateLimiter.status_probe now ip l in
  (Status (anyReady p) (firstError p) (Pool.pending p) (Pool.allBusy p)
          (Pool.size p) (Pool.activeScanCount p) (RateLimiter.remaining rl)
          (if RateLimiter.allowed rl then Some 0%Z
           else ceil_seconds <$> RateLimiter.retryAfterMs rl),
   l1).

(** [!url] for a query parameter *)
Definition falsy (v : Url.value) : bool :=
  match v with
  | Url.VUndefined | Url.VStr [] => true
  | _ => false
  end.
(** the parameter inside a template literal *)
Definition shown (v : Url.value) : str :=
  match v with
  | Url.VUndefined => lit "undefined"
  | Url.VStr s => s
  | Url.VOther s => s
  end.

(** How [GET /api/check-stream] opens: the checks before the event stream,
    and, past them, the command and the first [pool.acquire] (no [await]
    separates the header from that call). *)
Inductive opening : Type :=
| BadRequest                            (* 400, URL is required *)
| NotConnected                          (* 503 *)
| RateLimited                           (* 429 *)
| Streaming (message : str) (events : list Pool.event).

Definition check_stream_open (now : Z) (ip : str) (url : Url.value)
  (request : nat) (l : RateLimiter.t) (p : Pool.pool)
  : opening * RateLimiter.t * Pool.pool :=
  if falsy url then (BadRequest, l, p)
  else if negb (anyReady p) then (NotConnected, l, p)
  else
    let '(rl, l1) := RateLimiter.check now ip l in
    if negb (RateLimiter.allowed rl) then (RateLimited, l1, p)
    else
      let message := lit "/check all " ++ shown url in
      let '(p1, ev) := Pool.acquire (Pool.Waiter request true) p in
      (Streaming message ev, l1, p1).

(** Server-sent events of one request. *)
Inductive sse : Type :=
| EvPlatform (p : Parser.platform)
| EvNote (n : str).

(** What the [onUpdate] closure of one attempt closes over. *)
Record ustate := UState {
  sentPlatforms : gset str;
  sawNote : bool;
  sent : list sse
}.

Definition emit_platform (st : ustate) (p : Parser.platform) : ustate :=
  if bool_decide (Parser.pstatus p = Parser.Loading) then st
  else if bool_decide (Parser.name p ∈ sentPlatforms st) then st
  else UState ({[ Parser.name p ]} ∪ sentPlatforms st) (sawNote st)
              (sent st ++ [EvPlatform p]).

Definition hasLoading (ps : list Parser.platform) : bool :=
  existsb (fun p => bool_decide (Parser.pstatus p = Parser.Loading)) ps.
Definition finishedCount (ps : list Parser.platform) : nat :=
  length (Parser.finished ps).

(** The callback handed to [sendRawStreaming]; it returns [looksComplete]. *)
Definition onUpdate (st : ustate) (partial : Parser.reply)
  : ustate * Observer.cbresult :=
  let parsed := Parser.parseBotResponse partial in
  let st := fold_left emit_platform (Parser.platforms parsed) st in
  let st :=
    match Parser.note parsed with
    | Some (c :: n) =>
        UState (sentPlatforms st) true (sent st ++ [EvNote (c :: n)])
    | _ => st
    end in
  let looksComplete :=
    negb (hasLoading (Parser.platforms parsed)) && sawNote st
    && (10 <=? finishedCount (Parser.platforms parsed))%nat in
  (st, Observer.Returned looksComplete).

End Legacy.

Module Native.
Import Js.

(** [GET /api/status] of the native server, as far as the limiter goes:
    [singleLimiter.check] followed by [singleLimiter.undo]. *)
Definition get_status (now : Z) (ip : str) (l : RateLimiter.t)
  : RateLimiter.limit * RateLimiter.t :=
  let '(rl, l1) := RateLimiter.check now ip l in
  (RateLimiter.remaining rl, RateLimiter.undo ip l1).

(** How [GET /api/check-stream] opens. *)
Inductive opening : Type :=
| Invalid                               (* 400, Invalid URL *)
| RateLimited                           (* 429 *)
| Streaming (url : str).                (* checkAllFilters(url, ...) *)

Definition check_stream_open (now : Z) (ip : str) (raw : Url.value)
  (l : RateLimiter.t) : opening * RateLimiter.t :=
  match Url.sanitizeUrl raw with
  | None | Some [] => (Invalid, l)
  | Some url =>
      let '(rl, l1) := RateLimiter.check now ip l in
      if negb (RateLimiter.allowed rl) then (RateLimited, l1)
      else (Streaming url, l1)
  end.

End Native.

(* ===================================================================== *)
(** ** Histories and inputs used by the theorems *)
(* ===================================================================== *)

Module Scenario.
Import Js.

Definition channel : str := lit "1350571419041529990".
Definition w (n : nat) : Pool.waiter := Pool.Waiter n true.

(** One instance, launched at the first attempt. *)
Definition boot : list Pool.op :=
  [Pool.AddInstance 0 channel; Pool.InitAll (fun _ => None)].

(** One instance whose two launch attempts both fail. *)
Definition failed_boot : list Pool.op :=
  [Pool.AddInstance 0 channel;
   Pool.InitAll (fun _ => Some (lit "Timeout 20000ms exceeded"))].

(** One request holds the only instance, two more wait for it. *)
Definition queued : list Pool.op :=
  boot ++ [Pool.Acquire (w 1); Pool.Acquire (w 2); Pool.Acquire (w 3)].

(** A request that gets the instance, fails, releases it and records the
    failure (the [catch] branch of the handlers). *)
Definition failed_request (n : nat) : list Pool.op :=
  [Pool.Acquire (w n); Pool.Release 0; Pool.RecordFailure 0].

(** Two failed requests; a third one holds the instance while a fourth
    queues up; the third fails, so its slot goes to the fourth ... *)
Definition handoff : list Pool.op :=
  boot ++ failed_request 1 ++ failed_request 2
  ++ [Pool.Acquire (w 3); Pool.Acquire (w 4); Pool.Release 0].
(** ... and its failure is recorded. *)
Definition third_failure : list Pool.op := handoff ++ [Pool.RecordFailure 0].

(** The relaunch of that recovery fails, and the fourth request, left
    with a destroyed checker, fails and releases. *)
Definition before_fourth_failure : list Pool.op :=
  third_failure
  ++ [Pool.RecoverRelaunch 0;
      Pool.RecoverFinish 0 (Some (lit "Timeout 20000ms exceeded"));
      Pool.Release 0].

(** The reply of the specification's parser example. *)
Definition fortiguard_reply : Parser.reply :=
  Parser.Reply
    (join [10] [lit "FortiGuard";
                lit "Malware - Likely Blocked (took 212ms)";
                lit "...";
                lit "All checkers use the default settings."])
    [].

Definition doubled_url : str := lit "http://http://example.com//".

(** Synthetic answers of the bot in the two-line form: one result per
    name, and the disclaimer when [noted]. *)
Definition names10 : list str :=
  [lit "ContentKeeper"; lit "Lightspeed"; lit "Securly"; lit "AristotleK12";
   lit "Senso Cloud"; lit "Linewize"; lit "Cisco Umbrella"; lit "iBoss";
   lit "Palo Alto"; lit "LanSchool"].
Definition answer (names : list str) (noted : bool) : Parser.reply :=
  Parser.Reply
    (join [10]
       (flat_map (fun n => [n; lit "Education - Likely Unblocked (took 120ms)"])
                 names
        ++ if noted then [lit "All checkers use the default settings."]
           else []))
    [].
Definition complete_answer : Parser.reply := answer names10 true.
Definition partial_answer : Parser.reply := answer (take 9 names10) false.

Definition reads (t : Z) (r : Parser.reply) : Observer.poll :=
  Observer.Poll t false (Some r).
(** Nine results and no note, unchanged until the clock reaches the
    timeout of 15000 ms ... *)
Definition partial_script : list Observer.poll :=
  [Observer.Poll 150 false None; reads 300 partial_answer;
   reads 450 partial_answer; reads 600 partial_answer;
   reads 750 partial_answer; reads 900 partial_answer;
   reads 1050 partial_answer; reads 1200 partial_answer;
   reads 15000 partial_answer].
(** ... and ten results with the note, unchanged afterwards. *)
Definition complete_script : list Observer.poll :=
  [Observer.Poll 150 false None; reads 300 partial_answer;
   reads 450 complete_answer; reads 600 complete_answer;
   reads 750 complete_answer; reads 900 complete_answer;
   reads 1050 complete_answer; reads 1200 complete_answer;
   reads 1350 complete_answer].
Definition fresh_attempt : Legacy.ustate := Legacy.UState ∅ false [].

(** A channel as the streaming observer can meet it.  Before the command
    is sent the list shows one message, an earlier answer of the bot; after
    it the list shows that message and the command just sent. *)
Definition botId : str := lit "1198822044663386122".
Definition old_answer : Observer.msg :=
  Observer.Msg (Some botId) true (lit "<div class=botTag>APP</div>")
               (Some (lit "Results for example.org")) [] [].
Definition command : Observer.msg :=
  Observer.Msg (Some (lit "990011223344556677")) false (lit "<div></div>")
               (Some (lit "/check all example.com")) [] [].
Definition shows (l : list Observer.msg) : Observer.page :=
  Observer.Page (fun s => match s with
                          | Observer.ChatMessagesId => l
                          | _ => []
                          end) (Some l).
Definition before_send : Observer.page := shows [old_answer].
Definition after_send : Observer.page := shows [old_answer; command].

End Scenario.

(* ===================================================================== *)
(** ** The bot's limiter: [SlidingWindow] (Discord bot) *)
(* ===================================================================== *)

Module SlidingWindow.

Record t := Window {
  _limit : RateLimiter.limit;
  _windowMs : Z;
  _store : gmap Js.str (list Z)
}.

(** [{ ok: true }] or [{ ok: false, wait }]; [wait] is NaN ([None]) when
    the array is empty. *)
Inductive answer : Type :=
| Ok
| Wait (wait : option Z).

Definition with_store (w : t) (s : gmap Js.str (list Z)) : t :=
  Window (_limit w) (_windowMs w) s.

(** [hit(key)] at [Date.now() = now] *)
Definition hit (now : Z) (key : Js.str) (w : t) : answer * t :=
  let stamps :=
    filter (fun t => (now - _windowMs w < t)%Z) (default [] (_store w !! key)) in
  if RateLimiter.reached (length stamps) (_limit w) then
    (Wait ((fun first => (first + _windowMs w - now)%Z) <$> head stamps),
     with_store w (<[key := stamps]> (_store w)))
  else
    (Ok, with_store w (<[key := stamps ++ [now]]> (_store w))).

(** [prune()] *)
Definition prune (now : Z) (w : t) : t :=
  with_store w
    (filter (fun kv => snd kv ≠ [])
            ((fun ts => filter (fun t => (now - _windowMs w < t)%Z) ts)
               <$> _store w)).

(** The same window seen as a [RateLimiter]. *)
Definition as_limiter (w : t) : RateLimiter.t :=
  RateLimiter.Limiter (_limit w) (_windowMs w) (_store w).

End SlidingWindow.

(* ===================================================================== *)
(** ** Histories of a [RateLimiter] *)
(* ===================================================================== *)

Module LimiterOps.
Import RateLimiter.

Inductive op : Type :=
| Check (now : Z) (ip : Js.str)
| Undo (ip : Js.str)
| Cleanup (now : Z).

Definition step (l : t) (o : op) : t :=
  match o with
  | Check now ip => snd (check now ip l)
  | Undo ip => undo ip l
  | Cleanup now => cleanup now l
  end.

Definition run (l : t) (ops : list op) : t := fold_left step ops l.

(** A limiter as the servers construct it. *)
Definition create (maxHits : limit) (windowMs : Z) : t :=
  Limiter maxHits windowMs ∅.

(** Every client holds at most [m] timestamps. *)
Definition bounded (m : nat) (l : t) : Prop :=
  forall ip ts, _hits l !! ip = Some ts -> (length ts <= m)%nat.

(** Histories of the bot's [SlidingWindow], and the same history told to a
    [RateLimiter]. *)
Inductive window_op : Type :=
| Hit (now : Z) (key : Js.str)
| Prune (now : Z).

Definition window_step (w : SlidingWindow.t) (o : window_op)
  : SlidingWindow.t :=
  match o with
  | Hit now key => snd (SlidingWindow.hit now key w)
  | Prune now => SlidingWindow.prune now w
  end.

Definition window_run (w : SlidingWindow.t) (ops : list window_op)
  : SlidingWindow.t :=
  fold_left window_step ops w.

Definition as_limiter_op (o : window_op) : op :=
  match o with
  | Hit now key => Check now key
  | Prune now => Cleanup now
  end.

End LimiterOps.

(* ===================================================================== *)
(** ** [LinkChecker._parseReply]: the keyword verdict of the command line
       tool *)
(* ===================================================================== *)

Module LinkChecker.
Import Js.

Inductive verdict : Type := Safe | Unsafe | Unknown.

Definition safePatterns : list str :=
  [lit "safe"; lit "clean"; lit "no threats"; lit "not malicious";
   lit "legitimate"; lit "no issues"; lit "trusted"; lit "verified";
   lit "no risk"; lit "benign"].

Definition unsafePatterns : list str :=
  [lit "unsafe"; lit "malicious"; lit "phishing"; lit "scam";
   lit "dangerous"; lit "suspicious"; lit "threat"; lit "blocked";
   lit "harmful"; lit "malware"; lit "virus"; lit "compromised";
   lit "flagged"; lit "warning"; lit "risk"; lit "blacklisted";
   lit "deceptive"].

(** [[reply.text, ...reply.embeds].join(' ').toLowerCase()] *)
Definition combined (r : Parser.reply) : str :=
  to_lower (join (lit " ") (Parser.text r :: Parser.embeds r)).

Definition hasSafe (r : Parser.reply) : bool :=
  existsb (fun p => includes p (combined r)) safePatterns.
Definition hasUnsafe (r : Parser.reply) : bool :=
  existsb (fun p => includes p (combined r)) unsafePatterns.

Definition _parseReply (r : Parser.reply) : verdict :=
  if hasUnsafe r && negb (hasSafe r) then Unsafe
  else if hasSafe r && negb (hasUnsafe r) then Safe
  else if hasUnsafe r && hasSafe r then Unsafe
  else Unknown.

End LinkChecker.

(* ===================================================================== *)
(** ** Calls into the page *)
(* ===================================================================== *)

Module Async.

(** An awaited call into the page or the browser: its promise resolves
    with a value, or rejects with an error. *)
Inductive called (A : Type) : Type :=
| Resolved (a : A)
| Rejected (message : Js.str).
Arguments Resolved {A} a.
Arguments Rejected {A} message.

Definition resolved {A : Type} (c : called A) : Prop :=
  exists a, c = Resolved a.

End Async.

(* ===================================================================== *)
(** ** [waitForBotReply] as a whole

    The surroundings of a call: the page as the snapshot script finds it,
    and one entry per turn of a loop, with the clock reading of the loop
    condition (as [Date.now() - startTime]), the outcome of
    [page.waitForTimeout] and the page as the turn's script finds it (the
    first script in the outer loop, the second one while the text
    settles), or the rejection of that [page.evaluate]. *)
(* ===================================================================== *)

Module OneShot.
Import Js Observer Async.

Record tick := Tick {
  elapsed : Z;
  waited : called unit;
  shown : called page
}.

Inductive result : Type :=
| Replied (r : Parser.reply)            (* return { text, embeds } *)
| TimedOut                              (* throw: Timed out waiting ... *)
| Failed (message : str)                (* a page call rejected *)
| Running.                              (* the script of turns ran out *)

Section Wait.
Variable botId : str.
Variable waitMs : Z.
Variable snap : snapshot.

(** The inner loop: [stable] is [stableText] with [stableEmbeds], [n] is
    [unchangedCount].  The clock is read only while [n < 2]. *)
Fixpoint settle (ticks : list tick) (stable : Parser.reply) (n : nat)
  : result :=
  if (2 <=? n)%nat then Replied stable
  else
    match ticks with
    | [] => Running
    | t :: more =>
        if negb (elapsed t <? waitMs)%Z then Replied stable
        else
          match waited t, shown t with
          | Rejected e, _ => Failed e
          | Resolved _, Rejected e => Failed e
          | Resolved _, Resolved pg =>
              match find_last snap botId pg with
              | Some (_, updated) =>
                  if bool_decide (Parser.text updated = Parser.text stable)
                     && bool_decide (Parser.embeds updated
                                     = Parser.embeds stable)
                  then settle more stable (S n)
                  else settle more updated 0
              | None => settle more stable n
              end
          end
    end.

(** The outer loop. *)
Fixpoint poll_new (ticks : list tick) : result :=
  match ticks with
  | [] => Running
  | t :: more =>
      if negb (elapsed t <? waitMs)%Z then TimedOut
      else
        match waited t, shown t with
        | Rejected e, _ => Failed e
        | Resolved _, Rejected e => Failed e
        | Resolved _, Resolved pg =>
            match find_new snap botId pg with
            | Some (_, r) => settle more r 0
            | None => poll_new more
            end
        end
  end.

(** *** Vocabulary for the turns *)

(** Both page calls of the turn resolve. *)
Definition answers (t : tick) : Prop :=
  resolved (waited t) /\ resolved (shown t).

(** The turn is taken before the deadline and its calls resolve. *)
Definition taken (t : tick) : Prop :=
  (elapsed t < waitMs)%Z /\ answers t.

(** A turn of the outer loop that finds no new message of the bot. *)
Definition idle (t : tick) : Prop :=
  (elapsed t < waitMs)%Z /\ resolved (waited t)
  /\ exists pg, shown t = Resolved pg /\ find_new snap botId pg = None.

(** A turn of the outer loop that finds [r]. *)
Definition finds (t : tick) (r : Parser.reply) : Prop :=
  (elapsed t < waitMs)%Z /\ resolved (waited t)
  /\ exists pg i, shown t = Resolved pg
                  /\ find_new snap botId pg = Some (i, r).

(** A turn, reached before the deadline, in which a page call rejects
    with [e]. *)
Definition rejects (t : tick) (e : str) : Prop :=
  (elapsed t < waitMs)%Z /\ (waited t = Rejected e \/ shown t = Rejected e).

(** What the re-reads of the turns [ts] return, in order. *)
Definition rereads (ts : list tick) : list Parser.reply :=
  omap (fun t : tick => match shown t with
                        | Resolved pg => snd <$> find_last snap botId pg
                        | Rejected _ => None
                        end) ts.
End Wait.

Definition waitForBotReply (botId : str) (waitMs : Z) (before : called page)
  (ticks : list tick) : result :=
  match before with
  | Rejected e => Failed e
  | Resolved pg0 => poll_new botId waitMs (snapshot_wait pg0) ticks
  end.

End OneShot.

(* ===================================================================== *)
(** ** [sendAndStreamReply] as a whole

    The surroundings of a call: the page as the snapshot script finds it,
    how [sendMessage] ended, one entry per turn of the loop (the clock
    reading of the loop condition, the outcome of [page.waitForTimeout],
    [onUpdate._aborted] after it, and the page as [readBot] finds it), and
    the page at the [readBot] that follows the loop.  Every awaited call
    may reject, which ends the call with that error. *)
(* ===================================================================== *)

Module StreamCall.
Import Js Observer Async.

Record turn := Turn {
  clock : Z;
  waited : called unit;
  flag : bool;
  shown : called page
}.

Record run := Run {
  before : called page;
  send : called unit;
  turns : list turn;
  after : called page
}.

Inductive error : Type :=
| Failure (message : str)               (* an awaited call rejected *)
| NoReply.                              (* Timed out waiting for bot reply *)

Inductive result : Type :=
| Returns (r : Parser.reply)
| Throws (e : error)
| Pending.                              (* the script of turns ran out *)

Section Call.
Context {U : Type}.
Variable onUpdate : U -> Parser.reply -> U * cbresult.
Variable waitMs : Z.
Variable botId : str.

Inductive ending : Type :=
| Stable (r : Parser.reply)             (* the return inside the loop *)
| Left (st : @lstate U)                 (* the loop was left *)
| Broke (message : str)                 (* an awaited call rejected *)
| Unfinished.

Fixpoint loop (snap : snapshot) (ts : list turn) (st : @lstate U) : ending :=
  match ts with
  | [] => Unfinished
  | t :: more =>
      if negb (clock t <? waitMs)%Z then Left st
      else
        match waited t with
        | Rejected e => Broke e
        | Resolved _ =>
            if flag t then Left st
            else
              match shown t with
              | Rejected e => Broke e
              | Resolved pg =>
                  match readBot snap botId pg with
                  | None => loop snap more st
                  | Some (_, r) =>
                      let st' := observe onUpdate r st in
                      if contentComplete st'
                         && (5 <=? unchangedCount st')%nat
                      then Stable r
                      else loop snap more st'
                  end
              end
        end
  end.

Definition sendAndStreamReply (x : run) (s : U) : result :=
  match before x with
  | Rejected e => Throws (Failure e)
  | Resolved pg0 =>
      let snapshot := snapshot_stream pg0 in
      match send x with
      | Rejected e => Throws (Failure e)
      | Resolved _ =>
          match loop snapshot (turns x) (start s) with
          | Stable r => Returns r
          | Broke e => Throws (Failure e)
          | Unfinished => Pending
          | Left st =>
              if negb (foundBot st) then Throws NoReply
              else
                match after x with
                | Rejected e => Throws (Failure e)
                | Resolved pg =>
                    Returns (default (Parser.Reply (lastText st) [])
                                     (snd <$> readBot snapshot botId pg))
                end
          end
      end
  end.

(** *** Vocabulary for the turns *)

(** Both awaited calls of the turn resolve. *)
Definition answers (t : turn) : Prop :=
  resolved (waited t) /\ resolved (shown t).

(** A turn that stays in the loop and reads no message of the bot. *)
Definition idle (snap : snapshot) (t : turn) : Prop :=
  (clock t < waitMs)%Z /\ resolved (waited t) /\ flag t = false
  /\ exists pg, shown t = Resolved pg /\ readBot snap botId pg = None.

(** A turn at which the loop is left: the deadline has passed, or the
    abort flag is set. *)
Definition leaves (t : turn) : Prop :=
  (waitMs <= clock t)%Z \/ (resolved (waited t) /\ flag t = true).

(** A turn in which [readBot] returns [r]. *)
Definition reads (snap : snapshot) (t : turn) (r : Parser.reply) : Prop :=
  exists pg i, shown t = Resolved pg /\ readBot snap botId pg = Some (i, r).

(** A turn of the loop, reached before the deadline, in which an awaited
    call rejects with [e]. *)
Definition rejects (t : turn) (e : str) : Prop :=
  (clock t < waitMs)%Z /\ (waited t = Rejected e \/ shown t = Rejected e).

(** The readings of the turns, for a run in which no call rejects. *)
Definition polls_of (snap : snapshot) (ts : list turn) : list poll :=
  (fun t : turn =>
     Poll (clock t) (flag t)
          (match shown t with
           | Resolved pg => snd <$> readBot snap botId pg
           | Rejected _ => None
           end)) <$> ts.

(** The results of the loop-only model, as results of the call. *)
Definition of_outcome (o : option (option Parser.reply)) : result :=
  match o with
  | Some (Some r) => Returns r
  | Some None => Throws NoReply
  | None => Pending
  end.
End Call.

End StreamCall.

(* ===================================================================== *)
(** ** The attempt loop of the legacy [GET /api/check-stream]

    What the handler does once the event stream is open.  Its surroundings
    are given per attempt: the queue positions reported while it waited
    for the pool, what [pool.acquire] resolved to, the replies the observer
    passed to [onUpdate], how [sendRawStreaming] ended, and the [closed]
    flag at the moments the handler reads it. *)
(* ===================================================================== *)

Module LegacyStream.
Import Js.

Definition MAX_ATTEMPTS : nat := 2.

Inductive grant : Type :=
| Slot (slot chk ident : nat)           (* { checker, release, id } *)
| Sentinel.                             (* { checker: null, ... } after reset() *)

Inductive ending : Type :=
| Final (finalReply : Parser.reply)
| Thrown (message : option str).        (* err.message *)

Record attempt := Attempt {
  positions : list (bool * nat);        (* closed, position *)
  granted : grant;
  closed_after_acquire : bool;
  partials : list Parser.reply;
  ended : ending;
  closed_at_next_turn : bool
}.

(** What the handler does, in order: events written to the response,
    calls into the pool, and [res.end()]. *)
Inductive action : Type :=
| Queued (position : nat)
| Update (e : Legacy.sse)
| Done (url : Url.value) (count : nat)
| Failed (message : str)
| Call (o : Pool.op)
| EndResponse.

Inductive verdict : Type :=
| Returned                              (* return *)
| Succeeded                             (* success = true; break *)
| Again (err : option (option str)).    (* next turn; the error caught, if any *)

Definition reinitializing : str :=
  lit "Server is reinitializing " ++ [0x2014] ++ lit " try again".

Definition queued_events (ps : list (bool * nat)) : list action :=
  omap (fun cp : bool * nat =>
          if fst cp then None else Some (Queued (snd cp))) ps.

(** The final parse: platforms not sent yet are sent, then the note. *)
Definition final_events (u : Legacy.ustate) (r : Parser.reply)
  : Legacy.ustate :=
  let finalParsed := Parser.parseBotResponse r in
  let u := fold_left Legacy.emit_platform (Parser.platforms finalParsed) u in
  match Parser.note finalParsed with
  | Some (c :: n) =>
      Legacy.UState (Legacy.sentPlatforms u) (Legacy.sawNote u)
                    (Legacy.sent u ++ [Legacy.EvNote (c :: n)])
  | _ => u
  end.

(** One turn of the [for] loop, [sentPlatforms] being [sp] at its start. *)
Definition attempt_body (index : nat) (a : attempt) (sp : gset str)
  : list action * gset str * verdict :=
  match granted a with
  | Sentinel =>
      (queued_events (positions a) ++ [Failed reinitializing; EndResponse],
       sp, Returned)
  | Slot slot chk ident =>
      if closed_after_acquire a then
        (queued_events (positions a) ++ [Call (Pool.Release slot)], sp, Returned)
      else
        let u := fold_left (fun u r => fst (Legacy.onUpdate u r)) (partials a)
                           (Legacy.UState sp false []) in
        match ended a with
        | Final finalReply =>
            let u' :=
              final_events (Legacy.UState (Legacy.sentPlatforms u)
                                          (Legacy.sawNote u) [])
                           finalReply in
            (queued_events (positions a)
             ++ (Update <$> Legacy.sent u)
             ++ [Call (Pool.Release slot); Call (Pool.RecordSuccess ident)]
             ++ (Update <$> Legacy.sent u'),
             Legacy.sentPlatforms u',
             if (0 <? size (Legacy.sentPlatforms u'))%nat then Succeeded
             else if (index <? MAX_ATTEMPTS - 1)%nat then Again None
             else Succeeded)
        | Thrown message =>
            (queued_events (positions a)
             ++ (Update <$> Legacy.sent u)
             ++ [Call (Pool.Release slot); Call (Pool.RecordFailure ident)],
             Legacy.sentPlatforms u,
             Again (Some message))
        end
  end.

(** After the loop. *)
Definition conclude (url : Url.value) (success : bool) (sp : gset str)
  (lastError : option (option str)) : list action :=
  if success then [Done url (size sp); EndResponse]
  else
    [Failed (match lastError with
             | Some (Some (c :: m)) => c :: m
             | _ => lit "Scan failed after retries"
             end);
     EndResponse].

(** The [for] loop from turn [index] on; [inputs] are the surroundings of
    the turns still to come.  An empty result with turns left to run means
    that [inputs] ran out. *)
Fixpoint attempts (url : Url.value) (index : nat) (inputs : list attempt)
  (closed : bool) (sp : gset str) (lastError : option (option str))
  : list action :=
  if (index <? MAX_ATTEMPTS)%nat && negb closed then
    match inputs with
    | [] => []
    | a :: more =>
        let '(acts, sp', v) := attempt_body index a sp in
        match v with
        | Returned => acts
        | Succeeded => acts ++ conclude url true sp' lastError
        | Again err =>
            acts ++ attempts url (S index) more (closed_at_next_turn a) sp'
                             (match err with
                              | Some m => Some m
                              | None => lastError
                              end)
        end
    end
  else conclude url false sp lastError.

Definition handler (url : Url.value) (inputs : list attempt) : list action :=
  attempts url 0 inputs false ∅ None.

(** The names of the platform events among [acts], in order. *)
Definition platform_names (acts : list action) : list str :=
  omap (fun a : action => match a with
                 | Update (Legacy.EvPlatform p) => Some (Parser.name p)
                 | _ => None
                 end) acts.
(** The calls into the pool among [acts], in order. *)
Definition pool_calls (acts : list action) : list Pool.op :=
  omap (fun a : action => match a with Call o => Some o | _ => None end) acts.

End LegacyStream.

(* ===================================================================== *)
(** ** How [GET /api/batch] of the native server opens *)
(* ===================================================================== *)

Module NativeBatch.
Import Js.

Definition MAX_BATCH : nat := 20.

(** What [JSON.parse] made of the parameter. *)
Inductive json : Type :=
| JArray (items : list Url.value)
| JOther.

Inductive opening : Type :=
| NoParameter                           (* 400, Provide a urls query parameter *)
| BadJson                               (* 400, Invalid urls parameter *)
| NotAnArray                            (* 400, Provide a urls array *)
| TooMany                               (* 400, Maximum 20 URLs per batch *)
| RateLimited                           (* 429 *)
| NoValidUrl                            (* 400, No valid URLs provided *)
| Streaming (urls : list str).

(** [if (cleaned) urls.push(cleaned)] over the items *)
Definition valid_urls (items : list Url.value) : list str :=
  omap (fun raw : Url.value => match Url.sanitizeUrl raw with
                   | Some (c :: u) => Some (c :: u)
                   | _ => None
                   end) items.

(** [parsed] is the outcome of [JSON.parse(rawParam)], [None] when it
    threw. *)
Definition batch_open (now : Z) (ip : str) (rawParam : Url.value)
  (parsed : option json) (l : RateLimiter.t) : opening * RateLimiter.t :=
  if Legacy.falsy rawParam then (NoParameter, l)
  else
    match parsed with
    | None => (BadJson, l)
    | Some JOther | Some (JArray []) => (NotAnArray, l)
    | Some (JArray rawUrls) =>
        if (MAX_BATCH <? length rawUrls)%nat then (TooMany, l)
        else
          let '(rl, l1) := RateLimiter.check now ip l in
          if negb (RateLimiter.allowed rl) then (RateLimited, l1)
          else
            match valid_urls rawUrls with
            | [] => (NoValidUrl, l1)
            | urls => (Streaming urls, l1)
            end
    end.

End NativeBatch.

(* ===================================================================== *)
(** ** Reading a pool history *)
(* ===================================================================== *)

Module PoolTrace.

(** The promises resolved with a slot, in the order of the events. *)
Definition grants (ev : list Pool.event) : list nat :=
  omap (fun e : Pool.event => match e with
                              | Pool.Granted promise _ _ _ => Some promise
                              | _ => None
                              end) ev.

(** What [initAll] leaves of the instance [before], [launch c] being what
    [init()] of checker [c] does: the same identity, configuration and
    busy flag, and either a ready instance, without error and with a zero
    counter, whose checker was launched, or an instance that is not ready
    and carries the error of a launch that failed. *)
Definition launched (launch : nat -> option Js.str)
  (before after : Pool.instance) : Prop :=
  Pool.id after = Pool.id before
  /\ Pool.config after = Pool.config before
  /\ Pool.busy after = Pool.busy before
  /\ ((Pool.ready after = true /\ Pool.error after = None
       /\ Pool.consecutiveFailures after = 0%nat
       /\ launch (Pool.checker after) = None)
      \/ (Pool.ready after = false
          /\ (exists c msg, launch c = Some msg
                            /\ Pool.error after = Some msg)
          /\ Pool.consecutiveFailures after
             = Pool.consecutiveFailures before)).

End PoolTrace.

(* ===================================================================== *)
(** ** Reading a parse result *)
(* ===================================================================== *)

Module ParserShape.
Import Js Parser.

(** How the fields of one entry hang together: a loading entry and an
    error entry carry no timing and fixed texts; any other entry has the
    status its detail text classifies to, and no icon. *)
Definition coherent (p : platform) : Prop :=
  match pstatus p with
  | Loading =>
      ms p = None /\ category p = lit "Loading..."
      /\ detail p = lit "Loading..." /\ icon p = hourglass
  | Error => ms p = None /\ category p = detail p /\ icon p = warning_sign
  | s => s = classify (detail p) /\ icon p = []
  end.

Definition coherent_state (st : pstate) : Prop := Forall coherent (out st).

Definition blank (s : str) : Prop := Forall (fun c => is_space c = true) s.

End ParserShape.

(* ===================================================================== *)
(** ** Reading the actions of a streaming request *)
(* ===================================================================== *)

Module StreamTrace.
Import Js LegacyStream.

(** The names of the platform events among [evs], in order. *)
Definition sent_names (evs : list Legacy.sse) : list str :=
  omap (fun e : Legacy.sse => match e with
                              | Legacy.EvPlatform p => Some (Parser.name p)
                              | Legacy.EvNote _ => None
                              end) evs.

(** The callback state [u] extends the set [sp] of names sent before by
    the names of its own platform events, each sent once and none of them
    loading. *)
Definition extends (sp : gset str) (u : Legacy.ustate) : Prop :=
  NoDup (sent_names (Legacy.sent u))
  /\ (forall n, n ∈ sent_names (Legacy.sent u) -> n ∉ sp)
  /\ Legacy.sentPlatforms u = sp ∪ list_to_set (sent_names (Legacy.sent u))
  /\ Forall (fun e => match e with
                      | Legacy.EvPlatform p => Parser.pstatus p <> Parser.Loading
                      | Legacy.EvNote _ => True
                      end) (Legacy.sent u).

(** [done] and [error] events. *)
Definition terminal (a : action) : bool :=
  match a with
  | Done _ _ | Failed _ => true
  | _ => false
  end.

(** What one turn of the loop calls in the pool, when it calls it. *)
Definition accounted (calls : list Pool.op) : Prop :=
  exists slot ident,
    calls = [Pool.Release slot]
    \/ calls = [Pool.Release slot; Pool.RecordSuccess ident]
    \/ calls = [Pool.Release slot; Pool.RecordFailure ident].

(** The actions that close a request: [done], [error] and [res.end()]. *)
Definition closing (a : action) : bool :=
  match a with
  | Done _ _ | Failed _ | EndResponse => true
  | _ => false
  end.

(** The response is answered: one [done] or [error], then [res.end()],
    and nothing of the kind before. *)
Definition answered (acts : list action) : Prop :=
  exists pre t,
    acts = pre ++ [t; EndResponse]
    /\ terminal t = true
    /\ Forall (fun a => closing a = false) pre.

(** The handler returns without a word after giving its slot back. *)
Definition abandoned (acts : list action) : Prop :=
  exists pre slot,
    acts = pre ++ [Call (Pool.Release slot)]
    /\ Forall (fun a => closing a = false) pre.

(** The client left while the attempt [a] waited for the pool, and the
    pool then granted it [slot]. *)
Definition left_while_queued (a : attempt) (slot : nat) : Prop :=
  exists chk ident,
    granted a = Slot slot chk ident /\ closed_after_acquire a = true.

(** A reply in which every platform the parser finds is still loading. *)
Definition unsettled (r : Parser.reply) : Prop :=
  Forall (fun p => Parser.pstatus p = Parser.Loading)
         (Parser.platforms (Parser.parseBotResponse r)).

(** An attempt that was granted a slot, kept its client, saw the replies
    [seen] and ended with [final]. *)
Definition quiet_attempt (slot ident : nat) (seen : list Parser.reply)
  (final : Parser.reply) : attempt :=
  Attempt [] (Slot slot slot ident) false seen (Final final) false.

End StreamTrace.

(* ===================================================================== *)
(** ** What an accepted URL looks like *)
(* ===================================================================== *)

Module UrlShape.
Import Js.

(** Not empty, at most 2048 code units, no space and no angle bracket, and
    an ASCII letter or digit somewhere. *)
Definition well_formed (u : str) : Prop :=
  u <> []
  /\ (length u <= 2048)%nat
  /\ ~ In 32 u /\ ~ In 60 u /\ ~ In 62 u
  /\ Exists (fun c => is_alnum c = true) u.

(** [needle] occurs in [s]. *)
Definition occurs (needle s : str) : Prop :=
  exists before after, s = before ++ needle ++ after.

End UrlShape.

(* ===================================================================== *)
(** ** What the observers' scripts select *)
(* ===================================================================== *)

Module ObserverShape.
Import Js Observer.

(** The snapshot [snap] records the page [pg]: its selector is the first
    one of [sels] that matches an element, its count the number of
    elements that selector matches, all of which [messages] lists; when no
    selector of [sels] matches, the selector is null and the count 0. *)
Definition records (sels : list selector) (snap : snapshot) (pg : page)
  : Prop :=
  match sel snap with
  | Some s =>
      (exists pre post,
          sels = pre ++ s :: post
          /\ Forall (fun s' => queryAll pg s' = []) pre)
      /\ queryAll pg s <> []
      /\ count snap = length (queryAll pg s)
      /\ messages snap pg = queryAll pg s
  | None =>
      Forall (fun s' => queryAll pg s' = []) sels /\ count snap = 0%nat
  end.

(** The message at index [i] is the newest message of the bot among those
    at index [lo] or above, and [r] is what the script extracts from it. *)
Definition newest_from (botId : str) (msgs : list msg) (lo i : nat)
  (r : Parser.reply) : Prop :=
  (lo <= i)%nat
  /\ (exists m, msgs !! i = Some m /\ isFromBot botId m = true
                /\ r = extract m)
  /\ forall j m', (i < j)%nat -> msgs !! j = Some m' ->
                  isFromBot botId m' = false.

(** No message at index [lo] or above is the bot's. *)
Definition none_from (botId : str) (msgs : list msg) (lo : nat) : Prop :=
  forall j m, (lo <= j)%nat -> msgs !! j = Some m ->
              isFromBot botId m = false.

End ObserverShape.

(* ===================================================================== *)
(** * Theorems *)
(* ===================================================================== *)
Section ReFacts.
Import Js Re.

Lemma search_from_Some r s fuel i0 i m :
  search_from r s fuel i0 = Some (i, m) -> match_at r s i = Some m.
Proof.
  revert i0. induction fuel as [|fuel IH]; intros i0; simpl.
  - destruct (match_at r s i0) eqn:E; [|discriminate].
    intros [= <- <-]. exact E.
  - destruct (match_at r s i0) eqn:E.
    + intros [= <- <-]. exact E.
    + apply IH.
Qed.

End ReFacts.

Section UrlShape.
Import Js Re Url.

Lemma scheme_prefix_eq :
  scheme_prefix =
  Cat Bol
    (Cat (Cat (chr_i 104) (Cat (chr_i 116) (Cat (chr_i 116) (chr_i 112))))
         (Cat (opt (chr_i 115)) (Cat (chr 58) (Cat (chr 47) (chr 47))))).
Proof. reflexivity. Qed.

Ltac crack H :=
  repeat match type of H with
    | (if ?b then _ else _) = _ => destruct b eqn:?; try discriminate H
    | match (if ?b then _ else _) with _ => _ end = _ =>
        destruct b eqn:?; try discriminate H
    | match (match ?l with [] => _ | _ :: _ => _ end) with _ => _ end = _ =>
        destruct l; try discriminate H
    | match ?l with [] => _ | _ :: _ => _ end = _ =>
        destruct l; try discriminate H
    end.

Lemma match_scheme u i m :
  match_at scheme_prefix u i = Some m ->
  i = 0%nat /\ exists pre, u = pre ++ rest m /\ is_scheme pre.
Proof.
  unfold match_at. destruct i as [|i]; [|discriminate].
  rewrite drop_0, scheme_prefix_eq. intros H. split; [reflexivity|].
  destruct u as [|c1 [|c2 [|c3 [|c4 [|c5 [|c6 [|c7 u]]]]]]]; try discriminate;
  cbn [run seq chr_i chr opt rest pos advance Nat.eqb Nat.leb Nat.add length
       below Nat.ltb andb] in H.
  all: crack H.
  all: injection H as <-; cbn [rest advance].
  all: repeat match goal with
       | E : (_ =? _) = true |- _ => apply N.eqb_eq in E
       end.
  all: subst.
  all: try discriminate.
  all: try match goal with
       | E : fold_case 58 = _ |- _ => vm_compute in E; discriminate E
       end.
  all: match goal with
       | |- exists pre, ?l = pre ++ ?r /\ _ =>
           first [ exists (take 8 l); split; [reflexivity|]
                 | exists (take 7 l); split; [reflexivity|] ]
       end.
  all: unfold is_scheme; cbn [take firstn map];
       repeat match goal with
         | E : fold_case _ = _ |- _ => rewrite E; clear E
         end;
       first [ left; reflexivity | right; reflexivity ].
Qed.

Lemma match_trailing_slash u i m :
  match_at trailing_slash u i = Some m -> drop i u = [47] /\ rest m = [].
Proof.
  unfold match_at, trailing_slash.
  cbn [run chr rest pos advance]. intros H.
  destruct (drop i u) as [|c [|d t]]; crack H; try discriminate.
  injection H as <-. apply N.eqb_eq in Heqb. subst. split; reflexivity.
Qed.

Lemma strip_shape u :
  exists pre suf,
    u = pre ++ strip u ++ suf
    /\ (pre = [] \/ is_scheme pre) /\ (suf = [] \/ suf = [47]).
Proof.
  unfold strip.
  assert (exists pre, u = pre ++ remove_first scheme_prefix u
                      /\ (pre = [] \/ is_scheme pre)) as (pre & Hu & Hpre).
  { unfold remove_first. destruct (exec scheme_prefix u) as [[i m]|] eqn:E.
    - apply search_from_Some, match_scheme in E as (-> & pre & Hu & Hs).
      exists pre. split; [exact Hu | right; exact Hs].
    - exists []. split; [reflexivity | left; reflexivity]. }
  set (v := remove_first scheme_prefix u) in *.
  exists pre. unfold remove_first.
  destruct (exec trailing_slash v) as [[i m]|] eqn:E.
  - apply search_from_Some, match_trailing_slash in E as (Hd & ->).
    exists [47]. split; [|split; [exact Hpre | right; reflexivity]].
    rewrite app_nil_r, <- Hd, take_drop. exact Hu.
  - exists []. rewrite app_nil_r. split; [exact Hu|].
    split; [exact Hpre | left; reflexivity].
Qed.

Lemma trim_start_shape s :
  exists a, s = a ++ trim_start s /\ Forall (fun c => is_space c = true) a.
Proof.
  induction s as [|c s (a & Hs & Ha)]; simpl.
  - exists []. split; [reflexivity | constructor].
  - destruct (is_space c) eqn:E.
    + exists (c :: a). split; [simpl; congruence | constructor; assumption].
    + exists []. split; [reflexivity | constructor].
Qed.

Lemma trim_shape s :
  exists a b,
    s = a ++ trim s ++ b
    /\ Forall (fun c => is_space c = true) a
    /\ Forall (fun c => is_space c = true) b.
Proof.
  destruct (trim_start_shape s) as (a & Hs & Ha).
  destruct (trim_start_shape (rev (trim_start s))) as (b & Hr & Hb).
  exists a, (rev b). split; [|split; [exact Ha | apply Forall_rev; exact Hb]].
  unfold trim, trim_end. rewrite <- rev_app_distr, <- Hr, rev_involutive.
  exact Hs.
Qed.

Lemma trim_keeps c s : In c s -> is_space c = false -> In c (trim s).
Proof.
  intros Hin Hc. destruct (trim_shape s) as (a & b & Hs & Ha & Hb).
  rewrite Hs in Hin. rewrite !in_app_iff in Hin.
  rewrite Forall_forall in Ha, Hb.
  destruct Hin as [Hin|[Hin|Hin]]; [|exact Hin|].
  - apply list_elem_of_In, Ha in Hin. congruence.
  - apply list_elem_of_In, Hb in Hin. congruence.
Qed.

Lemma trim_sub c s : In c (trim s) -> In c s.
Proof.
  intros Hin. destruct (trim_shape s) as (a & b & Hs & _).
  rewrite Hs, !in_app_iff. auto.
Qed.

Lemma strip_sub c u : In c (strip u) -> In c u.
Proof.
  intros Hin. destruct (strip_shape u) as (pre & suf & Hu & _).
  rewrite Hu, !in_app_iff. auto.
Qed.

(** A code unit that is neither a slash nor one of the units of a scheme
    prefix survives [strip]. *)
Lemma strip_keeps c u :
  In c u -> c <> 47 -> ~ In (fold_case c) (lit "HTTPS://") -> In c (strip u).
Proof.
  intros Hin H47 Hs. destruct (strip_shape u) as (pre & suf & Hu & Hpre & Hsuf).
  rewrite Hu, !in_app_iff in Hin. destruct Hin as [Hin|[Hin|Hin]].
  - destruct Hpre as [->|[E|E]]; [destruct Hin| |];
      apply (in_map fold_case) in Hin; rewrite E in Hin; exfalso; apply Hs.
    + simpl in Hin |- *. tauto.
    + exact Hin.
  - exact Hin.
  - destruct Hsuf as [->| ->]; [destruct Hin|].
    destruct Hin as [<-|[]]. congruence.
Qed.

Lemma includes_unit c s : In c s -> includes [c] s = true.
Proof.
  induction s as [|d s IH]; [intros []|].
  intros [->|Hin]; simpl.
  - rewrite N.eqb_refl. reflexivity.
  - rewrite (IH Hin). apply orb_true_r.
Qed.

Lemma search_from_fails r s :
  (forall i, match_at r s i = None) ->
  forall fuel i0, search_from r s fuel i0 = None.
Proof.
  intros H. induction fuel as [|fuel IH]; intros i0; simpl; rewrite H; auto.
Qed.

Lemma test_alphanumeric_false s :
  Forall (fun c => is_alnum c = false) s -> test alphanumeric s = false.
Proof.
  intros H. unfold test, exec. rewrite search_from_fails; [reflexivity|].
  intros i. unfold match_at, alphanumeric. cbn [run rest].
  destruct (drop i s) as [|c t] eqn:E; [reflexivity|].
  rewrite Forall_forall in H.
  assert (c ∈ s) as Hc.
  { rewrite <- (take_drop i s), E. set_solver. }
  rewrite (H c Hc). reflexivity.
Qed.
End UrlShape.

(** ** URL normalisation *)

Section UrlFacts.
Import Js Url.

Lemma sanitizeUrl_shape s t :
  sanitizeUrl (VStr s) = Some t ->
  exists pre suf,
    trim s = pre ++ t ++ suf
    /\ (pre = [] \/ is_scheme pre) /\ (suf = [] \/ suf = lit "/").
Proof.
  unfold sanitizeUrl.
  destruct (is_empty (trim s)); [discriminate|].
  destruct (2048 <? length (trim s))%nat; [discriminate|].
  destruct (_ || _); [discriminate|].
  destruct (negb _); [discriminate|].
  intros [= <-]. apply strip_shape.
Qed.

(** C10. [sanitizeUrl], and [cleanUrl], which is the same function on
    strings, removes at most one scheme prefix and at most one trailing
    slash per call and is not idempotent: the input
    [http://http://example.com//] is accepted with the result
    [http://example.com/], which still begins with [http://], and a second
    call gives the different result [example.com]. *)
Theorem sanitizeUrl_not_idempotent :
  (forall s, cleanUrl s = sanitizeUrl (VStr s))
  /\ (forall s t,
         sanitizeUrl (VStr s) = Some t ->
         exists pre suf,
           trim s = pre ++ t ++ suf
           /\ (pre = [] \/ is_scheme pre) /\ (suf = [] \/ suf = lit "/"))
  /\ exists s t : str,
       s = Scenario.doubled_url
       /\ sanitizeUrl (VStr s) = Some t
       /\ sanitizeUrl (VStr t) <> sanitizeUrl (VStr s)
       /\ starts_with (lit "http://") t = true
       /\ t = lit "http://example.com/"
       /\ sanitizeUrl (VStr t) = Some (lit "example.com").
Proof.
  split; [reflexivity|]. split; [exact sanitizeUrl_shape|].
  exists Scenario.doubled_url, (lit "http://example.com/").
  repeat split; try (vm_compute; reflexivity).
  vm_compute. discriminate.
Qed.

End UrlFacts.


Section StreamValidation.
Import Js Re Url UrlShape.

Lemma includes_unit_In c s : includes [c] s = true -> In c s.
Proof.
  induction s as [|d s IH]; cbn; [discriminate|].
  destruct (N.eqb_spec c d) as [->|Hne]; cbn; [auto|].
  intros H. right. apply IH, H.
Qed.

Lemma search_from_hits r s j :
  match_at r s j <> None ->
  forall fuel i0, (i0 <= j <= i0 + fuel)%nat -> search_from r s fuel i0 <> None.
Proof.
  intros Hj. induction fuel as [|fuel IH]; intros i0 Hi; cbn [search_from].
  - assert (i0 = j) as -> by lia.
    destruct (match_at r s j); [discriminate | destruct (Hj eq_refl)].
  - destruct (match_at r s i0) eqn:E; [discriminate|].
    apply IH. destruct (decide (i0 = j)) as [->|Hne]; [congruence | lia].
Qed.

Lemma test_alphanumeric_finds s :
  Exists (fun c => is_alnum c = true) s -> test alphanumeric s = true.
Proof.
  intros H. apply Exists_exists in H as (c & Hin & Hc).
  apply list_elem_of_lookup in Hin as (j & Hj).
  unfold test, exec.
  destruct (search_from alphanumeric s (length s) 0) eqn:E; [reflexivity|].
  exfalso. revert E. apply (search_from_hits alphanumeric s j).
  - unfold match_at, alphanumeric. cbn [run rest].
    rewrite (drop_S _ _ _ Hj), Hc. discriminate.
  - apply lookup_lt_Some in Hj. lia.
Qed.

Lemma includes_unit_false c s : includes [c] s = false -> ~ In c s.
Proof.
  intros H Hin. rewrite (includes_unit c s Hin) in H. discriminate.
Qed.

Lemma test_alphanumeric_true s :
  test alphanumeric s = true -> Exists (fun c => is_alnum c = true) s.
Proof.
  intros H. destruct (existsb is_alnum s) eqn:E.
  - apply existsb_exists in E as (c & Hin & Hc). apply Exists_exists.
    exists c. split; [apply list_elem_of_In; exact Hin | exact Hc].
  - rewrite test_alphanumeric_false in H; [discriminate|].
    apply Forall_forall. intros c Hin. apply list_elem_of_In in Hin.
    destruct (is_alnum c) eqn:Hc; [|reflexivity].
    assert (existsb is_alnum s = true) as E'
        by (apply existsb_exists; exists c; split; assumption).
    congruence.
Qed.

Lemma strip_length u : (length (strip u) <= length u)%nat.
Proof.
  destruct (strip_shape u) as (pre & suf & Hu & _).
  rewrite Hu at 2. rewrite !length_app. lia.
Qed.

Lemma sanitizeUrl_well_formed (raw : value) (u : str) :
  sanitizeUrl raw = Some u -> well_formed u.
Proof.
  destruct raw as [|s|shown]; [discriminate| |discriminate].
  unfold sanitizeUrl.
  destruct (is_empty (trim s)); [discriminate|].
  destruct (2048 <? length (trim s))%nat eqn:Hlen; [discriminate|].
  apply Nat.ltb_ge in Hlen.
  change (lit " ") with [32]. change (lit "<") with [60].
  change (lit ">") with [62].
  destruct (is_empty (strip (trim s))) eqn:He; [discriminate|].
  destruct (includes [32] (strip (trim s))) eqn:H32; [discriminate|].
  destruct (includes [60] (strip (trim s))) eqn:H60; [discriminate|].
  destruct (includes [62] (strip (trim s))) eqn:H62; [discriminate|].
  cbn [orb].
  destruct (test alphanumeric (strip (trim s))) eqn:Ha; [|discriminate].
  cbn [negb]. intros [= <-]. unfold well_formed.
  split; [intros E; rewrite E in He; discriminate|].
  split; [pose proof (strip_length (trim s)); lia|].
  auto using includes_unit_false, test_alphanumeric_true.
Qed.


Lemma sanitizeUrl_rejects_unit c s :
  In c (strip (trim s)) -> c = 32 \/ c = 60 \/ c = 62 ->
  sanitizeUrl (VStr s) = None.
Proof.
  intros Hin Hc. unfold sanitizeUrl.
  destruct (is_empty (trim s)); [reflexivity|].
  destruct (2048 <? length (trim s))%nat; [reflexivity|].
  change (lit " ") with [32]. change (lit "<") with [60].
  change (lit ">") with [62].
  destruct Hc as [->|[->| ->]]; rewrite (includes_unit _ _ Hin);
    rewrite ?orb_true_r; reflexivity.
Qed.

(** What [sanitizeUrl] accepts, and what it returns for it. *)
Lemma sanitizeUrl_accepts s t :
  sanitizeUrl (VStr s) = Some t
  <-> t = strip (trim s)
      /\ trim s <> [] /\ (length (trim s) <= 2048)%nat
      /\ t <> [] /\ ~ In 32 t /\ ~ In 60 t /\ ~ In 62 t
      /\ Exists (fun c => is_alnum c = true) t.
Proof.
  unfold sanitizeUrl.
  change (lit " ") with [32]. change (lit "<") with [60].
  change (lit ">") with [62].
  destruct (trim s) as [|c0 u0] eqn:Etrim; cbn [is_empty].
  { split; [discriminate | intros (_ & H & _); destruct (H eq_refl)]. }
  destruct (2048 <? length (c0 :: u0))%nat eqn:Hlen.
  { apply Nat.ltb_lt in Hlen. split; [discriminate|].
    intros (_ & _ & H & _). lia. }
  apply Nat.ltb_ge in Hlen.
  destruct (strip (c0 :: u0)) as [|c1 u1] eqn:Estrip; cbn [is_empty orb].
  { split; [discriminate|]. intros (-> & _ & _ & H & _). destruct (H eq_refl). }
  destruct (includes [32] (c1 :: u1)) eqn:H32; cbn [orb].
  { split; [discriminate|]. intros (-> & _ & _ & _ & H & _).
    destruct (H (includes_unit_In _ _ H32)). }
  destruct (includes [60] (c1 :: u1)) eqn:H60; cbn [orb].
  { split; [discriminate|]. intros (-> & _ & _ & _ & _ & H & _).
    destruct (H (includes_unit_In _ _ H60)). }
  destruct (includes [62] (c1 :: u1)) eqn:H62; cbn [orb].
  { split; [discriminate|]. intros (-> & _ & _ & _ & _ & _ & H & _).
    destruct (H (includes_unit_In _ _ H62)). }
  destruct (test alphanumeric (c1 :: u1)) eqn:Ha; cbn [negb].
  - split.
    + intros [= <-]. split; [reflexivity|]. split; [discriminate|].
      split; [exact Hlen|]. split; [discriminate|].
      auto using includes_unit_false, test_alphanumeric_true.
    + intros (-> & _). reflexivity.
  - split; [discriminate|]. intros (-> & _ & _ & _ & _ & _ & _ & H).
    rewrite (test_alphanumeric_finds _ H) in Ha. discriminate.
Qed.

(** C4, in the form the code satisfies.
    The native streaming endpoint normalises the URL with
    [sanitizeUrl] (trim, at most one scheme prefix and one trailing slash
    removed) and answers 400, leaving the rate limiter untouched and never
    reaching the checker, for a parameter that is not a string, is empty or
    longer than 2048 code units after trimming, contains a space after
    trimming, contains an angle bracket, or has no ASCII letter or digit;
    it accepts every other string, white space other than the space
    character included, and consults the limiter for it.
    The legacy streaming endpoint rejects only a missing or empty parameter
    before it touches the limiter and the pool; every other parameter goes
    into the command as it was given, whatever it contains and however
    long it is. *)
Theorem check_stream_validation :
  (forall now ip raw l,
      sanitizeUrl raw = None ->
      Native.check_stream_open now ip raw l = (Native.Invalid, l))
  /\ (forall now ip raw url l,
         sanitizeUrl raw = Some url ->
         Native.check_stream_open now ip raw l
         = (if RateLimiter.allowed (fst (RateLimiter.check now ip l))
            then Native.Streaming url else Native.RateLimited,
            snd (RateLimiter.check now ip l)))
  /\ sanitizeUrl VUndefined = None
  /\ (forall shown, sanitizeUrl (VOther shown) = None)
  /\ (forall s t,
         sanitizeUrl (VStr s) = Some t
         <-> t = strip (trim s)
             /\ trim s <> [] /\ (length (trim s) <= 2048)%nat
             /\ t <> [] /\ ~ In 32 t /\ ~ In 60 t /\ ~ In 62 t
             /\ Exists (fun c => is_alnum c = true) t)
  /\ (forall s,
         trim s = [] \/ (2048 < length (trim s))%nat \/ In 32 (trim s)
         \/ In 60 s \/ In 62 s \/ Forall (fun c => is_alnum c = false) s ->
         sanitizeUrl (VStr s) = None)
  /\ (forall s t,
         sanitizeUrl (VStr s) = Some t ->
         exists pre suf,
           trim s = pre ++ t ++ suf
           /\ (pre = [] \/ is_scheme pre) /\ (suf = [] \/ suf = lit "/"))
  /\ (forall now ip url request l p,
         Legacy.falsy url = true ->
         Legacy.check_stream_open now ip url request l p
         = (Legacy.BadRequest, l, p))
  /\ (forall now ip url request l p,
         Legacy.falsy url = false ->
         Legacy.check_stream_open now ip url request l p
         = if negb (Legacy.anyReady p) then (Legacy.NotConnected, l, p)
           else if negb (RateLimiter.allowed
                           (fst (RateLimiter.check now ip l)))
           then (Legacy.RateLimited, snd (RateLimiter.check now ip l), p)
           else (Legacy.Streaming
                   (lit "/check all " ++ Legacy.shown url)
                   (snd (Pool.acquire (Pool.Waiter request true) p)),
                 snd (RateLimiter.check now ip l),
                 fst (Pool.acquire (Pool.Waiter request true) p)))
  /\ (forall s, Legacy.falsy (VStr s) = false <-> s <> [])
  /\ (forall s, Legacy.shown (VStr s) = s).
Proof.
  split; [|split; [|split; [|split; [|split; [|split; [|split;
    [|split; [|split; [|split]]]]]]]]].
  - intros now ip raw l H. unfold Native.check_stream_open. rewrite H.
    reflexivity.
  - intros now ip raw url l H. unfold Native.check_stream_open. rewrite H.
    destruct (sanitizeUrl_well_formed raw url H) as [Hne _].
    destruct url as [|c u]; [destruct (Hne eq_refl)|].
    destruct (RateLimiter.check now ip l) as [rl l1]. cbn [fst snd].
    destruct (RateLimiter.allowed rl); reflexivity.
  - reflexivity.
  - reflexivity.
  - exact sanitizeUrl_accepts.
  - intros s [H|[H|[H|[H|[H|H]]]]].
    + unfold sanitizeUrl. rewrite H. reflexivity.
    + unfold sanitizeUrl. destruct (is_empty (trim s)); [reflexivity|].
      apply Nat.ltb_lt in H. rewrite H. reflexivity.
    + apply (sanitizeUrl_rejects_unit 32); [|auto].
      apply strip_keeps; [exact H | discriminate |].
      vm_compute. intuition discriminate.
    + apply (sanitizeUrl_rejects_unit 60); [|auto].
      apply strip_keeps; [apply trim_keeps; [exact H | reflexivity]
                         | discriminate |].
      vm_compute. intuition discriminate.
    + apply (sanitizeUrl_rejects_unit 62); [|auto].
      apply strip_keeps; [apply trim_keeps; [exact H | reflexivity]
                         | discriminate |].
      vm_compute. intuition discriminate.
    + unfold sanitizeUrl.
      destruct (is_empty (trim s)); [reflexivity|].
      destruct (2048 <? length (trim s))%nat; [reflexivity|].
      destruct (_ || _); [reflexivity|].
      rewrite test_alphanumeric_false; [reflexivity|].
      rewrite Forall_forall in H |- *. intros c Hc. apply H.
      apply list_elem_of_In, trim_sub, strip_sub, list_elem_of_In, Hc.
  - exact sanitizeUrl_shape.
  - intros now ip url request l p H. unfold Legacy.check_stream_open.
    rewrite H. reflexivity.
  - intros now ip url request l p H. unfold Legacy.check_stream_open.
    rewrite H. destruct (negb (Legacy.anyReady p)); [reflexivity|].
    destruct (RateLimiter.check now ip l) as [rl l1]. cbn [fst snd].
    destruct (negb (RateLimiter.allowed rl)); [reflexivity|].
    destruct (Pool.acquire (Pool.Waiter request true) p) as [p1 ev].
    reflexivity.
  - intros s. destruct s; cbn; split; congruence.
  - reflexivity.
Qed.

(** C4 as stated does not hold of the code: on a pool with a ready instance the
    legacy streaming endpoint takes [<script>] (which [sanitizeUrl]
    rejects), acquires the instance and builds the command
    [/check all <script>]; and the native endpoint accepts a URL with a
    tab inside. *)
Lemma legacy_stream_takes_script_tag :
  let p := fst (Pool.run Pool.empty Scenario.boot) in
  let l := RateLimiter.Limiter (RateLimiter.Finite 15) 120000 ∅ in
  let ip := lit "203.0.113.9" in
  sanitizeUrl (VStr (lit "<script>")) = None
  /\ fst (fst (Legacy.check_stream_open 1000 ip (VStr (lit "<script>")) 7 l p))
     = Legacy.Streaming (lit "/check all <script>") [Pool.Granted 7 0 0 0]
  /\ fst (Native.check_stream_open 1000 ip (VStr [97; 9; 98]) l)
     = Native.Streaming [97; 9; 98].
Proof. repeat split; vm_compute; reflexivity. Qed.

End StreamValidation.

(** ** The response parser *)

Section ParserFacts.
Import Js Parser.

(** C8. The reply text of the specification's example parses to exactly one
    platform entry, FortiGuard, blocked, category Malware, 212 ms, and to a
    note that ends in "default settings.". *)
Theorem parse_fortiguard_example :
  let r := parseBotResponse Scenario.fortiguard_reply in
  platforms r =
    [Platform (lit "FortiGuard") (lit "Malware") Blocked
              (lit "Likely Blocked") (Some 212) []]
  /\ exists n, note r = Some n /\ ends_with (lit "default settings.") n = true.
Proof.
  split.
  - vm_compute. reflexivity.
  - exists (lit "All checkers use the default settings.").
    split; vm_compute; reflexivity.
Qed.

End ParserFacts.

(** ** The instance pool *)

Section PoolFacts.
Import Pool.

Lemma find_id_Some x p slot inst :
  find_id x p = Some (slot, inst) ->
  _instances p !! slot = Some inst /\ id inst = x.
Proof.
  unfold find_id. intros H. apply list_find_Some in H as (H1 & H2 & _). auto.
Qed.

Lemma find_id_update x p slot inst f :
  (forall i, id (f i) = id i) ->
  find_id x p = Some (slot, inst) ->
  find_id x (update slot f p) = Some (slot, f inst).
Proof.
  unfold find_id, update. cbn [_instances with_instances]. intros Hf H.
  apply list_find_Some in H as (H1 & H2 & H3). apply list_find_Some.
  split; [|split].
  - rewrite list_lookup_alter_eq, H1. reflexivity.
  - rewrite Hf. exact H2.
  - intros j y Hj Hlt. rewrite list_lookup_alter_ne in Hj by lia.
    exact (H3 j y Hj Hlt).
Qed.

Lemma lookup_update slot f p :
  _instances (update slot f p) !! slot = f <$> _instances p !! slot.
Proof. unfold update. cbn. apply list_lookup_alter_eq. Qed.

Lemma no_ready_filter (l : list instance) :
  existsb ready l = false -> filter (fun i => ready i = true) l = [].
Proof.
  induction l as [|i l IH]; [reflexivity|]. simpl.
  intros H. apply orb_false_iff in H as [Hi Hl].
  rewrite filter_cons, decide_False by congruence. auto.
Qed.

(** C9. With no ready instance in the pool the [allBusy] getter is true,
    the universal test running over the empty list of ready instances, and
    the status endpoint reports [busy: true], whatever the number of scans
    in progress. *)
Theorem allBusy_without_ready_instance (p : pool) :
  Legacy.anyReady p = false ->
  allBusy p = true
  /\ forall now ip l, Legacy.busy (fst (Legacy.get_status now ip l p)) = true.
Proof.
  intros H. unfold Legacy.anyReady in H.
  assert (allBusy p = true) as Hb.
  { unfold allBusy. rewrite (no_ready_filter _ H). reflexivity. }
  split; [exact Hb|]. intros now ip l. unfold Legacy.get_status.
  destruct (RateLimiter.status_probe now ip l) as [rl l1]. exact Hb.
Qed.

Lemma allBusy_without_ready_instance_witness :
  let p := fst (run empty Scenario.failed_boot) in
  size p = 1%nat /\ activeScanCount p = 0%nat /\ allBusy p = true
  /\ forall now ip l, Legacy.busy (fst (Legacy.get_status now ip l p)) = true.
Proof.
  split; [reflexivity|]. split; [reflexivity|].
  apply (allBusy_without_ready_instance (fst (run empty Scenario.failed_boot))).
  reflexivity.
Defined.

End PoolFacts.

Section PoolQueue.
Import Pool.

Lemma notifyPositions_only_positions ws ev :
  In ev (_notifyPositions ws) -> exists promise n, ev = Position promise n.
Proof.
  unfold _notifyPositions. intros H. apply list_elem_of_In in H.
  apply list_elem_of_omap in H as (o & Ho & Hev).
  apply elem_of_lookup_imap in Ho as (i & w & -> & _).
  destruct (onPositionChange w); [|discriminate].
  injection Hev as <-. eauto.
Qed.

Lemma acquire_skips_busy p slot inst w promise chk ident :
  _instances p !! slot = Some inst -> busy inst = true ->
  ~ In (Granted promise slot chk ident) (snd (acquire w p)).
Proof.
  intros Hs Hb. unfold acquire.
  destruct (list_find _ (_instances p)) as [[slot' free]|] eqn:E; cbn [snd].
  - intros [H|[]]. injection H as _ -> _ _.
    apply list_find_Some in E as (E1 & (_ & E2) & _). congruence.
  - intros H. apply notifyPositions_only_positions in H as (? & ? & H).
    discriminate.
Qed.

Lemma acquire_enqueues p w :
  anyReady p = false ->
  acquire w p = (with_waiters p (_waiters p ++ [w]),
                 _notifyPositions (_waiters p ++ [w])).
Proof.
  intros H. unfold acquire.
  destruct (list_find _ (_instances p)) as [[slot free]|] eqn:E; [|reflexivity].
  apply list_find_Some in E as (E1 & (E2 & E3) & _).
  assert (existsb (fun i => ready i && negb (busy i)) (_instances p) = true)
    as Ht; [|unfold anyReady in H; congruence].
  apply existsb_exists. exists free. split.
  - apply list_elem_of_In, list_elem_of_lookup. eauto.
  - rewrite E2, E3. reflexivity.
Qed.

(** C7. When [release] runs on a held (busy) instance while waiters are
    queued, the instance list is left as it is, so the busy flag stays
    true; the head of the queue is taken off and is resolved with that very
    instance, after the remaining waiters were told their new positions;
    and an [acquire] arriving afterwards cannot be granted the instance.
    Only with an empty queue is the busy flag cleared.  New waiters join
    at the tail, so the queue is served in arrival order. *)
Theorem release_serves_queue_head (p : pool) (slot : nat) (inst : instance) :
  _instances p !! slot = Some inst ->
  busy inst = true ->
  match _waiters p with
  | w :: ws =>
      _releaseInstance slot p
      = (with_waiters p ws,
         _notifyPositions ws
         ++ [Granted (resolve w) slot (checker inst) (id inst)])
      /\ _instances (fst (_releaseInstance slot p)) !! slot = Some inst
      /\ (forall w' promise chk ident,
             ~ In (Granted promise slot chk ident)
                  (snd (acquire w' (fst (_releaseInstance slot p)))))
  | [] =>
      _releaseInstance slot p = (update slot (set_busy false) p, [])
      /\ _instances (fst (_releaseInstance slot p)) !! slot
         = Some (set_busy false inst)
  end
  /\ (forall q w', anyReady q = false ->
         _waiters (fst (acquire w' q)) = _waiters q ++ [w']).
Proof.
  intros Hs Hb. split.
  - unfold _releaseInstance. rewrite Hs.
    destruct (_waiters p) as [|w ws] eqn:Hw.
    + split; [reflexivity|]. cbn [fst]. rewrite lookup_update, Hs. reflexivity.
    + split; [reflexivity|]. cbn [fst]. split; [exact Hs|].
      intros w' promise chk ident.
      apply (acquire_skips_busy _ slot inst); assumption.
  - intros q w' H. rewrite acquire_enqueues by exact H. reflexivity.
Qed.

Lemma release_serves_queue_head_witness :
  let p := fst (run empty Scenario.queued) in
  _waiters p = [Scenario.w 2; Scenario.w 3]
  /\ _releaseInstance 0 p
     = (with_waiters p [Scenario.w 3],
        [Position 3 1; Granted 2 0 0 0])
  /\ busy <$> _instances (fst (_releaseInstance 0 p)) !! 0%nat = Some true.
Proof.
  intros p.
  assert (_waiters p = [Scenario.w 2; Scenario.w 3]) as Hw by reflexivity.
  pose proof (release_serves_queue_head p 0
                (Instance 0 Scenario.channel 0 true true None 0)
                eq_refl eq_refl) as [H _].
  rewrite Hw in H. destruct H as (H1 & H2 & _).
  split; [exact Hw|]. split; [exact H1|]. rewrite H2. reflexivity.
Defined.

End PoolQueue.

Section PoolRecovery.
Import Pool.

Lemma recoverInstance_starts x p slot inst :
  find_id x p = Some (slot, inst) ->
  x ∉ _recovering p ->
  recoverInstance x p
  = (update slot (set_ready false)
            (with_recovering p ({[ x ]} ∪ _recovering p)),
     [Destroy (checker inst)]).
Proof.
  intros Hf Hr. unfold recoverInstance. rewrite Hf.
  rewrite bool_decide_eq_false_2 by exact Hr. reflexivity.
Qed.

Lemma recoverInstance_guarded x p :
  x ∈ _recovering p -> recoverInstance x p = (p, []).
Proof.
  intros Hr. unfold recoverInstance.
  destruct (find_id x p) as [[slot inst]|]; [|reflexivity].
  rewrite bool_decide_eq_true_2 by exact Hr. reflexivity.
Qed.

(** C5, in the form the code satisfies.
    A recorded failure raises the counter by one and starts
    a recovery (the identifier enters the recovering set, the instance is
    marked not ready and its checker is destroyed) exactly when the raised
    counter is at least 3 and the instance is not already recovering; in
    every other case the recovering set and the ready flag stay as they
    are and nothing is destroyed.  So the first and the second consecutive
    failure never start one, the third does unless one is under way, and so
    does every later failure while the counter has not been reset.  One
    recorded success sets the counter to 0. *)
Theorem recordFailure_threshold (p : pool) (x slot : nat) (inst : instance) :
  find_id x p = Some (slot, inst) ->
  let n := S (consecutiveFailures inst) in
  (if bool_decide (3 <= n)%nat && bool_decide (x ∉ _recovering p)
   then recordFailure x p
        = (update slot (set_ready false)
                  (with_recovering (update slot (set_failures n) p)
                                   ({[ x ]} ∪ _recovering p)),
           [Destroy (checker inst)])
   else recordFailure x p = (update slot (set_failures n) p, []))
  /\ _instances (fst (recordFailure x p)) !! slot
     = Some (set_failures n
               (if bool_decide (3 <= n)%nat && bool_decide (x ∉ _recovering p)
                then set_ready false inst else inst))
  /\ _instances (recordSuccess x p) !! slot = Some (set_failures 0 inst).
Proof.
  intros Hf n. pose proof (find_id_Some _ _ _ _ Hf) as [Hs Hid].
  assert (find_id x (update slot (set_failures n) p)
          = Some (slot, set_failures n inst)) as Hf1.
  { apply find_id_update; [reflexivity | exact Hf]. }
  assert (if bool_decide (3 <= n)%nat && bool_decide (x ∉ _recovering p)
   then recordFailure x p
        = (update slot (set_ready false)
                  (with_recovering (update slot (set_failures n) p)
                                   ({[ x ]} ∪ _recovering p)),
           [Destroy (checker inst)])
   else recordFailure x p = (update slot (set_failures n) p, [])) as Hmain.
  { unfold recordFailure. rewrite Hf. fold n.
    destruct (decide (3 <= n)%nat) as [Hn|Hn].
    - rewrite (bool_decide_eq_true_2 _ Hn).
      apply Nat.leb_le in Hn. rewrite Hn. cbn [andb].
      destruct (decide (x ∈ _recovering p)) as [Hr|Hr].
      + rewrite (bool_decide_eq_false_2 (x ∉ _recovering p)) by tauto.
        cbn [_recovering update with_instances].
        rewrite (bool_decide_eq_true_2 _ Hr). reflexivity.
      + rewrite (bool_decide_eq_true_2 (x ∉ _recovering p)) by exact Hr.
        cbn [_recovering update with_instances].
        rewrite (bool_decide_eq_false_2 _ Hr). cbn [negb].
        rewrite (recoverInstance_starts _ _ _ _ Hf1) by exact Hr.
        reflexivity.
    - rewrite (bool_decide_eq_false_2 _ Hn).
      apply Nat.leb_nle in Hn. rewrite Hn. reflexivity. }
  split; [exact Hmain|]. split.
  - destruct (bool_decide (3 <= n)%nat && bool_decide (x ∉ _recovering p));
      rewrite Hmain; cbn [fst].
    + rewrite lookup_update. cbn [with_recovering _instances].
      rewrite lookup_update, Hs. reflexivity.
    + rewrite lookup_update, Hs. reflexivity.
  - unfold recordSuccess. rewrite Hf, lookup_update, Hs. reflexivity.
Qed.

Lemma recordFailure_threshold_witness :
  let p := fst (run empty Scenario.handoff) in
  consecutiveFailures <$> _instances p !! 0%nat = Some 2%nat
  /\ consecutiveFailures <$> _instances (fst (recordFailure 0 p)) !! 0%nat
     = Some 3%nat
  /\ ready <$> _instances (fst (recordFailure 0 p)) !! 0%nat = Some false
  /\ consecutiveFailures <$> _instances (recordSuccess 0 p) !! 0%nat
     = Some 0%nat.
Proof.
  intros p.
  pose proof (recordFailure_threshold p 0 0
                (Instance 0 Scenario.channel 0 true true None 2) eq_refl)
    as (_ & H2 & H3).
  split; [reflexivity|]. rewrite H2, H3. repeat split.
Defined.

(** C5 as stated does not hold of the code: after the third failure started a
    recovery whose relaunch failed, the counter is still 3, and the next
    recorded failure, the fourth in a row, starts a recovery again. *)
Lemma recovery_on_fourth_failure :
  let p := fst (run empty Scenario.before_fourth_failure) in
  consecutiveFailures <$> _instances p !! 0%nat = Some 3%nat
  /\ bool_decide (0%nat ∈ _recovering p) = false
  /\ consecutiveFailures <$> _instances (fst (recordFailure 0 p)) !! 0%nat
     = Some 4%nat
  /\ bool_decide (0%nat ∈ _recovering (fst (recordFailure 0 p))) = true
  /\ snd (recordFailure 0 p) = [Destroy 1].
Proof. repeat split; vm_compute; reflexivity. Qed.

(** C1: the code starts a recovery on a session that is serving a request.
    In the history [third_failure] the released slot goes straight to the
    queued request 4, and the failure recorded right after is the third:
    the checker just granted to request 4 is destroyed, the instance is
    marked not ready and enters the recovering set while its busy flag is
    still true. *)
Theorem recovery_starts_on_busy_session :
  let '(p, ev) := run empty Scenario.third_failure in
  _instances p !! 0%nat
  = Some (Instance 0 Scenario.channel 0 true false None 3)
  /\ bool_decide (0%nat ∈ _recovering p) = true
  /\ ev = [Launch 0; Granted 1 0 0 0; Granted 2 0 0 0; Granted 3 0 0 0;
           Position 4 1; Granted 4 0 0 0; Destroy 0].
Proof. vm_compute. repeat split. Qed.

End PoolRecovery.

(** ** The rate limiter *)

Section LimiterFacts.
Import RateLimiter.

Lemma filter_idem {A} (P : A -> Prop) `{forall x, Decision (P x)} (l : list A) :
  filter P (filter P l) = filter P l.
Proof.
  induction l as [|x l IH]; [reflexivity|].
  rewrite filter_cons. destruct (decide (P x)) as [Hx|Hx].
  - rewrite filter_cons, decide_True by exact Hx. congruence.
  - exact IH.
Qed.

Lemma live_after_store now l ip ts :
  live now (with_hits l (<[ip := ts]> (_hits l))) ip
  = filter (fun t => (now - _windowMs l < t)%Z) ts.
Proof.
  unfold live. cbn [_hits _windowMs with_hits]. rewrite lookup_insert_eq.
  reflexivity.
Qed.

(** C2, in the form the code satisfies.
    For a client whose timestamps inside the window are
    fewer than [maxHits], a status request stores for that client exactly
    those timestamps, in their order: the ones that left the window are
    dropped (a client without an entry gets an empty one), none is added,
    the entries of other clients and the limits are untouched, and the
    budget the client sees afterwards is the budget it saw before.  The
    native handler ([check] then [undo]) and the legacy one ([check] then
    the pop) do the same. *)
Theorem status_probe_below_limit (now : Z) (ip : Js.str) (l : t) :
  reached (length (live now l ip)) (_maxHits l) = false ->
  status_probe now ip l
  = (Verdict true (minus (_maxHits l) (S (length (live now l ip)))) (Some 0%Z),
     with_hits l (<[ip := live now l ip]> (_hits l)))
  /\ live now (snd (status_probe now ip l)) ip = live now l ip
  /\ budget now ip (snd (status_probe now ip l)) = budget now ip l
  /\ (forall other, other <> ip ->
        _hits (snd (status_probe now ip l)) !! other = _hits l !! other)
  /\ Native.get_status now ip l
     = (RateLimiter.remaining (fst (status_probe now ip l)),
        snd (status_probe now ip l))
  /\ forall p, snd (Legacy.get_status now ip l p) = snd (status_probe now ip l).
Proof.
  intros H.
  assert (status_probe now ip l
          = (Verdict true (minus (_maxHits l) (S (length (live now l ip))))
                     (Some 0%Z),
             with_hits l (<[ip := live now l ip]> (_hits l)))) as E.
  { unfold status_probe, check. rewrite H. unfold undo.
    cbn [_hits with_hits _maxHits _windowMs].
    rewrite alter_insert_eq, removelast_last. reflexivity. }
  split; [exact E|]. rewrite E. cbn [snd fst].
  split; [|split; [|split; [|split]]].
  - rewrite live_after_store. apply filter_idem.
  - unfold budget. rewrite live_after_store.
    cbn [_maxHits with_hits]. unfold live at 1. rewrite filter_idem.
    reflexivity.
  - intros other Hne. cbn [_hits with_hits]. apply lookup_insert_ne. congruence.
  - unfold Native.get_status. unfold status_probe in E.
    destruct (check now ip l) as [rl l1].
    pose proof (f_equal fst E) as E1. pose proof (f_equal snd E) as E2.
    cbn [fst snd] in E1, E2. rewrite E1, E2. reflexivity.
  - intros p. unfold Legacy.get_status. rewrite E. reflexivity.
Qed.

Lemma status_probe_below_limit_witness :
  let ip := Js.lit "203.0.113.9" in
  let l := Limiter (Finite 15) 120000 {[ ip := [100; 200000; 250000]%Z ]} in
  live 300000 l ip = [200000; 250000]%Z
  /\ fst (status_probe 300000 ip l) = Verdict true (Finite 12) (Some 0%Z)
  /\ _hits (snd (status_probe 300000 ip l)) !! ip = Some [200000; 250000]%Z
  /\ budget 300000 ip (snd (status_probe 300000 ip l)) = budget 300000 ip l.
Proof.
  intros ip l.
  pose proof (status_probe_below_limit 300000 ip l eq_refl)
    as (E & _ & Hb & _).
  split; [reflexivity|]. rewrite E. cbn [fst snd].
  split; [reflexivity|]. split; [|rewrite E in Hb; exact Hb].
  cbn [_hits with_hits]. rewrite lookup_insert_eq. reflexivity.
Defined.

(** C2 as stated does not hold of the code.  A client at its limit: [check]
    denies and pushes nothing, the pop removes the newest recorded
    timestamp, and the client's budget goes from 0 to 1.  A client with an
    expired timestamp: the timestamp is gone afterwards.  A client without
    an entry has an empty one afterwards. *)
Lemma status_probe_changes_timestamps :
  let ip := Js.lit "203.0.113.9" in
  let full := Limiter (Finite 2) 60000 {[ ip := [100; 200]%Z ]} in
  let stale := Limiter (Finite 15) 120000 {[ ip := [100]%Z ]} in
  let unseen := Limiter (Finite 15) 120000 ∅ in
  _hits full !! ip = Some [100; 200]%Z
  /\ _hits (snd (status_probe 500 ip full)) !! ip = Some [100]%Z
  /\ budget 500 ip full = Finite 0
  /\ budget 500 ip (snd (status_probe 500 ip full)) = Finite 1
  /\ _hits (snd (status_probe 500000 ip stale)) !! ip = Some []
  /\ _hits unseen !! ip = None
  /\ _hits (snd (status_probe 500 ip unseen)) !! ip = Some [].
Proof. repeat split; vm_compute; reflexivity. Qed.

End LimiterFacts.

(** ** The reply observers *)

Section ObserverFacts.
Import Js Observer.

Lemma scan_down_Some botId msgs lo n i r :
  scan_down botId msgs lo n = Some (i, r) ->
  (lo <= Z.of_nat i)%Z /\ (i < n)%nat
  /\ (exists m, msgs !! i = Some m /\ isFromBot botId m = true
                /\ r = extract m)
  /\ forall j m', (i < j < n)%nat -> msgs !! j = Some m' ->
                  isFromBot botId m' = false.
Proof.
  induction n as [|n IH]; simpl; [discriminate|].
  destruct (Z.of_nat n <? lo)%Z eqn:Hlo; [discriminate|].
  apply Z.ltb_ge in Hlo.
  destruct (msgs !! n) as [m|] eqn:Hm.
  - destruct (isFromBot botId m) eqn:Hb.
    + intros [= <- <-]. repeat split; [exact Hlo | lia | eauto | intros; lia].
    + intros H. destruct (IH H) as (H1 & H2 & H3 & H4).
      repeat split; [exact H1 | lia | exact H3 |].
      intros j m' Hj Hm'. destruct (decide (j = n)) as [->|Hne].
      * congruence.
      * apply (H4 j m'); [lia | exact Hm'].
  - intros H. destruct (IH H) as (H1 & H2 & H3 & H4).
    repeat split; [exact H1 | lia | exact H3 |].
    intros j m' Hj Hm'. destruct (decide (j = n)) as [->|Hne].
    + congruence.
    + apply (H4 j m'); [lia | exact Hm'].
Qed.

Lemma scan_down_finds botId msgs lo n i m :
  msgs !! i = Some m -> isFromBot botId m = true ->
  (lo <= Z.of_nat i)%Z -> (i < n)%nat ->
  (forall j m', (i < j < n)%nat -> msgs !! j = Some m' ->
                isFromBot botId m' = false) ->
  scan_down botId msgs lo n = Some (i, extract m).
Proof.
  intros Hm Hb Hlo. induction n as [|n IH]; intros Hn Hnew; [lia|].
  simpl. destruct (Z.of_nat n <? lo)%Z eqn:E.
  { apply Z.ltb_lt in E. lia. }
  destruct (decide (i = n)) as [->|Hne].
  - rewrite Hm, Hb. reflexivity.
  - assert (scan_down botId msgs lo n = Some (i, extract m)) as Hrec.
    { apply IH; [lia|]. intros j m' Hj. apply Hnew. lia. }
    destruct (msgs !! n) as [m'|] eqn:Hm'; [|exact Hrec].
    rewrite (Hnew n m') by (lia || assumption). exact Hrec.
Qed.

Lemma scan_down_None botId msgs lo n :
  scan_down botId msgs lo n = None ->
  forall j m, (lo <= Z.of_nat j)%Z -> (j < n)%nat -> msgs !! j = Some m ->
              isFromBot botId m = false.
Proof.
  induction n as [|n IH]; simpl; [intros _ j m _ Hj; lia|].
  destruct (Z.of_nat n <? lo)%Z eqn:Hlo.
  { apply Z.ltb_lt in Hlo. intros _ j m Hj Hn. lia. }
  destruct (msgs !! n) as [m0|] eqn:Hm0.
  - destruct (isFromBot botId m0) eqn:Hb; [discriminate|].
    intros H j m Hlo' Hj Hm. destruct (decide (j = n)) as [->|Hne].
    + congruence.
    + apply (IH H j m); [exact Hlo' | lia | exact Hm].
  - intros H j m Hlo' Hj Hm. destruct (decide (j = n)) as [->|Hne].
    + congruence.
    + apply (IH H j m); [exact Hlo' | lia | exact Hm].
Qed.

(** What a downward scan over the whole list returns, from the lower bound
    [lo] on. *)
Lemma scan_down_newest botId msgs (lo : nat) i r :
  scan_down botId msgs (Z.of_nat lo) (length msgs) = Some (i, r)
  <-> ObserverShape.newest_from botId msgs lo i r.
Proof.
  unfold ObserverShape.newest_from. split.
  - intros H. apply scan_down_Some in H as (H1 & H2 & H3 & H4).
    split; [lia|]. split; [exact H3|].
    intros j m' Hj Hm'. apply (H4 j m'); [|exact Hm'].
    apply lookup_lt_Some in Hm'. lia.
  - intros (H1 & (m & Hm & Hb & ->) & H3).
    apply scan_down_finds; [exact Hm | exact Hb | lia | |].
    + apply lookup_lt_Some in Hm. exact Hm.
    + intros j m' Hj. apply H3. lia.
Qed.

Lemma scan_down_none botId msgs (lo : nat) :
  scan_down botId msgs (Z.of_nat lo) (length msgs) = None
  <-> ObserverShape.none_from botId msgs lo.
Proof.
  unfold ObserverShape.none_from. split.
  - intros H j m Hj Hm. apply (scan_down_None _ _ _ _ H j m); [lia| |exact Hm].
    apply lookup_lt_Some in Hm. exact Hm.
  - intros H. destruct (scan_down _ _ _ _) as [[i r]|] eqn:E; [|reflexivity].
    apply scan_down_newest in E as (H1 & (m & Hm & Hb & _) & _).
    rewrite (H i m H1 Hm) in Hb. discriminate.
Qed.

Lemma first_hit_records sels pg :
  ObserverShape.records sels (first_hit sels pg) pg.
Proof.
  unfold ObserverShape.records.
  induction sels as [|s sels IH]; cbn [first_hit].
  { cbn. split; [constructor | reflexivity]. }
  destruct (0 <? length (queryAll pg s))%nat eqn:E.
  - cbn [sel count]. apply Nat.ltb_lt in E.
    split; [exists [], sels; split; [reflexivity | constructor]|].
    split; [intros H; rewrite H in E; cbn in E; lia|].
    split; reflexivity.
  - apply Nat.ltb_ge in E.
    assert (queryAll pg s = []) as Hs
        by (destruct (queryAll pg s); [reflexivity | cbn in E; lia]).
    destruct (sel (first_hit sels pg)) as [s'|].
    + destruct IH as ((pre & post & -> & Hpre) & H2 & H3 & H4).
      split; [|auto].
      exists (s :: pre), post. split; [reflexivity|].
      constructor; assumption.
    + destruct IH as [H1 H2]. split; [constructor; assumption | exact H2].
Qed.



End ObserverFacts.

(** ** Names in a parse result are distinct *)

Section ParserDedup.
Import Js Re Parser.

(** Every name in [platforms] is in [seen], and no name occurs twice. *)
Definition deduped (st : pstate) : Prop :=
  NoDup (name <$> out st) /\ forall n, n ∈ (name <$> out st) -> n ∈ seen st.

Lemma deduped_mark n st : deduped st -> deduped (mark n st).
Proof.
  intros [H1 H2]. split; [exact H1|]. cbn. intros x Hx.
  apply elem_of_union_r, H2, Hx.
Qed.

Lemma deduped_push n c s d m i st :
  deduped st -> has n st = false ->
  deduped (push (Platform n c s d m i) (mark n st)).
Proof.
  intros [H1 H2] Hn. unfold has in Hn. apply bool_decide_eq_false in Hn.
  split; cbn; rewrite fmap_app; cbn.
  - apply NoDup_app. split; [exact H1|]. split; [|apply NoDup_singleton].
    intros x Hx Hx'. apply list_elem_of_singleton in Hx'. subst. auto.
  - intros x Hx. apply elem_of_app in Hx as [Hx|Hx].
    + apply elem_of_union_r, H2, Hx.
    + apply list_elem_of_singleton in Hx. subst.
      apply elem_of_union_l, elem_of_singleton. reflexivity.
Qed.

Lemma deduped_note st n :
  deduped st -> deduped (PState (out st) (seen st) n).
Proof. intros H. exact H. Qed.

Lemma deduped_tryCompactLine line st :
  deduped st -> deduped (tryCompactLine line st).
Proof.
  intros H. unfold tryCompactLine.
  destruct (exec compactLinePattern line) as [[i m]|]; [|exact H].
  destruct (has _ st) eqn:E; [exact H|].
  apply deduped_push; assumption.
Qed.

Lemma deduped_scan_bounded n :
  forall lines st, (length lines <= n)%nat -> deduped st ->
                   deduped (scan lines st).
Proof.
  induction n as [|n IH]; intros lines st Hn H.
  - destruct lines; [exact H | simpl in Hn; lia].
  - destruct lines as [|line later]; [exact H|]. simpl in Hn.
    cbn [scan].
    destruct (test notePattern line).
    { apply IH; [lia | apply deduped_note, H]. }
    destruct (test headerPattern line).
    { apply IH; [lia | exact H]. }
    destruct later as [|nextLine after].
    { apply deduped_tryCompactLine, H. }
    simpl in Hn.
    destruct (is_empty nextLine).
    { apply IH; [simpl; lia | apply deduped_tryCompactLine, H]. }
    cbn zeta.
    destruct (_ && (_ || _ || _)).
    + destruct (has (trim line) st) eqn:E.
      { apply IH; [lia | exact H]. }
      destruct (test loadingPattern nextLine && _).
      { apply IH; [lia | apply deduped_push; assumption]. }
      destruct (test errorPattern nextLine && _).
      { apply IH; [lia | apply deduped_push; assumption]. }
      destruct (exec resultPattern nextLine) as [[i m]|].
      * apply IH; [lia | apply deduped_push; assumption].
      * apply IH; [lia | apply deduped_mark, H].
    + apply IH; [simpl; lia | apply deduped_tryCompactLine, H].
Qed.

Lemma deduped_sweep_line st line : deduped st -> deduped (sweep_line st line).
Proof.
  intros H. unfold sweep_line.
  destruct (negb _); [exact H|].
  destruct (_ || _); [exact H|].
  cbn zeta. pose proof (deduped_tryCompactLine line st H) as H'.
  destruct (from_option _ _ _); [exact H'|].
  destruct (exec broadPattern line); [|exact H'].
  destruct (split dash _) as [|p0 [|p1 [|p2 more]]]; try exact H'.
  destruct (has _ _) eqn:E; [exact H'|].
  apply deduped_push; assumption.
Qed.

Lemma deduped_sweep lines st :
  deduped st -> deduped (fold_left sweep_line lines st).
Proof.
  revert st. induction lines as [|l lines IH]; intros st H; [exact H|].
  simpl. apply IH, deduped_sweep_line, H.
Qed.

Lemma parse_names_distinct (r : reply) :
  NoDup (name <$> platforms (parseBotResponse r)).
Proof.
  unfold parseBotResponse. cbn zeta.
  set (lines := filter _ _).
  assert (deduped (scan lines (PState [] ∅ None))) as H.
  { apply (deduped_scan_bounded (length lines)); [lia|].
    split; [constructor | intros n Hn; inversion Hn]. }
  destruct (_ <? 5)%nat; cbn [platforms].
  - apply deduped_sweep, H.
  - apply H.
Qed.

Lemma finished_names_distinct (ps : list platform) :
  NoDup (name <$> ps) -> NoDup (name <$> finished ps).
Proof.
  unfold finished. induction ps as [|p ps IH]; [intros; constructor|].
  rewrite fmap_cons, NoDup_cons. intros [Hp Hps].
  rewrite filter_cons. destruct (decide _); [|auto].
  rewrite fmap_cons, NoDup_cons. split; [|auto].
  intros Hin. apply Hp. apply list_elem_of_fmap in Hin as (q & -> & Hq).
  apply list_elem_of_filter in Hq as [_ Hq].
  apply list_elem_of_fmap. eauto.
Qed.

End ParserDedup.

(** ** The polling loop of the streaming observer *)

Section StreamLoop.
Import Js Observer.
Context {U : Type}.
Variable onUpdate : U -> Parser.reply -> U * cbresult.
Variable waitMs : Z.
Variable s0 : U.

Abbreviation loop := (loop onUpdate waitMs).
Abbreviation replay := (replay onUpdate).
Abbreviation observe := (observe onUpdate).
Abbreviation passes := (passes waitMs).
Abbreviation complete_after := (complete_after onUpdate s0).
Abbreviation tracking := (tracking onUpdate s0).
Abbreviation sound := (sound onUpdate waitMs s0).
Abbreviation settled := (settled onUpdate waitMs s0).

Lemma full_nonempty r : full r <> [].
Proof. unfold full. destruct (Parser.text r); discriminate. Qed.

Lemma replay_snoc hist p (st : lstate) :
  replay (hist ++ [p]) st
  = match current p with
    | Some r => observe r (replay hist st)
    | None => replay hist st
    end.
Proof. unfold Observer.replay. rewrite fold_left_app. reflexivity. Qed.

Lemma readings_snoc (tail : list poll) (p : poll) :
  length (omap current (tail ++ [p]))
  = (length (omap current tail)
     + match current p with Some _ => 1 | None => 0 end)%nat.
Proof.
  rewrite omap_app, length_app. simpl. destruct (current p); reflexivity.
Qed.

Lemma loop_stable_sound polls :
  forall hist (st : lstate) r st',
    sound hist st -> loop polls st = Stable r st' ->
    settled (hist ++ polls) r st'.
Proof.
  induction polls as [|p polls IH]; intros hist st r st' Hs; [discriminate|].
  cbn [Observer.loop].
  destruct (elapsed p <? waitMs)%Z eqn:Ht; [|discriminate]. cbn [negb].
  destruct (aborted p) eqn:Ha; [discriminate|].
  apply Z.ltb_lt in Ht.
  assert (Forall passes (hist ++ [p])) as Hp.
  { destruct Hs as (_ & _ & _ & Hp). apply Forall_app. split; [exact Hp|].
    constructor; [split; assumption | constructor]. }
  destruct (current p) as [rp|] eqn:Hc.
  - destruct Hs as (Hst & Hw & Hj & _).
    destruct (contentComplete (observe rp st)
              && (5 <=? unchangedCount (observe rp st))%nat) eqn:Hx.
    + (* the early return *)
      intros [= <- <-].
      unfold Observer.observe in Hx |- *.
      destruct (bool_decide (full rp <> lastText st)) eqn:Hd.
      { destruct (onUpdate (user st) rp) as [u res]. cbn in Hx.
        rewrite andb_false_r in Hx. discriminate. }
      apply bool_decide_eq_false in Hd. apply dec_stable in Hd.
      cbn [contentComplete unchangedCount] in Hx.
      apply andb_true_iff in Hx as [Hx1 Hx2]. apply Nat.leb_le in Hx2.
      rewrite Hx1 in Hj. cbn [andb] in Hj. apply Nat.leb_gt in Hj.
      destruct Hw as [[Hw _]|(pre & p0 & r0 & tail & Hh & Hp0 & Hl & Hcc & Hu & Hn)].
      { exfalso. apply (full_nonempty rp). congruence. }
      exists pre, p0, r0, tail, p, polls.
      assert (hist ++ [p] = pre ++ p0 :: tail ++ [p]) as Hh'.
      { rewrite Hh, <- app_assoc. reflexivity. }
      split; [rewrite Hh, <- app_assoc; reflexivity|].
      split; [exact Hp0|]. split; [congruence|].
      split.
      { apply Forall_app. split; [exact Hu|]. constructor; [|constructor].
        intros r' Hr'. congruence. }
      split.
      { rewrite readings_snoc, Hc. cbn. lia. }
      split; [exact Hc|]. split; [rewrite <- Hh'; exact Hp|].
      rewrite <- Hh', replay_snoc, Hc, <- Hst. unfold Observer.observe.
      rewrite bool_decide_eq_false_2 by tauto. reflexivity.
    + (* the loop goes on *)
      intros Hl. replace (hist ++ p :: polls) with ((hist ++ [p]) ++ polls)
        by (rewrite <- app_assoc; reflexivity).
      apply (IH _ (observe rp st)); [|exact Hl].
      split; [rewrite replay_snoc, Hc, <- Hst; reflexivity|].
      split; [|split; [exact Hx | exact Hp]].
      right. unfold Observer.observe.
      destruct (bool_decide (full rp <> lastText st)) eqn:Hd.
      * destruct (onUpdate (user st) rp) as [u res] eqn:Hcb.
        exists hist, p, rp, []. cbn.
        repeat split; try constructor.
        { exact Hc. }
        { unfold complete_after. rewrite <- Hst, Hcb. reflexivity. }
      * apply bool_decide_eq_false in Hd. apply dec_stable in Hd.
        destruct Hw as [[Hw _]|(pre & p0 & r0 & tail & Hh & Hp0 & Hl' & Hcc & Hu & Hn)].
        { exfalso. apply (full_nonempty rp). congruence. }
        exists pre, p0, r0, (tail ++ [p]). cbn.
        split; [rewrite Hh, <- app_assoc; reflexivity|].
        split; [exact Hp0|]. split; [exact Hl'|]. split; [exact Hcc|].
        split.
        { apply Forall_app. split; [exact Hu|]. constructor; [|constructor].
          intros r' Hr'. congruence. }
        rewrite readings_snoc, Hc. cbn. lia.
  - intros Hl. replace (hist ++ p :: polls) with ((hist ++ [p]) ++ polls)
      by (rewrite <- app_assoc; reflexivity).
    apply (IH _ st); [|exact Hl].
    destruct Hs as (Hst & Hw & Hj & _).
    split; [rewrite replay_snoc, Hc; exact Hst|].
    split; [|split; [exact Hj | exact Hp]].
    destruct Hw as [Hw|(pre & p0 & r0 & tail & Hh & Hp0 & Hl' & Hcc & Hu & Hn)];
      [left; exact Hw|].
    right. exists pre, p0, r0, (tail ++ [p]).
    split; [rewrite Hh, <- app_assoc; reflexivity|].
    split; [exact Hp0|]. split; [exact Hl'|]. split; [exact Hcc|].
    split.
    { apply Forall_app. split; [exact Hu|]. constructor; [|constructor].
      intros r' Hr'. congruence. }
    rewrite readings_snoc, Hc. cbn. lia.
Qed.

Lemma loop_stable polls r st' :
  loop polls (start s0) = Stable r st' -> settled polls r st'.
Proof.
  intros H. apply (loop_stable_sound polls [] (start s0)); [|exact H].
  split; [reflexivity|]. split; [left; split; reflexivity|].
  split; [reflexivity | constructor].
Qed.

(** With a callback that answers [false] for every reading of the script,
    the loop never returns early: it runs to the first poll whose clock
    reading has reached [waitMs]. *)
Lemma loop_incomplete polls :
  Forall (fun p => aborted p = false) polls ->
  (forall u r, In (Some r) (map current polls) ->
               snd (onUpdate u r) = Returned false) ->
  forall st : lstate,
    waiting st \/ contentComplete st = false ->
    loop polls st
    = match list_find (fun p => (waitMs <= elapsed p)%Z) polls with
      | Some (n, _) => Ended HardTimeout (replay (take n polls) st)
      | None => Running (replay polls st)
      end.
Proof.
  induction polls as [|p polls IH]; intros Ha Hcb st Hst; [reflexivity|].
  apply Forall_cons in Ha as [Hap Ha].
  cbn [Observer.loop list_find]. rewrite Hap.
  destruct (decide (waitMs <= elapsed p)%Z) as [Ht|Ht].
  { apply Z.ltb_ge in Ht. rewrite Ht. reflexivity. }
  apply Z.nle_gt, Z.ltb_lt in Ht. rewrite Ht. cbn [negb].
  assert (forall u r, In (Some r) (map current polls) ->
                      snd (onUpdate u r) = Returned false) as Hcb'.
  { intros u r Hin. apply Hcb. right. exact Hin. }
  destruct (current p) as [rp|] eqn:Hc.
  - assert (waiting (observe rp st) \/ contentComplete (observe rp st) = false)
      as Hst'.
    { unfold Observer.observe.
      destruct (bool_decide (full rp <> lastText st)) eqn:Hd.
      - pose proof (Hcb (user st) rp) as Hr.
        destruct (onUpdate (user st) rp) as [u res]. cbn in Hr |- *.
        right. rewrite Hr; [reflexivity|]. left. exact Hc.
      - apply bool_decide_eq_false in Hd. apply dec_stable in Hd.
        destruct Hst as [[Hw _]|Hf]; [|right; exact Hf].
        exfalso. apply (full_nonempty rp). congruence. }
    assert (contentComplete (observe rp st)
            && (5 <=? unchangedCount (observe rp st))%nat = false) as Hx.
    { destruct Hst' as [[_ Hw]|Hf].
      - rewrite Hw. apply andb_false_r.
      - rewrite Hf. reflexivity. }
    rewrite Hx, (IH Ha Hcb' _ Hst').
    destruct (list_find _ polls) as [[n q]|]; cbn; rewrite ?Hc; reflexivity.
  - rewrite (IH Ha Hcb' _ Hst).
    destruct (list_find _ polls) as [[n q]|]; cbn; rewrite ?Hc; reflexivity.
Qed.

End StreamLoop.

Section StreamCompleteness.
Import Js Observer.

Lemma onUpdate_answer (u : Legacy.ustate) (r : Parser.reply) :
  exists u',
    Legacy.onUpdate u r
    = (u', Returned
             (negb (Legacy.hasLoading (Parser.platforms (Parser.parseBotResponse r)))
              && Legacy.sawNote u'
              && (10 <=? Legacy.finishedCount
                           (Parser.platforms (Parser.parseBotResponse r)))%nat)).
Proof. unfold Legacy.onUpdate. cbn zeta. eexists. reflexivity. Qed.

(** C6. The streaming observer is run with the server's callback and no
    abort flag.  If it returns before the hard timeout, then the polls up
    to the return all passed the loop condition; the last change of the
    tracked reply was a reading [r0] for which the callback returned true,
    that is, the parse of [r0] has no loading entry, the note has been
    seen, and there are at least 10 non-loading results, with distinct
    names; and since then exactly 5 readings were taken, all with the text
    of [r0], the last one being the value returned.  If the callback
    returns false for every reading of the script, the observer never
    returns early: it leaves the loop at the first poll whose clock reading
    has reached the timeout, having processed every poll before it. *)
Theorem stream_exits_only_when_complete
  (waitMs : Z) (polls : list poll) (s0 : Legacy.ustate) :
  Forall (fun p => aborted p = false) polls ->
  (forall r st,
      loop Legacy.onUpdate waitMs polls (start s0) = Stable r st ->
      exists pre p0 r0 tail q rest,
        polls = pre ++ p0 :: tail ++ q :: rest
        /\ Forall (passes waitMs) (pre ++ p0 :: tail ++ [q])
        /\ current p0 = Some r0
        /\ (let ps := Parser.platforms (Parser.parseBotResponse r0) in
            let u := user (replay Legacy.onUpdate pre (start s0)) in
            snd (Legacy.onUpdate u r0) = Returned true
            /\ Legacy.hasLoading ps = false
            /\ Legacy.sawNote (fst (Legacy.onUpdate u r0)) = true
            /\ (10 <= length (Parser.finished ps))%nat
            /\ NoDup (Parser.name <$> Parser.finished ps))
        /\ unchanged r0 (tail ++ [q])
        /\ length (omap current (tail ++ [q])) = 5%nat
        /\ current q = Some r
        /\ st = replay Legacy.onUpdate (pre ++ p0 :: tail ++ [q]) (start s0))
  /\ ((forall u r, In (Some r) (map current polls) ->
                   snd (Legacy.onUpdate u r) = Returned false) ->
      loop Legacy.onUpdate waitMs polls (start s0)
      = match list_find (fun p => (waitMs <= elapsed p)%Z) polls with
        | Some (n, _) =>
            Ended HardTimeout (replay Legacy.onUpdate (take n polls) (start s0))
        | None => Running (replay Legacy.onUpdate polls (start s0))
        end).
Proof.
  intros Ha. split.
  - intros r st H. apply loop_stable in H.
    destruct H as (pre & p0 & r0 & tail & q & rest
                   & Hp & Hc & Hok & Hu & Hn & Hq & Hpass & Hst).
    exists pre, p0, r0, tail, q, rest.
    split; [exact Hp|]. split; [exact Hpass|]. split; [exact Hc|].
    split; [|auto].
    cbn zeta. unfold complete_after in Hok.
    destruct (onUpdate_answer (user (replay Legacy.onUpdate pre (start s0))) r0)
      as (u' & E).
    rewrite E in Hok |- *. cbn [snd fst] in Hok |- *.
    apply andb_true_iff in Hok as [Hok H10].
    apply andb_true_iff in Hok as [Hl Hs].
    apply negb_true_iff in Hl. apply Nat.leb_le in H10.
    rewrite Hl, Hs. cbn [negb andb].
    split; [f_equal; apply Nat.leb_le in H10; rewrite H10; reflexivity|].
    split; [reflexivity|]. split; [reflexivity|]. split; [exact H10|].
    apply finished_names_distinct, parse_names_distinct.
  - intros Hcb. apply loop_incomplete; [exact Ha | exact Hcb|].
    left. split; reflexivity.
Qed.

Lemma stream_exits_only_when_complete_witness :
  loop Legacy.onUpdate 15000 Scenario.partial_script
       (start Scenario.fresh_attempt)
  = Ended HardTimeout
          (replay Legacy.onUpdate (take 8 Scenario.partial_script)
                  (start Scenario.fresh_attempt))
  /\ Legacy.finishedCount
       (Parser.platforms (Parser.parseBotResponse Scenario.partial_answer))
     = 9%nat.
Proof.
  assert (Forall (fun p => aborted p = false) Scenario.partial_script) as Ha.
  { repeat constructor. }
  assert (Legacy.finishedCount
            (Parser.platforms (Parser.parseBotResponse Scenario.partial_answer))
          = 9%nat) as H9.
  { vm_compute. reflexivity. }
  split; [|exact H9].
  destruct (stream_exits_only_when_complete
              15000 Scenario.partial_script Scenario.fresh_attempt Ha)
    as [_ H].
  apply H. intros u r Hin.
  assert (r = Scenario.partial_answer) as ->.
  { simpl in Hin. intuition congruence. }
  destruct (onUpdate_answer u Scenario.partial_answer) as (u' & E).
  rewrite E, H9. cbn [snd]. rewrite andb_false_r. reflexivity.
Defined.

(** The specification's second synthetic sequence: once ten results and
    the note are there and five more readings show the same text, the
    observer returns that reply, here at the ninth poll. *)
Lemma complete_script_returns_early :
  sendAndStreamReply Legacy.onUpdate 15000 Scenario.complete_script None
                     Scenario.fresh_attempt
  = Some (Some Scenario.complete_answer).
Proof. vm_compute. reflexivity. Qed.

End StreamCompleteness.

(* ===================================================================== *)
(** * Further properties of the code *)
(* ===================================================================== *)

(** ** The pool: acquisition, queue, reset *)

Section PoolMore.
Import Pool.

Lemma pool_eta p :
  MkPool (_instances p) (_waiters p) (_recovering p) (fresh p) = p.
Proof. destruct p. reflexivity. Qed.

Lemma alter_fixed (f : instance -> instance) slot inst (l : list instance) :
  l !! slot = Some inst -> f inst = inst -> alter f slot l = l.
Proof.
  intros Hl Hf. apply list_eq. intros i.
  destruct (decide (i = slot)) as [->|Hne].
  - rewrite list_lookup_alter_eq, Hl. cbn. congruence.
  - rewrite list_lookup_alter_ne by congruence. reflexivity.
Qed.

Lemma anyReady_find p :
  anyReady p = true ->
  exists slot free,
    list_find (fun i => ready i = true /\ busy i = false) (_instances p)
    = Some (slot, free).
Proof.
  unfold anyReady. intros H. apply existsb_exists in H as (x & Hx & Hr).
  apply andb_true_iff in Hr as [Hr Hb]. apply negb_true_iff in Hb.
  destruct (list_find_elem_of (fun i => ready i = true /\ busy i = false)
              (_instances p) x) as [[slot free] E].
  - apply list_elem_of_In, Hx.
  - split; assumption.
  - eauto.
Qed.

(** X1. [acquire] and [release] undo each other.  When some instance is
    ready and idle and nobody waits, [acquire] grants the first such
    instance in pool order at once, marking it busy and queueing nothing;
    releasing that slot then gives back exactly the pool there was before
    the [acquire], with no event. *)
Theorem acquire_release_round_trip (p : pool) (w : waiter) :
  anyReady p = true ->
  _waiters p = [] ->
  exists slot free,
    _instances p !! slot = Some free
    /\ ready free = true /\ busy free = false
    /\ (forall j y, (j < slot)%nat -> _instances p !! j = Some y ->
                    ready y && negb (busy y) = false)
    /\ acquire w p
       = (update slot (set_busy true) p,
          [Granted (resolve w) slot (checker free) (id free)])
    /\ _instances (fst (acquire w p)) !! slot = Some (set_busy true free)
    /\ _releaseInstance slot (fst (acquire w p)) = (p, []).
Proof.
  intros Ha Hw. destruct (anyReady_find p Ha) as (slot & free & E).
  exists slot, free.
  pose proof E as E'. apply list_find_Some in E' as (Hl & (Hr & Hb) & Hfirst).
  split; [exact Hl|]. split; [exact Hr|]. split; [exact Hb|].
  split.
  { intros j y Hj Hy. specialize (Hfirst j y Hy Hj).
    destruct (ready y) eqn:R, (busy y) eqn:B; try reflexivity.
    exfalso. apply Hfirst. split; reflexivity. }
  assert (acquire w p
          = (update slot (set_busy true) p,
             [Granted (resolve w) slot (checker free) (id free)])) as Eq.
  { unfold acquire. rewrite E. reflexivity. }
  split; [exact Eq|]. rewrite Eq. cbn [fst].
  split; [rewrite lookup_update, Hl; reflexivity|].
  unfold _releaseInstance. rewrite lookup_update, Hl. clear Eq E Ha Hfirst.
  destruct p as [ins ws rc fr]. cbn in *. subst ws. cbn.
  unfold update, with_instances. cbn [_instances _waiters _recovering fresh].
  rewrite list_alter_alter_eq.
  rewrite (alter_fixed _ slot free); [reflexivity | exact Hl |].
  destruct free. cbn in Hb |- *. subst. reflexivity.
Qed.


(** X2. The [allBusy] getter is the negation of the [anyReady] getter:
    every ready instance is busy exactly when no instance is ready and
    idle, which is when [acquire] queues. *)
Theorem allBusy_iff_none_idle (p : pool) : allBusy p = negb (anyReady p).
Proof.
  unfold allBusy, anyReady.
  induction (_instances p) as [|i l IH]; [reflexivity|].
  rewrite filter_cons. cbn [existsb].
  destruct (decide (ready i = true)) as [Hr|Hr].
  - cbn [forallb]. rewrite IH, Hr. cbn [andb].
    rewrite negb_orb, negb_involutive. reflexivity.
  - apply not_true_is_false in Hr. rewrite Hr. cbn [andb orb]. exact IH.
Qed.


End PoolMore.

Section PoolQueueOrder.
Import Pool PoolTrace.

Lemma run_from p a ops :
  fold_left (fun acc o => let '(q, ev) := step (fst acc) o in (q, snd acc ++ ev))
            ops (p, a)
  = (fst (run p ops), a ++ snd (run p ops)).
Proof.
  revert p a. induction ops as [|o ops IH]; intros p a.
  - cbn. rewrite app_nil_r. reflexivity.
  - unfold run. cbn [fold_left fst snd]. destruct (step p o) as [q ev].
    rewrite !IH. cbn [fst snd app]. rewrite app_assoc. reflexivity.
Qed.

Lemma run_cons p o ops :
  run p (o :: ops)
  = (fst (run (fst (step p o)) ops),
     snd (step p o) ++ snd (run (fst (step p o)) ops)).
Proof.
  unfold run at 1. cbn [fold_left fst snd]. destruct (step p o) as [q ev].
  rewrite run_from. reflexivity.
Qed.

Lemma grants_app a b : grants (a ++ b) = grants a ++ grants b.
Proof. unfold grants. apply omap_app. Qed.

Lemma grants_positions ws : grants (_notifyPositions ws) = [].
Proof.
  destruct (grants (_notifyPositions ws)) as [|g l] eqn:E; [reflexivity|].
  assert (g ∈ grants (_notifyPositions ws)) as H by (rewrite E; left).
  unfold grants in H. apply list_elem_of_omap in H as (e & He & Hg).
  apply list_elem_of_In, notifyPositions_only_positions in He as (? & ? & ->).
  discriminate.
Qed.

(** X4. The queue is first in, first out.  [n] releases of a slot, with
    at least [n] requests waiting, resolve the first [n] waiters in the
    order in which they queued, and leave the others waiting in their
    order, the instances being unchanged. *)
Theorem releases_serve_in_arrival_order (n : nat) :
  forall (p : pool) (slot : nat) (inst : instance),
    _instances p !! slot = Some inst ->
    (n <= length (_waiters p))%nat ->
    fst (run p (replicate n (Release slot)))
    = with_waiters p (drop n (_waiters p))
    /\ grants (snd (run p (replicate n (Release slot))))
       = resolve <$> take n (_waiters p).
Proof.
  induction n as [|n IH]; intros p slot inst Hs Hn.
  - cbn. rewrite drop_0. destruct p; auto.
  - destruct (_waiters p) as [|w ws] eqn:Hw; [simpl in Hn; lia|].
    cbn [replicate]. rewrite run_cons. cbn [step].
    assert (_releaseInstance slot p
            = (with_waiters p ws,
               _notifyPositions ws
               ++ [Granted (resolve w) slot (checker inst) (id inst)])) as E.
    { unfold _releaseInstance. rewrite Hs, Hw. reflexivity. }
    rewrite E. cbn [fst snd].
    destruct (IH (with_waiters p ws) slot inst) as [H1 H2].
    { exact Hs. }
    { cbn. simpl in Hn. lia. }
    rewrite H1, !grants_app, grants_positions, H2. cbn. auto.
Qed.

End PoolQueueOrder.

Section PoolResetRecovery.
Import Pool PoolTrace.

Lemma none_busy_count (l : list instance) :
  length (filter (fun i => busy i = true) (set_busy false <$> l)) = 0%nat.
Proof.
  induction l as [|i l IH]; [reflexivity|].
  rewrite fmap_cons, filter_cons. cbn. exact IH.
Qed.

Lemma none_busy_ready (l : list instance) :
  existsb (fun i => ready i && negb (busy i)) (set_busy false <$> l)
  = existsb ready l.
Proof.
  induction l as [|i l IH]; [reflexivity|].
  rewrite fmap_cons. cbn. rewrite IH, andb_true_r. reflexivity.
Qed.

(** X5. [reset] resolves every waiter with the empty sentinel, in queue
    order, and grants no slot; it empties the queue and clears every busy
    flag, so that no scan counts as active and any ready instance is idle,
    and the next [acquire] is granted at once if any instance is ready. *)
Theorem reset_abandons_the_queue (p : pool) :
  reset p
  = (MkPool (set_busy false <$> _instances p) [] (_recovering p) (fresh p),
     (fun w => Unavailable (resolve w)) <$> _waiters p)
  /\ pending (fst (reset p)) = 0%nat
  /\ activeScanCount (fst (reset p)) = 0%nat
  /\ anyReady (fst (reset p)) = Legacy.anyReady p
  /\ grants (snd (reset p)) = []
  /\ forall w, anyReady (fst (reset p)) = true ->
               exists slot chk ident,
                 snd (acquire w (fst (reset p)))
                 = [Granted (resolve w) slot chk ident].
Proof.
  split; [reflexivity|]. split; [reflexivity|].
  split; [apply none_busy_count|]. split; [apply none_busy_ready|].
  split.
  - cbn [reset snd]. induction (_waiters p) as [|w ws IH]; [reflexivity|].
    rewrite fmap_cons. exact IH.
  - intros w H. destruct (anyReady_find _ H) as (slot & free & E).
    unfold acquire. rewrite E. cbn [snd]. eauto.
Qed.

(** X6. A second [recoverInstance] for an instance, made before the first
    one has finished, does nothing.  [recoverInstance], [recordFailure]
    and [recordSuccess] for an id the pool does not hold do nothing, and
    [recoverInstance] does nothing for an id already in the recovering
    set. *)
Theorem recoverInstance_is_idempotent (x : nat) (p : pool) :
  recoverInstance x (fst (recoverInstance x p))
  = (fst (recoverInstance x p), [])
  /\ (find_id x p = None ->
      recoverInstance x p = (p, []) /\ recordFailure x p = (p, [])
      /\ recordSuccess x p = p)
  /\ (x ∈ _recovering p -> recoverInstance x p = (p, [])).
Proof.
  split; [|split].
  - destruct (find_id x p) as [[slot inst]|] eqn:Hf.
    + destruct (decide (x ∈ _recovering p)) as [Hr|Hr].
      * rewrite (recoverInstance_guarded _ _ Hr). cbn [fst].
        apply recoverInstance_guarded, Hr.
      * rewrite (recoverInstance_starts _ _ _ _ Hf Hr). cbn [fst].
        apply recoverInstance_guarded. cbn.
        apply elem_of_union_l, elem_of_singleton. reflexivity.
    + unfold recoverInstance at 2. rewrite Hf. cbn [fst].
      unfold recoverInstance. rewrite Hf. reflexivity.
  - intros Hf. unfold recoverInstance, recordFailure, recordSuccess.
    rewrite Hf. auto.
  - apply recoverInstance_guarded.
Qed.

(** X7. One whole recovery of an instance that is not already recovering
    destroys its checker and launches one new checker.  Afterwards the
    instance has the new checker and its old id, configuration and busy
    flag; it is ready, with no error and a zero failure counter, when the
    launch succeeded, and not ready, with the error message and its old
    counter, when it failed.  Every other instance, the queue and the
    recovering set are as before. *)
Theorem recovery_rebuilds_one_instance
  (p : pool) (x slot : nat) (inst : instance) (outcome : option Js.str) :
  find_id x p = Some (slot, inst) ->
  x ∉ _recovering p ->
  let p1 := fst (recoverInstance x p) in
  let p2 := fst (recover_relaunch slot p1) in
  let p3 := recover_finish slot outcome p2 in
  snd (recoverInstance x p) ++ snd (recover_relaunch slot p1)
  = [Destroy (checker inst); Launch (fresh p)]
  /\ _instances p3 !! slot
     = Some (match outcome with
             | None => Instance (id inst) (config inst) (fresh p) (busy inst)
                                true None 0
             | Some msg => Instance (id inst) (config inst) (fresh p)
                                    (busy inst) false (Some msg)
                                    (consecutiveFailures inst)
             end)
  /\ (forall other, other <> slot ->
                    _instances p3 !! other = _instances p !! other)
  /\ _recovering p3 = _recovering p
  /\ _waiters p3 = _waiters p
  /\ fresh p3 = S (fresh p).
Proof.
  intros Hf Hr. pose proof (find_id_Some _ _ _ _ Hf) as [Hs Hid].
  rewrite (recoverInstance_starts _ _ _ _ Hf Hr). cbn zeta. cbn [fst snd].
  split; [reflexivity|].
  set (p1 := update slot (set_ready false)
                    (with_recovering p ({[x]} ∪ _recovering p))).
  assert (_instances p1 !! slot = Some (set_ready false inst)) as H1.
  { unfold p1. rewrite lookup_update. cbn. rewrite Hs. reflexivity. }
  unfold recover_relaunch. cbn [fst].
  set (p2 := MkPool _ _ _ _).
  assert (_instances p2 !! slot
          = Some (set_checker (fresh p) (set_ready false inst))) as H2.
  { unfold p2. cbn [_instances]. rewrite lookup_update, H1. reflexivity. }
  unfold recover_finish. rewrite H2.
  assert (forall q, _recovering q = {[x]} ∪ _recovering p ->
                    _recovering q ∖ {[id (set_checker (fresh p) (set_ready false inst))]}
                    = _recovering p) as Hrec.
  { intros q ->. cbn. rewrite Hid. apply set_eq. intros y.
    rewrite elem_of_difference, elem_of_union, !elem_of_singleton.
    split; [intros [[->|Hy] Hne]; [congruence | exact Hy]|].
    intros Hy. split; [right; exact Hy | intros ->; contradiction]. }
  destruct outcome as [msg|]; cbn [_instances with_recovering _waiters fresh
                                   _recovering].
  - split; [rewrite lookup_update, H2; destruct inst; reflexivity|].
    split.
    { intros other Hne. unfold update. cbn.
      rewrite !list_lookup_alter_ne by congruence. reflexivity. }
    split; [apply Hrec; reflexivity|]. split; reflexivity.
  - split; [rewrite lookup_update, H2; destruct inst; reflexivity|].
    split.
    { intros other Hne. unfold update. cbn.
      rewrite !list_lookup_alter_ne by congruence. reflexivity. }
    split; [apply Hrec; reflexivity|]. split; reflexivity.
Qed.

(** X8. An instance that comes back from a recovery is not offered to the
    queue.  When no instance was available, so that requests may be
    waiting, and an idle instance finishes its recovery with a successful
    launch, the waiters stay queued, and the next request to call
    [acquire] is granted that instance at once, ahead of them. *)
Theorem recovered_instance_skips_the_queue
  (p : pool) (slot : nat) (inst : instance) (w : waiter) :
  _instances p !! slot = Some inst ->
  busy inst = false ->
  anyReady p = false ->
  let p' := recover_finish slot None p in
  _waiters p' = _waiters p
  /\ acquire w p'
     = (update slot (set_busy true) p',
        [Granted (resolve w) slot (checker inst) (id inst)])
  /\ _waiters (fst (acquire w p')) = _waiters p.
Proof.
  intros Hs Hb Ha. cbn zeta. unfold recover_finish. rewrite Hs.
  set (p1 := update slot _ p).
  assert (_instances p1 !! slot
          = Some (set_failures 0 (set_error None (set_ready true inst)))) as H1.
  { unfold p1. rewrite lookup_update, Hs. reflexivity. }
  split; [reflexivity|].
  assert (list_find (fun i => ready i = true /\ busy i = false)
                    (_instances (with_recovering p1 (_recovering p1 ∖ {[id inst]})))
          = Some (slot, set_failures 0 (set_error None (set_ready true inst))))
    as E.
  { apply list_find_Some. cbn [_instances with_recovering].
    split; [exact H1|]. split; [split; [reflexivity | exact Hb]|].
    intros j y Hy Hj. unfold p1, update in Hy. cbn in Hy.
    rewrite list_lookup_alter_ne in Hy by lia.
    unfold anyReady in Ha. intros [Hr Hby].
    assert (existsb (fun i => ready i && negb (busy i)) (_instances p) = true)
      as Ht; [|congruence].
    apply existsb_exists. exists y. split.
    - apply list_elem_of_In, list_elem_of_lookup. eauto.
    - rewrite Hr, Hby. reflexivity. }
  unfold acquire. rewrite E. split; reflexivity.
Qed.

End PoolResetRecovery.

Section PoolInit.
Import Pool PoolTrace.

(** The instance lists agree outside [slot]; at [slot] the second holds an
    instance [launched] from the first's, or, after a failed first attempt,
    one that differs from it only in checker, ready flag and error. *)
Lemma attempt_at launch slot p inst :
  _instances p !! slot = Some inst ->
  exists inst',
    _instances (snd (fst (attempt launch slot p))) !! slot = Some inst'
    /\ id inst' = id inst /\ config inst' = config inst
    /\ busy inst' = busy inst
    /\ (if fst (fst (attempt launch slot p))
        then ready inst' = true /\ error inst' = None
             /\ consecutiveFailures inst' = 0%nat
             /\ launch (checker inst') = None
        else ready inst' = false
             /\ (exists c msg, launch c = Some msg /\ error inst' = Some msg)
             /\ consecutiveFailures inst' = consecutiveFailures inst).
Proof.
  intros Hs. unfold attempt. rewrite Hs.
  destruct (launch (checker inst)) as [msg|] eqn:El; cbn [fst snd _instances].
  - eexists. rewrite lookup_update, Hs. split; [reflexivity|].
    cbn. repeat split; eauto.
  - eexists. rewrite lookup_update, Hs. split; [reflexivity|].
    cbn. repeat split; eauto.
Qed.

Lemma attempt_frame launch slot p :
  length (_instances (snd (fst (attempt launch slot p))))
  = length (_instances p)
  /\ _waiters (snd (fst (attempt launch slot p))) = _waiters p
  /\ _recovering (snd (fst (attempt launch slot p))) = _recovering p
  /\ forall other, other <> slot ->
       _instances (snd (fst (attempt launch slot p))) !! other
       = _instances p !! other.
Proof.
  unfold attempt. destruct (_instances p !! slot) as [inst|]; [|auto].
  destruct (launch (checker inst)) as [msg|];
    cbn [fst snd _instances _waiters _recovering update with_instances];
    (split; [apply length_alter|]); (split; [reflexivity|]);
    (split; [reflexivity|]); intros other Hne;
    apply list_lookup_alter_ne; congruence.
Qed.

Lemma init_one_at launch slot p ev inst :
  _instances p !! slot = Some inst ->
  exists inst',
    _instances (fst (init_one launch (p, ev) slot)) !! slot = Some inst'
    /\ launched launch inst inst'.
Proof.
  intros Hs. unfold init_one.
  destruct (attempt_at launch slot p inst Hs)
    as (i1 & H1 & Hid1 & Hc1 & Hb1 & Hk1).
  destruct (attempt launch slot p) as [[ok p1] ev1]. cbn [fst snd] in *.
  destruct ok.
  - exists i1. split; [exact H1|]. unfold launched.
    destruct Hk1 as (? & ? & ? & ?). repeat split; auto.
  - destruct (attempt_at launch slot p1 i1 H1)
      as (i2 & H2 & Hid2 & Hc2 & Hb2 & Hk2).
    destruct (attempt launch slot p1) as [[ok2 p2] ev2]. cbn [fst snd] in *.
    exists i2. split; [exact H2|]. unfold launched.
    destruct Hk1 as (_ & _ & Hf1).
    split; [congruence|]. split; [congruence|]. split; [congruence|].
    destruct ok2.
    + destruct Hk2 as (? & ? & ? & ?). left. repeat split; auto.
    + destruct Hk2 as (? & ? & ?). right. repeat split; auto. congruence.
Qed.

Lemma init_one_frame launch slot p ev :
  length (_instances (fst (init_one launch (p, ev) slot)))
  = length (_instances p)
  /\ _waiters (fst (init_one launch (p, ev) slot)) = _waiters p
  /\ _recovering (fst (init_one launch (p, ev) slot)) = _recovering p
  /\ forall other, other <> slot ->
       _instances (fst (init_one launch (p, ev) slot)) !! other
       = _instances p !! other.
Proof.
  unfold init_one.
  pose proof (attempt_frame launch slot p) as (L1 & W1 & R1 & F1).
  destruct (attempt launch slot p) as [[ok p1] ev1]. cbn [fst snd] in *.
  destruct ok; [cbn [fst]; auto|].
  pose proof (attempt_frame launch slot p1) as (L2 & W2 & R2 & F2).
  destruct (attempt launch slot p1) as [[ok2 p2] ev2]. cbn [fst snd] in *.
  split; [congruence|]. split; [congruence|]. split; [congruence|].
  intros other Hne. rewrite F2, F1 by exact Hne. reflexivity.
Qed.

Lemma init_range launch n :
  forall k p ev,
    let p' := fst (fold_left (init_one launch) (seq k n) (p, ev)) in
    length (_instances p') = length (_instances p)
    /\ _waiters p' = _waiters p
    /\ _recovering p' = _recovering p
    /\ (forall slot, (slot < k \/ k + n <= slot)%nat ->
                     _instances p' !! slot = _instances p !! slot)
    /\ (forall slot inst, (k <= slot < k + n)%nat ->
                          _instances p !! slot = Some inst ->
                          exists inst', _instances p' !! slot = Some inst'
                                        /\ launched launch inst inst').
Proof.
  induction n as [|n IH]; intros k p ev; cbn zeta.
  - cbn. repeat split; auto. intros; lia.
  - cbn [seq fold_left].
    pose proof (init_one_frame launch k p ev) as (L1 & W1 & R1 & F1).
    destruct (init_one launch (p, ev) k) as [p1 ev1] eqn:E1.
    cbn [fst] in *.
    destruct (IH (S k) p1 ev1) as (L & W & R & F & G).
    split; [congruence|]. split; [congruence|]. split; [congruence|].
    split.
    + intros slot Hslot. rewrite F by lia. apply F1. lia.
    + intros slot inst Hslot Hinst.
      destruct (decide (slot = k)) as [->|Hne].
      * rewrite F by lia.
        pose proof (init_one_at launch k p ev inst Hinst) as H.
        rewrite E1 in H. exact H.
      * apply G; [lia|]. rewrite F1 by exact Hne. exact Hinst.
Qed.

(** X9. [initAll] keeps the number of instances, the queue and the
    recovering set, and leaves every instance with its id, configuration
    and busy flag, either ready (no error, zero counter, a checker whose
    launch succeeded) or not ready with the message of a failed launch.
    If every launch succeeds every instance is ready; if every launch
    fails none is. *)
Theorem initAll_settles_every_instance
  (launch : nat -> option Js.str) (p : pool) :
  let p' := fst (initAll launch p) in
  size p' = size p
  /\ _waiters p' = _waiters p
  /\ _recovering p' = _recovering p
  /\ (forall slot inst,
         _instances p !! slot = Some inst ->
         exists inst', _instances p' !! slot = Some inst'
                       /\ launched launch inst inst')
  /\ ((forall c, launch c = None) -> Forall (fun i => ready i = true)
                                             (_instances p'))
  /\ ((forall c, launch c <> None) -> Legacy.anyReady p' = false).
Proof.
  cbn zeta. unfold initAll.
  destruct (init_range launch (length (_instances p)) 0 p [])
    as (L & W & R & _ & G).
  split; [exact L|]. split; [exact W|]. split; [exact R|].
  assert (forall slot inst,
             _instances p !! slot = Some inst ->
             exists inst',
               _instances (fst (fold_left (init_one launch)
                                          (seq 0 (length (_instances p)))
                                          (p, []))) !! slot = Some inst'
               /\ launched launch inst inst') as G'.
  { intros slot inst Hs. apply G; [|exact Hs].
    apply lookup_lt_Some in Hs. lia. }
  split; [exact G'|]. split.
  - intros Hall. apply Forall_forall. intros inst' Hin.
    apply list_elem_of_lookup in Hin as (slot & Hs').
    assert (is_Some (_instances p !! slot)) as [inst Hs].
    { apply lookup_lt_is_Some. rewrite <- L. apply lookup_lt_Some in Hs'.
      exact Hs'. }
    destruct (G' slot inst Hs) as (i & Hi & _ & _ & _ & [(Hr & _)|(_ & (c & msg & Hc & _) & _)]).
    + congruence.
    + rewrite Hall in Hc. discriminate.
  - intros Hall. unfold Legacy.anyReady.
    apply not_true_is_false. intros Ht.
    apply existsb_exists in Ht as (inst' & Hin & Hr).
    apply list_elem_of_In, list_elem_of_lookup in Hin as (slot & Hs').
    assert (is_Some (_instances p !! slot)) as [inst Hs].
    { apply lookup_lt_is_Some. rewrite <- L. apply lookup_lt_Some in Hs'.
      exact Hs'. }
    destruct (G' slot inst Hs) as (i & Hi & _ & _ & _ & [(_ & _ & _ & Hc)|(Hnr & _)]).
    + exact (Hall _ Hc).
    + congruence.
Qed.

End PoolInit.

Section PoolWitnesses.
Import Pool PoolTrace.

Lemma acquire_release_round_trip_witness :
  let p := fst (run empty Scenario.boot) in
  exists slot,
    snd (acquire (Scenario.w 1) p) = [Granted 1 slot 0 0]
    /\ _releaseInstance slot (fst (acquire (Scenario.w 1) p)) = (p, []).
Proof.
  intros p.
  destruct (acquire_release_round_trip p (Scenario.w 1) eq_refl eq_refl)
    as (slot & free & Hfree & _ & _ & Hfirst & Hacq & _ & Hrel).
  exists slot. split; [|exact Hrel].
  rewrite Hacq. cbn [snd].
  destruct slot as [|slot]; [|destruct slot; discriminate].
  injection Hfree as <-. reflexivity.
Defined.

Lemma releases_serve_in_arrival_order_witness :
  let p := fst (run empty Scenario.queued) in
  grants (snd (run p [Release 0; Release 0])) = [2; 3]%nat
  /\ _waiters (fst (run p [Release 0; Release 0])) = [].
Proof.
  intros p.
  destruct (releases_serve_in_arrival_order 2 p 0
              (Instance 0 Scenario.channel 0 true true None 0) eq_refl)
    as [H1 H2].
  { vm_compute. lia. }
  cbn [replicate] in H1, H2. split; [exact H2 | rewrite H1; reflexivity].
Defined.

Lemma recovery_rebuilds_one_instance_witness :
  let p := fst (run empty Scenario.boot) in
  let p1 := fst (recoverInstance 0 p) in
  let p2 := fst (recover_relaunch 0 p1) in
  _instances (recover_finish 0 None p2) !! 0%nat
  = Some (Instance 0 Scenario.channel (fresh p) false true None 0)
  /\ fresh (recover_finish 0 None p2) = S (fresh p).
Proof.
  intros p p1 p2.
  destruct (recovery_rebuilds_one_instance p 0 0
              (Instance 0 Scenario.channel 0 false true None 0) None eq_refl)
    as (_ & H & _ & _ & _ & Hf).
  { apply not_elem_of_empty. }
  split; [exact H | exact Hf].
Defined.

Lemma recovered_instance_skips_the_queue_witness :
  let p := fst (run empty (Scenario.failed_boot ++ [Acquire (Scenario.w 1)])) in
  _waiters p = [Scenario.w 1]
  /\ exists chk,
       snd (acquire (Scenario.w 2) (recover_finish 0 None p))
       = [Granted 2 0 chk 0]
       /\ _waiters (fst (acquire (Scenario.w 2) (recover_finish 0 None p)))
          = [Scenario.w 1].
Proof.
  intros p. split; [reflexivity|].
  destruct (recovered_instance_skips_the_queue p 0 _ (Scenario.w 2)
              eq_refl eq_refl eq_refl) as (_ & Hacq & Hw).
  eexists. split; [rewrite Hacq; reflexivity | exact Hw].
Defined.

End PoolWitnesses.

(** ** The rate limiters *)

Section LimiterMore.
Import RateLimiter.
Import LimiterOps(bounded).

Lemma live_within now l ip t : t ∈ live now l ip -> (now - _windowMs l < t)%Z.
Proof. unfold live. intros H. apply list_elem_of_filter in H as [H _]. exact H. Qed.

Lemma ceil_seconds_positive ms : (0 < ms)%Z -> (1 <= Legacy.ceil_seconds ms)%Z.
Proof.
  intros H. unfold Legacy.ceil_seconds.
  assert (- ms / 1000 < 0)%Z; [|lia].
  apply Z.div_lt_upper_bound; lia.
Qed.

(** X10. With a positive limit, a denied [check] stores the pruned
    timestamps and nothing more, reports zero remaining, and a waiting
    time counted from the oldest timestamp still in the window.  That time is positive, so the
    [retryAfter] the handlers derive from it is at least one second. *)
Theorem denied_check_says_when_to_retry (now : Z) (ip : Js.str) (l : t) (m : nat) :
  _maxHits l = Finite (S m) ->
  allowed (fst (check now ip l)) = false ->
  exists oldest,
    head (live now l ip) = Some oldest
    /\ (S m <= length (live now l ip))%nat
    /\ check now ip l
       = (Verdict false (Finite 0) (Some (oldest + _windowMs l - now)%Z),
          with_hits l (<[ip := live now l ip]> (_hits l)))
    /\ (0 < oldest + _windowMs l - now)%Z
    /\ (1 <= Legacy.ceil_seconds (oldest + _windowMs l - now))%Z.
Proof.
  intros Hm Ha. unfold check in *. rewrite Hm in *. cbn [reached] in *.
  destruct (S m <=? length (live now l ip))%nat eqn:E; [|discriminate].
  apply Nat.leb_le in E.
  destruct (live now l ip) as [|oldest ts] eqn:El; [simpl in E; lia|].
  exists oldest. cbn [head fmap option_fmap option_map].
  assert (0 < oldest + _windowMs l - now)%Z as Hpos.
  { assert (oldest ∈ live now l ip) as Hin by (rewrite El; left).
    apply live_within in Hin. lia. }
  repeat split; auto. apply ceil_seconds_positive, Hpos.
Qed.

Lemma denied_check_says_when_to_retry_witness :
  let ip := Js.lit "203.0.113.9" in
  let l := Limiter (Finite 2) 120000 {[ ip := [1000; 2000]%Z ]} in
  exists oldest,
    head (live 3000 l ip) = Some oldest
    /\ fst (check 3000 ip l) = Verdict false (Finite 0) (Some 118000%Z)
    /\ Legacy.ceil_seconds (oldest + 120000 - 3000) = 118%Z.
Proof.
  intros ip l.
  destruct (denied_check_says_when_to_retry 3000 ip l 1 eq_refl eq_refl)
    as (oldest & H1 & _ & H3 & _).
  exists oldest. split; [exact H1|]. rewrite H3.
  assert (oldest = 1000%Z) as -> by (vm_compute in H1; congruence).
  split; reflexivity.
Defined.

Lemma live_length now l ip m :
  bounded m l -> (length (live now l ip) <= m)%nat.
Proof.
  intros H. unfold live. destruct (_hits l !! ip) as [ts|] eqn:E; cbn.
  - pose proof (length_filter (fun t => (now - _windowMs l < t)%Z) ts).
    specialize (H ip ts E). lia.
  - lia.
Qed.

Lemma removelast_length {A} (ts : list A) :
  (length (removelast ts) <= length ts)%nat.
Proof.
  induction ts as [|t ts IH]; [reflexivity|].
  cbn [removelast]. destruct ts; [cbn; lia|]. cbn [length] in *. lia.
Qed.

Lemma step_bounded m l o :
  _maxHits l = Finite m -> bounded m l ->
  _maxHits (LimiterOps.step l o) = Finite m /\ bounded m (LimiterOps.step l o).
Proof.
  intros Hm Hb. destruct o as [now ip|ip|now]; cbn [LimiterOps.step].
  - unfold check. rewrite Hm. cbn [reached].
    pose proof (live_length now l ip m Hb) as Hl.
    destruct (m <=? length (live now l ip))%nat eqn:E; cbn [snd];
      (split; [exact Hm|]); intros ip' ts; cbn [_hits with_hits];
      rewrite lookup_insert; case_decide as Hip.
    + intros [= <-]. exact Hl.
    + apply Hb.
    + intros [= <-]. apply Nat.leb_gt in E. rewrite length_app. cbn. lia.
    + apply Hb.
  - split; [exact Hm|]. intros ip' ts. unfold undo. cbn [_hits with_hits].
    rewrite lookup_alter. case_decide as Hip; [|apply Hb].
    subst. destruct (_hits l !! ip') as [ts0|] eqn:E; [|discriminate].
    intros [= <-]. pose proof (removelast_length ts0).
    specialize (Hb ip' ts0 E). lia.
  - split; [exact Hm|]. intros ip' ts. unfold cleanup. cbn [_hits with_hits].
    rewrite map_lookup_filter_Some, lookup_fmap.
    intros [H _]. destruct (_hits l !! ip') as [ts0|] eqn:E; [|discriminate].
    injection H as <-.
    pose proof (length_filter (fun t => (now - _windowMs l < t)%Z) ts0).
    specialize (Hb ip' ts0 E). lia.
Qed.

Lemma removelast_sub {A} (t : A) (ts : list A) :
  t ∈ removelast ts -> t ∈ ts.
Proof.
  induction ts as [|x ts IH]; [intros H; exact H|].
  cbn [removelast]. destruct ts as [|y ts']; [intros H; inversion H|].
  intros H. apply elem_of_cons in H as [->|H]; [left|right; apply IH, H].
Qed.

Lemma limiter_history_invariant
  (m : nat) (windowMs : Z) (ops : list LimiterOps.op) :
  let l := LimiterOps.run (LimiterOps.create (Finite m) windowMs) ops in
  forall ip ts,
    _hits l !! ip = Some ts ->
    (length ts <= m)%nat
    /\ forall t, t ∈ ts -> In (LimiterOps.Check t ip) ops.
Proof.
  cbn zeta. induction ops as [|o ops IH] using rev_ind.
  - intros ip ts. cbn. rewrite lookup_empty. discriminate.
  - unfold LimiterOps.run in *. rewrite fold_left_app. cbn [fold_left].
    set (l := fold_left LimiterOps.step ops _) in *.
    assert (_maxHits l = Finite m /\ bounded m l) as [Hm Hb].
    { assert (forall ops l0, _maxHits l0 = Finite m -> bounded m l0 ->
                _maxHits (fold_left LimiterOps.step ops l0) = Finite m
                /\ bounded m (fold_left LimiterOps.step ops l0)) as Hrun.
      { clear. induction ops as [|o ops' IH]; intros l Hm Hb; [auto|].
        cbn. destruct (step_bounded m l o Hm Hb) as [Hm' Hb'].
        apply IH; auto. }
      apply Hrun; [reflexivity|].
      intros ip' ts. cbn. rewrite lookup_empty. discriminate. }
    intros ip ts Hts. split.
    { destruct (step_bounded m l o Hm Hb) as [_ Hb']. exact (Hb' ip ts Hts). }
    intros t Ht. apply in_app_iff.
    destruct o as [now ip0|ip0|now]; cbn [LimiterOps.step] in Hts.
    + unfold check in Hts.
      destruct (reached _ _); cbn [snd _hits with_hits] in Hts;
        rewrite lookup_insert in Hts; case_decide as Hip.
      * injection Hts as <-. subst ip0. unfold live in Ht.
        apply list_elem_of_filter in Ht as [_ Ht].
        destruct (_hits l !! ip) as [ts0|] eqn:E; [|inversion Ht].
        left. exact (proj2 (IH ip ts0 E) t Ht).
      * left. exact (proj2 (IH ip ts Hts) t Ht).
      * injection Hts as <-. subst ip0. apply elem_of_app in Ht as [Ht|Ht].
        -- unfold live in Ht. apply list_elem_of_filter in Ht as [_ Ht].
           destruct (_hits l !! ip) as [ts0|] eqn:E; [|inversion Ht].
           left. exact (proj2 (IH ip ts0 E) t Ht).
        -- apply list_elem_of_singleton in Ht. subst. right. left. reflexivity.
      * left. exact (proj2 (IH ip ts Hts) t Ht).
    + unfold undo in Hts. cbn [_hits with_hits] in Hts.
      rewrite lookup_alter in Hts. case_decide as Hip.
      * subst. destruct (_hits l !! ip) as [ts0|] eqn:E; [|discriminate].
        injection Hts as <-. left.
        exact (proj2 (IH ip ts0 E) t (removelast_sub _ _ Ht)).
      * left. exact (proj2 (IH ip ts Hts) t Ht).
    + unfold cleanup in Hts. cbn [_hits with_hits] in Hts.
      rewrite map_lookup_filter_Some, lookup_fmap in Hts.
      destruct Hts as [Hts _].
      destruct (_hits l !! ip) as [ts0|] eqn:E; [|discriminate].
      injection Hts as <-. apply list_elem_of_filter in Ht as [_ Ht].
      left. exact (proj2 (IH ip ts0 E) t Ht).
Qed.


Lemma filter_later (now now' w : Z) (ts : list Z) :
  (now' <= now)%Z ->
  filter (fun t => (now - w < t)%Z) (filter (fun t => (now' - w < t)%Z) ts)
  = filter (fun t => (now - w < t)%Z) ts.
Proof.
  intros Hle. induction ts as [|t ts IH]; [reflexivity|].
  rewrite !filter_cons. destruct (decide (now' - w < t)%Z) as [H1|H1].
  - rewrite filter_cons. destruct (decide (now - w < t)%Z); congruence.
  - rewrite decide_False by lia. exact IH.
Qed.

Lemma cleanup_lookup now l ip :
  _hits (cleanup now l) !! ip
  = match _hits l !! ip with
    | Some ts =>
        if decide (filter (fun t => (now - _windowMs l < t)%Z) ts = [])
        then None
        else Some (filter (fun t => (now - _windowMs l < t)%Z) ts)
    | None => None
    end.
Proof.
  unfold cleanup. cbn [_hits with_hits].
  destruct (_hits l !! ip) as [ts|] eqn:E.
  - case_decide as He.
    + apply map_lookup_filter_None_2. right. intros x.
      rewrite lookup_fmap, E. cbn. intros [= <-]. cbn. tauto.
    + apply map_lookup_filter_Some_2.
      * rewrite lookup_fmap, E. reflexivity.
      * exact He.
  - apply map_lookup_filter_None_2. left. rewrite lookup_fmap, E. reflexivity.
Qed.

Lemma live_after_cleanup now now' l ip :
  (now' <= now)%Z -> live now (cleanup now' l) ip = live now l ip.
Proof.
  intros Hle. unfold live. rewrite cleanup_lookup.
  cbn [_windowMs cleanup with_hits].
  destruct (_hits l !! ip) as [ts|]; [|reflexivity].
  case_decide as He; cbn.
  - rewrite <- (filter_later now now' _ ts Hle), He. reflexivity.
  - apply filter_later, Hle.
Qed.

(** X12. [cleanup] is invisible to clients: a [check] made no earlier
    than the cleanup gets the same verdict as it would have got without
    it, and the remaining budget is the same.  It removes exactly the
    clients with no timestamp left in the window and prunes the others. *)
Theorem cleanup_keeps_every_verdict (now now' : Z) (ip : Js.str) (l : t) :
  (now' <= now)%Z ->
  fst (check now ip (cleanup now' l)) = fst (check now ip l)
  /\ budget now ip (cleanup now' l) = budget now ip l
  /\ (_hits (cleanup now' l) !! ip = None <-> live now' l ip = [])
  /\ forall ts, _hits (cleanup now' l) !! ip = Some ts -> ts = live now' l ip.
Proof.
  intros Hle. pose proof (live_after_cleanup now now' l ip Hle) as Hl.
  split; [|split; [|split]].
  - unfold check. rewrite Hl. cbn [_maxHits _windowMs cleanup with_hits].
    destruct (reached _ _); reflexivity.
  - unfold budget. rewrite Hl. reflexivity.
  - rewrite cleanup_lookup. unfold live.
    destruct (_hits l !! ip) as [ts|]; cbn; [|tauto].
    case_decide as He; [tauto|]. split; [discriminate | contradiction].
  - intros ts. rewrite cleanup_lookup. unfold live.
    destruct (_hits l !! ip) as [ts0|]; cbn; [|discriminate].
    case_decide as He; [discriminate|]. intros [= <-]. reflexivity.
Qed.

Lemma cleanup_keeps_every_verdict_witness :
  let ip := Js.lit "203.0.113.9" in
  let l := Limiter (Finite 15) 120000 {[ ip := [100; 200000]%Z ]} in
  fst (check 300000 ip (cleanup 250000 l)) = fst (check 300000 ip l)
  /\ _hits (cleanup 250000 l) !! ip = Some [200000%Z]
  /\ _hits (cleanup 400000 l) !! ip = None.
Proof.
  intros ip l.
  destruct (cleanup_keeps_every_verdict 300000 250000 ip l) as (H & _).
  { lia. }
  split; [exact H|]. split; vm_compute; reflexivity.
Defined.

Lemma filter_all {A} (P : A -> Prop) `{forall x, Decision (P x)} (l : list A) :
  Forall P l -> filter P l = l.
Proof.
  induction 1 as [|x l Hx Hl IH]; [reflexivity|].
  rewrite filter_cons, decide_True by exact Hx. congruence.
Qed.

Lemma removelast_shorter {A} (l : list A) :
  l <> [] -> S (length (removelast l)) = length l.
Proof.
  induction l as [|x l IH]; [congruence|]. intros _.
  cbn [removelast]. destruct l as [|y l']; [reflexivity|].
  cbn [length] in *. rewrite IH by discriminate. reflexivity.
Qed.

(** X13. A status request by a client that is at its limit is denied, yet
    its pop removes one of the client's genuine timestamps: the budget,
    zero before, is one afterwards, and the client's next [check] is
    allowed. *)
Theorem status_probe_at_the_limit (now : Z) (ip : Js.str) (l : t) (m : nat) :
  _maxHits l = Finite (S m) ->
  length (live now l ip) = S m ->
  allowed (fst (status_probe now ip l)) = false
  /\ _hits (snd (status_probe now ip l)) !! ip
     = Some (removelast (live now l ip))
  /\ length (live now (snd (status_probe now ip l)) ip) = m
  /\ budget now ip l = Finite 0
  /\ budget now ip (snd (status_probe now ip l)) = Finite 1
  /\ allowed (fst (check now ip (snd (status_probe now ip l)))) = true.
Proof.
  intros Hm Hlen.
  assert (status_probe now ip l
          = (Verdict false (Finite 0)
                     ((fun oldest => (oldest + _windowMs l - now)%Z)
                        <$> head (live now l ip)),
             with_hits l (<[ip := removelast (live now l ip)]> (_hits l)))) as E.
  { unfold status_probe, check. rewrite Hm, Hlen. cbn [reached].
    rewrite Nat.leb_refl. unfold undo. cbn [_hits with_hits].
    rewrite alter_insert_eq. reflexivity. }
  rewrite E. cbn [fst snd allowed].
  assert (live now (with_hits l (<[ip := removelast (live now l ip)]> (_hits l))) ip
          = removelast (live now l ip)) as Hlive.
  { rewrite live_after_store. apply filter_all. apply Forall_forall.
    intros t Ht. apply removelast_sub in Ht. exact (live_within _ _ _ _ Ht). }
  assert (length (removelast (live now l ip)) = m) as Hlen'.
  { assert (live now l ip <> []) as Hne.
    { intros H0. rewrite H0 in Hlen. discriminate. }
    pose proof (removelast_shorter _ Hne). lia. }
  split; [reflexivity|].
  split; [cbn [_hits with_hits]; apply lookup_insert_eq|].
  split; [rewrite Hlive; exact Hlen'|].
  split; [unfold budget; rewrite Hm, Hlen; cbn; f_equal; lia|].
  split.
  - unfold budget. rewrite Hlive, Hlen'. cbn [_maxHits with_hits].
    rewrite Hm. cbn. f_equal. lia.
  - unfold check. rewrite Hlive, Hlen'. cbn [_maxHits with_hits].
    rewrite Hm. cbn [reached].
    rewrite (proj2 (Nat.leb_gt (S m) m)) by lia. reflexivity.
Qed.

Lemma status_probe_at_the_limit_witness :
  let ip := Js.lit "203.0.113.9" in
  let l := Limiter (Finite 2) 120000 {[ ip := [1000; 2000]%Z ]} in
  allowed (fst (check 3000 ip l)) = false
  /\ _hits (snd (status_probe 3000 ip l)) !! ip = Some [1000%Z]
  /\ allowed (fst (check 3000 ip (snd (status_probe 3000 ip l)))) = true.
Proof.
  intros ip l.
  destruct (status_probe_at_the_limit 3000 ip l 1 eq_refl eq_refl)
    as (_ & H2 & _ & _ & _ & H6).
  split; [reflexivity|]. split; [rewrite H2; reflexivity | exact H6].
Defined.

Lemma limiter_fields l : Limiter (_maxHits l) (_windowMs l) (_hits l) = l.
Proof. destruct l. reflexivity. Qed.

Lemma window_step_agrees w o :
  SlidingWindow.as_limiter (LimiterOps.window_step w o)
  = LimiterOps.step (SlidingWindow.as_limiter w) (LimiterOps.as_limiter_op o).
Proof.
  destruct o as [now key|now]; cbn [LimiterOps.window_step LimiterOps.step
                                    LimiterOps.as_limiter_op].
  - unfold SlidingWindow.hit, check, live, SlidingWindow.as_limiter.
    cbn [_maxHits _windowMs _hits]. destruct (reached _ _); reflexivity.
  - reflexivity.
Qed.


End LimiterMore.

(** ** The response parser *)

Section ParserMore.
Import Js Re Parser ParserShape.

(** X15. [parseBotResponse] never reports a platform name twice,
    however often the reply repeats it. *)
Theorem parse_never_repeats_a_name (r : reply) :
  NoDup (name <$> platforms (parseBotResponse r))
  /\ forall i j p q,
       platforms (parseBotResponse r) !! i = Some p ->
       platforms (parseBotResponse r) !! j = Some q ->
       name p = name q -> i = j.
Proof.
  pose proof (parse_names_distinct r) as H. split; [exact H|].
  intros i j p q Hi Hj Hn.
  apply (NoDup_lookup _ i j (name p) H);
    rewrite list_lookup_fmap; [rewrite Hi | rewrite Hj, Hn]; reflexivity.
Qed.

Lemma classify_coherent n c d m :
  coherent (Platform n c (classify d) d m []).
Proof.
  unfold coherent. cbn [pstatus detail icon].
  remember (classify d) as s eqn:E. unfold classify in E.
  destruct s; try (split; reflexivity);
    repeat match type of E with
           | _ = (if ?b then _ else _) => destruct b
           end; discriminate.
Qed.

Lemma coherent_state_push p st : coherent_state st -> coherent p -> coherent_state (push p st).
Proof.
  intros H Hp. unfold coherent_state, push. cbn [out]. apply Forall_app.
  split; [exact H | constructor; [exact Hp | constructor]].
Qed.

Lemma coherent_state_tryCompactLine line st :
  coherent_state st -> coherent_state (tryCompactLine line st).
Proof.
  intros H. unfold tryCompactLine.
  destruct (exec compactLinePattern line) as [[i m]|]; [|exact H].
  destruct (has _ st); [exact H|].
  apply coherent_state_push; [exact H | apply classify_coherent].
Qed.

Lemma coherent_state_scan_bounded n :
  forall lines st, (length lines <= n)%nat -> coherent_state st ->
                   coherent_state (scan lines st).
Proof.
  induction n as [|n IH]; intros lines st Hn H.
  - destruct lines; [exact H | simpl in Hn; lia].
  - destruct lines as [|line later]; [exact H|]. simpl in Hn.
    cbn [scan].
    destruct (test notePattern line).
    { apply IH; [lia | exact H]. }
    destruct (test headerPattern line).
    { apply IH; [lia | exact H]. }
    destruct later as [|nextLine after].
    { apply coherent_state_tryCompactLine, H. }
    simpl in Hn.
    destruct (is_empty nextLine).
    { apply IH; [simpl; lia | apply coherent_state_tryCompactLine, H]. }
    cbn zeta.
    destruct (_ && (_ || _ || _)).
    + destruct (has (trim line) st).
      { apply IH; [lia | exact H]. }
      destruct (test loadingPattern nextLine && _).
      { apply IH; [lia|]. apply coherent_state_push; [exact H|].
        unfold coherent. cbn. auto. }
      destruct (test errorPattern nextLine && _).
      { apply IH; [lia|]. apply coherent_state_push; [exact H|].
        unfold coherent. cbn. auto. }
      destruct (exec resultPattern nextLine) as [[i m]|].
      * apply IH; [lia|]. apply coherent_state_push; [exact H|].
        apply classify_coherent.
      * apply IH; [lia | exact H].
    + apply IH; [simpl; lia | apply coherent_state_tryCompactLine, H].
Qed.

Lemma coherent_state_sweep_line st line : coherent_state st -> coherent_state (sweep_line st line).
Proof.
  intros H. unfold sweep_line.
  destruct (negb _); [exact H|].
  destruct (_ || _); [exact H|].
  cbn zeta. pose proof (coherent_state_tryCompactLine line st H) as H'.
  destruct (from_option _ _ _); [exact H'|].
  destruct (exec broadPattern line); [|exact H'].
  destruct (split dash _) as [|p0 [|p1 [|p2 more]]]; try exact H'.
  destruct (has _ _); [exact H'|].
  apply coherent_state_push; [exact H' | apply classify_coherent].
Qed.

(** X16. Every entry [parseBotResponse] returns is coherent.  A loading
    entry and an error entry have no timing and their fixed texts and
    icons; any other entry has the status that its detail text classifies
    to: [blocked] only if the detail says blocked and does not say
    unblocked, [unblocked] only if it says unblocked.  A timing appears
    only on entries that are neither loading nor error. *)
Theorem parse_entries_are_coherent (r : reply) :
  Forall coherent (platforms (parseBotResponse r))
  /\ forall p, p ∈ platforms (parseBotResponse r) ->
               (pstatus p = Blocked ->
                includes (lit "blocked") (to_lower (detail p)) = true
                /\ includes (lit "unblocked") (to_lower (detail p)) = false)
               /\ (pstatus p = Unblocked ->
                   includes (lit "unblocked") (to_lower (detail p)) = true)
               /\ (ms p <> None -> pstatus p <> Loading /\ pstatus p <> Error).
Proof.
  assert (Forall coherent (platforms (parseBotResponse r))) as H.
  { unfold parseBotResponse. cbn zeta. set (lines := filter _ _).
    assert (coherent_state (scan lines (PState [] ∅ None))) as H.
    { apply (coherent_state_scan_bounded (length lines)); [lia | constructor]. }
    destruct (_ <? 5)%nat; cbn [platforms]; [|exact H].
    clear -H. revert H. generalize (scan lines (PState [] ∅ None)).
    induction lines as [|l lines IH]; intros st H; [exact H|].
    cbn [fold_left]. apply IH, coherent_state_sweep_line, H. }
  split; [exact H|]. intros p Hp. rewrite Forall_forall in H.
  specialize (H p Hp). unfold coherent in H.
  split; [|split].
  - intros E. rewrite E in H. destruct H as [H _]. unfold classify in H.
    destruct (includes (lit "unblocked") _); [discriminate|].
    destruct (includes (lit "blocked") _); [auto | discriminate].
  - intros E. rewrite E in H. destruct H as [H _]. unfold classify in H.
    destruct (includes (lit "unblocked") _); [reflexivity|].
    destruct (includes (lit "blocked") _); discriminate.
  - intros Hm. split; intros E; rewrite E in H; destruct H as [H _];
      contradiction.
Qed.

Lemma trim_blank s : blank s -> trim s = [].
Proof.
  intros H. unfold trim.
  assert (trim_start s = []) as ->; [|reflexivity].
  induction H as [|c s Hc Hs IH]; [reflexivity|]. cbn. rewrite Hc. exact IH.
Qed.

Lemma split_on_blank sep s : blank s -> Forall blank (split_on sep s).
Proof.
  intros H. induction H as [|c s Hc Hs IH]; cbn.
  - repeat constructor.
  - destruct (c =? sep).
    + constructor; [constructor | exact IH].
    + destruct (split_on sep s) as [|cur more]; [repeat constructor; exact Hc|].
      inversion IH; subst. constructor; [constructor; assumption | assumption].
Qed.

Lemma join_blank parts : Forall blank parts -> blank (join [10] parts).
Proof.
  intros H. induction H as [|p parts Hp Hps IH]; [constructor|].
  cbn [join]. destruct parts as [|q parts']; [exact Hp|].
  apply Forall_app. split; [exact Hp|].
  apply Forall_app. split; [repeat constructor | exact IH].
Qed.

Lemma blank_lines_vanish pieces :
  Forall blank pieces -> filter (fun l : str => l <> []) (map trim pieces) = [].
Proof.
  intros H. induction H as [|p pieces Hp Hps IH]; [reflexivity|].
  cbn [map]. rewrite (trim_blank _ Hp), filter_cons.
  rewrite decide_False by tauto. exact IH.
Qed.

(** X17. A reply whose text and embeds consist of white space only is
    parsed to no platform and no note; [raw] is still the joined input. *)
Theorem blank_reply_parses_to_nothing (r : reply) :
  blank (text r) ->
  Forall blank (embeds r) ->
  parseBotResponse r = Parsed [] None (join [10] (text r :: embeds r)).
Proof.
  intros Ht He. unfold parseBotResponse. cbn zeta.
  rewrite blank_lines_vanish; [reflexivity|].
  apply split_on_blank, join_blank. constructor; assumption.
Qed.

Lemma blank_reply_parses_to_nothing_witness :
  parseBotResponse (Reply [32; 10; 9] [[]; [32]])
  = Parsed [] None [32; 10; 9; 10; 10; 32].
Proof.
  apply (blank_reply_parses_to_nothing (Reply [32; 10; 9] [[]; [32]])).
  - repeat constructor.
  - repeat constructor.
Defined.

End ParserMore.

(** ** The attempt loop of the legacy streaming endpoint *)

Section StreamMore.
Import Js LegacyStream StreamTrace.

Lemma sent_names_snoc evs e :
  sent_names (evs ++ [e])
  = sent_names evs ++ match e with
                      | Legacy.EvPlatform p => [Parser.name p]
                      | Legacy.EvNote _ => []
                      end.
Proof. unfold sent_names. rewrite omap_app. destruct e; reflexivity. Qed.

Lemma extends_note sp u b n :
  extends sp u ->
  extends sp (Legacy.UState (Legacy.sentPlatforms u) b
                            (Legacy.sent u ++ [Legacy.EvNote n])).
Proof.
  intros (H1 & H2 & H3 & H4). unfold extends. cbn [Legacy.sent Legacy.sentPlatforms].
  rewrite sent_names_snoc, app_nil_r. repeat split; auto.
  apply Forall_app. split; [exact H4 | repeat constructor].
Qed.

Lemma extends_flag sp u b :
  extends sp u ->
  extends sp (Legacy.UState (Legacy.sentPlatforms u) b (Legacy.sent u)).
Proof. intros H. exact H. Qed.

Lemma extends_emit sp u p : extends sp u -> extends sp (Legacy.emit_platform u p).
Proof.
  intros (H1 & H2 & H3 & H4). unfold Legacy.emit_platform.
  case_bool_decide as Hl; [repeat split; assumption|].
  case_bool_decide as Hs; [repeat split; assumption|].
  unfold extends. cbn [Legacy.sent Legacy.sentPlatforms].
  rewrite sent_names_snoc. rewrite H3 in Hs.
  assert ((Parser.name p ∉ sp) /\ (Parser.name p ∉ sent_names (Legacy.sent u)))
    as [Hsp Hn].
  { split; intros Hin; apply Hs.
    - apply elem_of_union_l, Hin.
    - apply elem_of_union_r, elem_of_list_to_set, Hin. }
  split; [|split; [|split]].
  - apply NoDup_app. split; [exact H1|]. split; [|apply NoDup_singleton].
    intros x Hx Hx'. apply list_elem_of_singleton in Hx'. subst. auto.
  - intros n Hin. apply elem_of_app in Hin as [Hin|Hin]; [auto|].
    apply list_elem_of_singleton in Hin. subst. exact Hsp.
  - apply set_eq. intros x. rewrite H3.
    rewrite !elem_of_union, !elem_of_list_to_set, elem_of_app,
      elem_of_singleton, list_elem_of_singleton. tauto.
  - apply Forall_app. split; [exact H4|]. constructor; [exact Hl | constructor].
Qed.

Lemma extends_emit_all sp ps :
  forall u, extends sp u -> extends sp (fold_left Legacy.emit_platform ps u).
Proof.
  induction ps as [|p ps IH]; intros u H; [exact H|].
  cbn [fold_left]. apply IH, extends_emit, H.
Qed.

Lemma extends_onUpdate sp u r :
  extends sp u -> extends sp (fst (Legacy.onUpdate u r)).
Proof.
  intros H. unfold Legacy.onUpdate. cbn zeta. cbn [fst].
  pose proof (extends_emit_all sp
                (Parser.platforms (Parser.parseBotResponse r)) u H) as H'.
  destruct (Parser.note (Parser.parseBotResponse r)) as [[|c n]|];
    [exact H' | | exact H'].
  apply extends_note, H'.
Qed.

Lemma extends_partials sp rs :
  forall u, extends sp u ->
            extends sp (fold_left (fun u r => fst (Legacy.onUpdate u r)) rs u).
Proof.
  induction rs as [|r rs IH]; intros u H; [exact H|].
  cbn [fold_left]. apply IH, extends_onUpdate, H.
Qed.

Lemma extends_final sp u r : extends sp u -> extends sp (final_events u r).
Proof.
  intros H. unfold final_events. cbn zeta.
  pose proof (extends_emit_all sp
                (Parser.platforms (Parser.parseBotResponse r)) u H) as H'.
  destruct (Parser.note (Parser.parseBotResponse r)) as [[|c n]|];
    [exact H' | | exact H'].
  apply extends_note, H'.
Qed.

Lemma extends_start sp b : extends sp (Legacy.UState sp b []).
Proof.
  unfold extends. cbn. repeat split; try constructor.
  - intros n Hn. inversion Hn.
  - rewrite union_empty_r_L. reflexivity.
Qed.

Lemma names_app a b : platform_names (a ++ b) = platform_names a ++ platform_names b.
Proof. apply omap_app. Qed.

Lemma names_queued ps : platform_names (queued_events ps) = [].
Proof.
  unfold queued_events. induction ps as [|[c n] ps IH]; [reflexivity|].
  cbn. destruct c; exact IH.
Qed.

Lemma names_updates evs : platform_names (Update <$> evs) = sent_names evs.
Proof.
  induction evs as [|e evs IH]; [reflexivity|].
  rewrite fmap_cons. unfold platform_names, sent_names in *. cbn.
  destruct e; cbn; rewrite IH; reflexivity.
Qed.

(** What one turn adds: names not sent before, each once. *)
Lemma attempt_body_names index a sp :
  NoDup (platform_names (fst (fst (attempt_body index a sp))))
  /\ (forall n, n ∈ platform_names (fst (fst (attempt_body index a sp))) ->
                n ∉ sp)
  /\ snd (fst (attempt_body index a sp))
     = sp ∪ list_to_set (platform_names (fst (fst (attempt_body index a sp)))).
Proof.
  unfold attempt_body.
  assert (forall l, platform_names l = [] ->
            NoDup (platform_names l)
            /\ (forall n, n ∈ platform_names l -> n ∉ sp)
            /\ sp = sp ∪ list_to_set (platform_names l)) as Hnone.
  { intros l ->. split; [constructor|]. split; [intros n Hn; inversion Hn|].
    cbn. rewrite union_empty_r_L. reflexivity. }
  destruct (granted a) as [slot chk ident|]; cbn [fst snd].
  2:{ apply Hnone. rewrite names_app, names_queued. reflexivity. }
  destruct (closed_after_acquire a); cbn [fst snd].
  { apply Hnone. rewrite names_app, names_queued. reflexivity. }
  set (u := fold_left _ (partials a) _).
  assert (extends sp u) as Hu by apply extends_partials, extends_start.
  destruct (ended a) as [finalReply|message]; cbn [fst snd].
  - set (u' := final_events _ finalReply).
    assert (extends (Legacy.sentPlatforms u) u') as Hu'.
    { apply extends_final, extends_start. }
    rewrite !names_app, names_queued, !names_updates. cbn [app].
    change (platform_names [Call (Pool.Release slot);
                            Call (Pool.RecordSuccess ident)]) with (@nil str).
    cbn [app].
    destruct Hu as (A1 & A2 & A3 & _), Hu' as (B1 & B2 & B3 & _).
    split; [|split].
    + apply NoDup_app. split; [exact A1|]. split; [|exact B1].
      intros x Hx Hx'. apply (B2 x Hx'). rewrite A3.
      apply elem_of_union_r, elem_of_list_to_set, Hx.
    + intros n Hn. apply elem_of_app in Hn as [Hn|Hn]; [auto|].
      intros Hsp. apply (B2 n Hn). rewrite A3. apply elem_of_union_l, Hsp.
    + apply set_eq. intros x. rewrite B3, A3.
      rewrite !elem_of_union, !elem_of_list_to_set, elem_of_app. tauto.
  - rewrite !names_app, names_queued, !names_updates. cbn [app].
    change (platform_names [Call (Pool.Release slot);
                            Call (Pool.RecordFailure ident)]) with (@nil str).
    rewrite app_nil_r. destruct Hu as (A1 & A2 & A3 & _). auto.
Qed.


Lemma attempt_body_settled index a sp p :
  Update (Legacy.EvPlatform p) ∈ fst (fst (attempt_body index a sp)) ->
  Parser.pstatus p <> Parser.Loading.
Proof.
  unfold attempt_body.
  assert (forall ps, Update (Legacy.EvPlatform p) ∉ queued_events ps) as Hq.
  { intros ps Hin. unfold queued_events in Hin.
    apply list_elem_of_omap in Hin as ([c n] & _ & Hin).
    cbn in Hin. destruct c; discriminate. }
  assert (forall sp0 u, extends sp0 u ->
            Update (Legacy.EvPlatform p) ∈ Update <$> Legacy.sent u ->
            Parser.pstatus p <> Parser.Loading) as Hu.
  { intros sp0 u (_ & _ & _ & H) Hin.
    apply list_elem_of_fmap in Hin as (e & He & Hin). injection He as <-.
    rewrite Forall_forall in H. exact (H _ Hin). }
  destruct (granted a) as [slot chk ident|]; cbn [fst snd].
  2:{ intros Hin. apply elem_of_app in Hin as [Hin|Hin]; [destruct (Hq _ Hin)|].
      repeat (apply elem_of_cons in Hin as [Hin|Hin]; [discriminate|]).
      inversion Hin. }
  destruct (closed_after_acquire a); cbn [fst snd].
  { intros Hin. apply elem_of_app in Hin as [Hin|Hin]; [destruct (Hq _ Hin)|].
    repeat (apply elem_of_cons in Hin as [Hin|Hin]; [discriminate|]).
    inversion Hin. }
  set (u := fold_left _ (partials a) _).
  assert (extends sp u) as Hext by apply extends_partials, extends_start.
  destruct (ended a) as [finalReply|message]; cbn [fst snd]; intros Hin.
  - apply elem_of_app in Hin as [Hin|Hin]; [destruct (Hq _ Hin)|].
    apply elem_of_app in Hin as [Hin|Hin]; [exact (Hu _ _ Hext Hin)|].
    apply elem_of_cons in Hin as [Hin|Hin]; [discriminate|].
    apply elem_of_cons in Hin as [Hin|Hin]; [discriminate|].
    refine (Hu (Legacy.sentPlatforms u) _ _ Hin).
    apply extends_final, extends_start.
  - apply elem_of_app in Hin as [Hin|Hin]; [destruct (Hq _ Hin)|].
    apply elem_of_app in Hin as [Hin|Hin]; [exact (Hu _ _ Hext Hin)|].
    repeat (apply elem_of_cons in Hin as [Hin|Hin]; [discriminate|]).
    inversion Hin.
Qed.

Lemma attempt_body_no_done index a sp url k :
  Done url k ∉ fst (fst (attempt_body index a sp)).
Proof.
  unfold attempt_body.
  assert (forall ps, Done url k ∉ queued_events ps) as Hq.
  { intros ps Hin. unfold queued_events in Hin.
    apply list_elem_of_omap in Hin as ([c n] & _ & Hin).
    cbn in Hin. destruct c; discriminate. }
  assert (forall evs : list Legacy.sse, Done url k ∉ Update <$> evs) as Hu.
  { intros evs Hin. apply list_elem_of_fmap in Hin as (e & He & _).
    discriminate. }
  destruct (granted a) as [slot chk ident|]; cbn [fst snd].
  2:{ intros Hin. apply elem_of_app in Hin as [Hin|Hin]; [destruct (Hq _ Hin)|].
      repeat (apply elem_of_cons in Hin as [Hin|Hin]; [discriminate|]).
      inversion Hin. }
  destruct (closed_after_acquire a); cbn [fst snd].
  { intros Hin. apply elem_of_app in Hin as [Hin|Hin]; [destruct (Hq _ Hin)|].
    repeat (apply elem_of_cons in Hin as [Hin|Hin]; [discriminate|]).
    inversion Hin. }
  destruct (ended a) as [finalReply|message]; cbn [fst snd]; intros Hin.
  - apply elem_of_app in Hin as [Hin|Hin]; [destruct (Hq _ Hin)|].
    apply elem_of_app in Hin as [Hin|Hin]; [destruct (Hu _ Hin)|].
    apply elem_of_cons in Hin as [Hin|Hin]; [discriminate|].
    apply elem_of_cons in Hin as [Hin|Hin]; [discriminate|].
    destruct (Hu _ Hin).
  - apply elem_of_app in Hin as [Hin|Hin]; [destruct (Hq _ Hin)|].
    apply elem_of_app in Hin as [Hin|Hin]; [destruct (Hu _ Hin)|].
    repeat (apply elem_of_cons in Hin as [Hin|Hin]; [discriminate|]).
    inversion Hin.
Qed.

Lemma size_with_new (sp : gset str) (l : list str) :
  NoDup l -> (forall n, n ∈ l -> n ∉ sp) ->
  size (sp ∪ list_to_set l) = (size sp + length l)%nat.
Proof.
  intros Hnd Hnew. rewrite size_union.
  - rewrite size_list_to_set by exact Hnd. reflexivity.
  - intros x Hx Hx'. apply elem_of_list_to_set in Hx'. exact (Hnew x Hx' Hx).
Qed.

Lemma conclude_names url b sp e : platform_names (conclude url b sp e) = [].
Proof. destruct b; reflexivity. Qed.

Lemma attempts_names url inputs :
  forall index closed sp lastError,
    NoDup (platform_names (attempts url index inputs closed sp lastError))
    /\ (forall n,
          n ∈ platform_names (attempts url index inputs closed sp lastError) ->
          n ∉ sp)
    /\ (forall p,
          Update (Legacy.EvPlatform p)
            ∈ attempts url index inputs closed sp lastError ->
          Parser.pstatus p <> Parser.Loading)
    /\ (forall u k,
          Done u k ∈ attempts url index inputs closed sp lastError ->
          u = url
          /\ k = (size sp
                  + length (platform_names
                              (attempts url index inputs closed sp lastError)))%nat).
Proof.
  assert (forall sp e,
    NoDup (platform_names (conclude url false sp e))
    /\ (forall n, n ∈ platform_names (conclude url false sp e) -> n ∉ sp)
    /\ (forall p, Update (Legacy.EvPlatform p) ∈ conclude url false sp e ->
                  Parser.pstatus p <> Parser.Loading)
    /\ (forall u k, Done u k ∈ conclude url false sp e ->
          u = url
          /\ k = (size sp
                  + length (platform_names (conclude url false sp e)))%nat))
    as Hfail.
  { intros sp e. cbn. split; [constructor|].
    split; [intros n Hn; inversion Hn|].
    split; intros; repeat
      match goal with
      | H : _ ∈ _ :: _ |- _ => apply elem_of_cons in H as [H|H]; [discriminate|]
      | H : _ ∈ [] |- _ => inversion H
      end. }
  induction inputs as [|a more IH]; intros index closed sp lastError;
    cbn [attempts].
  { destruct ((index <? MAX_ATTEMPTS)%nat && negb closed); [|apply Hfail].
    cbn. split; [constructor|]. split; [intros n Hn; inversion Hn|].
    split; intros; match goal with H : _ ∈ [] |- _ => inversion H end. }
  destruct ((index <? MAX_ATTEMPTS)%nat && negb closed); [|apply Hfail].
  pose proof (attempt_body_names index a sp) as (N1 & N2 & N3).
  pose proof (attempt_body_settled index a sp) as N4.
  pose proof (attempt_body_no_done index a sp) as N5.
  destruct (attempt_body index a sp) as [[acts sp'] v]. cbn [fst snd] in *.
  destruct v as [| |err].
  - split; [exact N1|]. split; [exact N2|]. split; [exact N4|].
    intros u k Hin. destruct (N5 _ _ Hin).
  - rewrite names_app, conclude_names, app_nil_r.
    split; [exact N1|]. split; [exact N2|]. split.
    + intros p Hin. apply elem_of_app in Hin as [Hin|Hin]; [exact (N4 p Hin)|].
      cbn in Hin.
      repeat (apply elem_of_cons in Hin as [Hin|Hin]; [discriminate|]).
      inversion Hin.
    + intros u k Hin. apply elem_of_app in Hin as [Hin|Hin];
        [destruct (N5 _ _ Hin)|].
      cbn in Hin. apply elem_of_cons in Hin as [Hin|Hin].
      * injection Hin as -> ->. split; [reflexivity|].
        rewrite N3. apply size_with_new; assumption.
      * apply elem_of_cons in Hin as [Hin|Hin]; [discriminate|]. inversion Hin.
  - set (e := match err with Some m => Some m | None => lastError end).
    destruct (IH (S index) (closed_at_next_turn a) sp' e) as (R1 & R2 & R3 & R4).
    rewrite names_app.
    assert (forall n,
      n ∈ platform_names
            (attempts url (S index) more (closed_at_next_turn a) sp' e) ->
      (n ∉ sp) /\ (n ∉ platform_names acts)) as Hlater.
    { intros n Hn. pose proof (R2 n Hn) as Hsp'. rewrite N3 in Hsp'.
      split; intros Hin; apply Hsp'.
      - apply elem_of_union_l, Hin.
      - apply elem_of_union_r, elem_of_list_to_set, Hin. }
    split; [|split; [|split]].
    + apply NoDup_app. split; [exact N1|]. split; [|exact R1].
      intros x Hx Hx'. exact (proj2 (Hlater x Hx') Hx).
    + intros n Hn. apply elem_of_app in Hn as [Hn|Hn]; [auto|].
      exact (proj1 (Hlater n Hn)).
    + intros p Hin. apply elem_of_app in Hin as [Hin|Hin]; [exact (N4 p Hin)|].
      exact (R3 p Hin).
    + intros u k Hin. apply elem_of_app in Hin as [Hin|Hin];
        [destruct (N5 _ _ Hin)|].
      destruct (R4 u k Hin) as [-> ->]. split; [reflexivity|].
      rewrite N3, size_with_new by assumption.
      rewrite length_app. lia.
Qed.

(** X18. Over a whole request of the legacy streaming endpoint, retries
    included, no platform name is sent twice and no platform is sent while
    it is loading; and when the request ends with [done], its [count] is
    the number of platform events that were sent and its [url] the
    parameter as given. *)
Theorem stream_sends_each_platform_once (url : Url.value)
  (inputs : list attempt) :
  NoDup (platform_names (handler url inputs))
  /\ (forall p, Update (Legacy.EvPlatform p) ∈ handler url inputs ->
                Parser.pstatus p <> Parser.Loading)
  /\ (forall u k, Done u k ∈ handler url inputs ->
        u = url /\ k = length (platform_names (handler url inputs))).
Proof.
  unfold handler.
  destruct (attempts_names url inputs 0 false ∅ None) as (H1 & _ & H3 & H4).
  split; [exact H1|]. split; [exact H3|].
  intros u k Hin. destruct (H4 u k Hin) as [-> ->].
  rewrite size_empty. split; reflexivity.
Qed.


Lemma open_queued ps : Forall (fun a => closing a = false) (queued_events ps).
Proof.
  apply Forall_forall. intros x Hin. unfold queued_events in Hin.
  apply list_elem_of_omap in Hin as ([c n] & _ & Hin).
  cbn in Hin. destruct c; [discriminate|]. injection Hin as <-. reflexivity.
Qed.

Lemma open_updates (evs : list Legacy.sse) :
  Forall (fun a => closing a = false) (Update <$> evs).
Proof.
  apply Forall_forall. intros x Hin.
  apply list_elem_of_fmap in Hin as (e & -> & _). reflexivity.
Qed.

Lemma attempt_body_shape index a sp :
  match snd (attempt_body index a sp) with
  | Returned =>
      answered (fst (fst (attempt_body index a sp)))
      \/ exists slot,
           fst (fst (attempt_body index a sp))
           = queued_events (positions a) ++ [Call (Pool.Release slot)]
           /\ left_while_queued a slot
  | _ => Forall (fun a => closing a = false) (fst (fst (attempt_body index a sp)))
  end.
Proof.
  unfold attempt_body, left_while_queued.
  destruct (granted a) as [slot chk ident|]; cbn [fst snd].
  2:{ left. exists (queued_events (positions a)), (Failed reinitializing).
      split; [reflexivity|]. split; [reflexivity | apply open_queued]. }
  destruct (closed_after_acquire a); cbn [fst snd].
  { right. exists slot. split; [reflexivity|]. exists chk, ident. auto. }
  destruct (ended a) as [finalReply|message]; cbn [fst snd].
  - assert (Forall (fun a => closing a = false)
              (queued_events (positions a)
               ++ (Update <$> Legacy.sent
                     (fold_left (fun u r => fst (Legacy.onUpdate u r))
                                (partials a) (Legacy.UState sp false [])))
               ++ [Call (Pool.Release slot); Call (Pool.RecordSuccess ident)]
               ++ (Update <$> Legacy.sent
                     (final_events
                        (Legacy.UState
                           (Legacy.sentPlatforms
                              (fold_left (fun u r => fst (Legacy.onUpdate u r))
                                 (partials a) (Legacy.UState sp false [])))
                           (Legacy.sawNote
                              (fold_left (fun u r => fst (Legacy.onUpdate u r))
                                 (partials a) (Legacy.UState sp false [])))
                           []) finalReply)))) as Hopen.
    { repeat (apply Forall_app; split);
        auto using open_queued, open_updates. }
    destruct (0 <? size _)%nat; [exact Hopen|].
    destruct (index <? MAX_ATTEMPTS - 1)%nat; exact Hopen.
  - repeat (apply Forall_app; split); auto using open_queued, open_updates.
Qed.

(** The loop from turn [index] on either answers, or gives back the slot
    of an attempt whose client had left while it was queued. *)
Lemma attempts_shape url inputs :
  forall index closed sp lastError,
    (MAX_ATTEMPTS - index <= length inputs)%nat ->
    answered (attempts url index inputs closed sp lastError)
    \/ exists pre slot a,
         attempts url index inputs closed sp lastError
         = pre ++ [Call (Pool.Release slot)]
         /\ Forall (fun a => closing a = false) pre
         /\ a ∈ take (MAX_ATTEMPTS - index) inputs
         /\ left_while_queued a slot.
Proof.
  assert (forall b sp e, exists t,
            conclude url b sp e = [t; EndResponse] /\ terminal t = true) as Hc.
  { intros [|] sp e; eexists; split; reflexivity. }
  induction inputs as [|a more IH]; intros index closed sp lastError Hlen;
    cbn [attempts].
  { destruct (index <? MAX_ATTEMPTS)%nat eqn:Hi.
    - apply Nat.ltb_lt in Hi. unfold MAX_ATTEMPTS in *. cbn [length] in Hlen. lia.
    - cbn [andb]. left. destruct (Hc false sp lastError) as (t & -> & Ht).
      exists [], t. repeat split; [exact Ht | constructor]. }
  destruct (index <? MAX_ATTEMPTS)%nat eqn:Hi; cbn [andb].
  2:{ left. destruct (Hc false sp lastError) as (t & -> & Ht).
      exists [], t. repeat split; [exact Ht | constructor]. }
  apply Nat.ltb_lt in Hi.
  assert (MAX_ATTEMPTS - index = S (MAX_ATTEMPTS - S index))%nat as Hstep by lia.
  destruct (negb closed).
  2:{ left. destruct (Hc false sp lastError) as (t & -> & Ht).
      exists [], t. repeat split; [exact Ht | constructor]. }
  pose proof (attempt_body_shape index a sp) as Hb.
  destruct (attempt_body index a sp) as [[acts sp'] v]. cbn [fst snd] in Hb.
  destruct v as [| |err].
  - destruct Hb as [Hb|(slot & -> & Hleft)]; [left; exact Hb|].
    right. exists (queued_events (positions a)), slot, a.
    split; [reflexivity|]. split; [apply open_queued|].
    split; [rewrite Hstep; left | exact Hleft].
  - left. destruct (Hc true sp' lastError) as (t & -> & Ht).
    exists acts, t. repeat split; assumption.
  - set (e := match err with Some m => Some m | None => lastError end).
    assert (MAX_ATTEMPTS - S index <= length more)%nat as Hlen'
        by (cbn [length] in Hlen; lia).
    destruct (IH (S index) (closed_at_next_turn a) sp' e Hlen')
      as [(pre & t & -> & Ht & Hpre)
         | (pre & slot & a' & -> & Hpre & Hin & Hleft)].
    + left. exists (acts ++ pre), t. rewrite <- app_assoc.
      repeat split; [exact Ht|]. apply Forall_app. split; assumption.
    + right. exists (acts ++ pre), slot, a'. rewrite <- app_assoc.
      split; [reflexivity|]. split; [apply Forall_app; split; assumption|].
      split; [rewrite Hstep; right; exact Hin | exact Hleft].
Qed.

Lemma answered_not_abandoned acts : answered acts -> ~ abandoned acts.
Proof.
  intros (pre & t & -> & _) (pre' & slot & E & _).
  change (pre ++ [t; EndResponse]) with (pre ++ [t] ++ [EndResponse]) in E.
  rewrite app_assoc in E. apply app_inj_tail in E as [_ E]. discriminate.
Qed.

(** X19. A streaming request, followed through both of its attempts, is
    answered once: the handler writes exactly one [done] or [error] event
    and ends the response directly after it.  The one exception is a
    request whose client left while it was queued: when the pool grants
    such an attempt its slot, the handler gives the slot back as its last
    action and returns without writing an answer, and that is the only way
    for a request to end without one.  In particular a first attempt
    whose client left while it waited does nothing but report the queue
    positions and release. *)
Theorem stream_is_answered_once (url : Url.value) (inputs : list attempt) :
  (MAX_ATTEMPTS <= length inputs)%nat ->
  (answered (handler url inputs) \/ abandoned (handler url inputs))
  /\ (answered (handler url inputs) -> ~ abandoned (handler url inputs))
  /\ (abandoned (handler url inputs) ->
      exists a slot,
        a ∈ take MAX_ATTEMPTS inputs
        /\ left_while_queued a slot
        /\ last (handler url inputs) = Some (Call (Pool.Release slot)))
  /\ ((forall a slot, a ∈ take MAX_ATTEMPTS inputs ->
                      ~ left_while_queued a slot) ->
      answered (handler url inputs))
  /\ (forall a slot,
        head inputs = Some a -> left_while_queued a slot ->
        handler url inputs
        = queued_events (positions a) ++ [Call (Pool.Release slot)]).
Proof.
  intros Hlen.
  assert (answered (handler url inputs)
          \/ exists pre slot a,
               handler url inputs = pre ++ [Call (Pool.Release slot)]
               /\ Forall (fun a => closing a = false) pre
               /\ a ∈ take MAX_ATTEMPTS inputs
               /\ left_while_queued a slot) as Hshape.
  { pose proof (attempts_shape url inputs 0 false ∅ None) as H.
    rewrite Nat.sub_0_r in H. apply H, Hlen. }
  split; [|split; [|split; [|split]]].
  - destruct Hshape as [H|(pre & slot & a & E & Hpre & _)]; [left; exact H|].
    right. exists pre, slot. split; assumption.
  - apply answered_not_abandoned.
  - intros Hab.
    destruct Hshape as [H|(pre & slot & a & E & Hpre & Hin & Hleft)].
    + destruct (answered_not_abandoned _ H Hab).
    + exists a, slot. split; [exact Hin|]. split; [exact Hleft|].
      rewrite E. apply last_snoc.
  - intros Hnone.
    destruct Hshape as [H|(pre & slot & a & _ & _ & Hin & Hleft)];
      [exact H|].
    destruct (Hnone a slot Hin Hleft).
  - intros a slot Hhead (chk & ident & Hg & Hc).
    destruct inputs as [|a0 more]; [discriminate|].
    injection Hhead as ->. unfold handler. cbn [attempts].
    change ((0 <? MAX_ATTEMPTS)%nat && negb false) with true. cbn iota.
    unfold attempt_body. rewrite Hg, Hc. reflexivity.
Qed.

Lemma stream_is_answered_once_witness :
  answered (handler (Url.VStr (lit "example.com"))
              [quiet_attempt 0 0 [] Scenario.fortiguard_reply;
               quiet_attempt 1 1 [] Scenario.fortiguard_reply]).
Proof.
  destruct (stream_is_answered_once
              (Url.VStr (lit "example.com"))
              [quiet_attempt 0 0 [] Scenario.fortiguard_reply;
               quiet_attempt 1 1 [] Scenario.fortiguard_reply])
    as (_ & _ & _ & H & _).
  { vm_compute. lia. }
  apply H. intros a slot Hin (chk & ident & _ & Hc).
  cbn [take MAX_ATTEMPTS] in Hin.
  apply elem_of_cons in Hin as [->|Hin]; [discriminate|].
  apply elem_of_cons in Hin as [->|Hin]; [discriminate|].
  inversion Hin.
Defined.

Lemma calls_app a b : pool_calls (a ++ b) = pool_calls a ++ pool_calls b.
Proof. apply omap_app. Qed.

Lemma calls_queued ps : pool_calls (queued_events ps) = [].
Proof.
  unfold queued_events. induction ps as [|[c n] ps IH]; [reflexivity|].
  cbn. destruct c; exact IH.
Qed.

Lemma calls_updates (evs : list Legacy.sse) : pool_calls (Update <$> evs) = [].
Proof. induction evs as [|e evs IH]; [reflexivity | exact IH]. Qed.

Lemma calls_conclude url b sp e : pool_calls (conclude url b sp e) = [].
Proof. destruct b; reflexivity. Qed.

Lemma attempt_body_calls index a sp :
  pool_calls (fst (fst (attempt_body index a sp))) = []
  \/ accounted (pool_calls (fst (fst (attempt_body index a sp)))).
Proof.
  unfold attempt_body.
  destruct (granted a) as [slot chk ident|]; cbn [fst snd].
  2:{ left. rewrite calls_app, calls_queued. reflexivity. }
  destruct (closed_after_acquire a); cbn [fst snd].
  { right. rewrite calls_app, calls_queued. exists slot, 0%nat. left.
    reflexivity. }
  destruct (ended a) as [finalReply|message]; cbn [fst snd]; right;
    rewrite !calls_app, calls_queued, !calls_updates; cbn;
    exists slot, ident; auto.
Qed.

Lemma attempts_calls url inputs :
  forall index closed sp lastError,
  exists blocks,
    pool_calls (attempts url index inputs closed sp lastError) = concat blocks
    /\ (length blocks <= MAX_ATTEMPTS - index)%nat
    /\ Forall accounted blocks.
Proof.
  induction inputs as [|a more IH]; intros index closed sp lastError;
    cbn [attempts].
  { exists []. destruct ((index <? MAX_ATTEMPTS)%nat && negb closed);
      repeat split; cbn; try lia; constructor. }
  destruct (index <? MAX_ATTEMPTS)%nat eqn:Hi; cbn [andb].
  2:{ exists []. repeat split; cbn; try lia; constructor. }
  apply Nat.ltb_lt in Hi. unfold MAX_ATTEMPTS in *.
  destruct (negb closed).
  2:{ exists []. repeat split; cbn; try lia; constructor. }
  pose proof (attempt_body_calls index a sp) as Hb.
  destruct (attempt_body index a sp) as [[acts sp'] v]. cbn [fst snd] in Hb.
  assert (exists blocks, pool_calls acts = concat blocks
                         /\ (length blocks <= 1)%nat
                         /\ Forall accounted blocks) as (b0 & E0 & L0 & F0).
  { destruct Hb as [Hb|Hb].
    - exists []. rewrite Hb. repeat split; cbn; try lia; constructor.
    - exists [pool_calls acts]. cbn. rewrite app_nil_r.
      repeat split; [lia | repeat constructor; exact Hb]. }
  destruct v as [| |err].
  - exists b0. repeat split; [exact E0 | lia | exact F0].
  - exists b0. rewrite calls_app, calls_conclude, app_nil_r.
    repeat split; [exact E0 | lia | exact F0].
  - set (e := match err with Some m => Some m | None => lastError end).
    destruct (IH (S index) (closed_at_next_turn a) sp' e) as (b1 & E1 & L1 & F1).
    exists (b0 ++ b1). rewrite calls_app, concat_app, E0, E1.
    repeat split; [rewrite length_app; lia | apply Forall_app; split; assumption].
Qed.

(** X20. The pool calls of a streaming request fall into at most two
    groups, each of them one release followed by nothing, by one
    [recordSuccess] or by one [recordFailure]: an outcome is recorded only
    directly after a release, and there are at most two releases. *)
Theorem stream_releases_before_it_records (url : Url.value)
  (inputs : list attempt) :
  exists blocks,
    pool_calls (handler url inputs) = concat blocks
    /\ (length blocks <= MAX_ATTEMPTS)%nat
    /\ Forall accounted blocks.
Proof.
  destruct (attempts_calls url inputs 0 false ∅ None) as (b & E & L & F).
  exists b. rewrite Nat.sub_0_r in L. repeat split; assumption.
Qed.


Lemma emit_loading u ps :
  Forall (fun p => Parser.pstatus p = Parser.Loading) ps ->
  fold_left Legacy.emit_platform ps u = u.
Proof.
  induction 1 as [|p ps Hp _ IH]; [reflexivity|].
  cbn [fold_left]. unfold Legacy.emit_platform at 2.
  rewrite bool_decide_eq_true_2 by exact Hp. exact IH.
Qed.

Lemma onUpdate_unsettled u r :
  unsettled r ->
  Legacy.sentPlatforms (fst (Legacy.onUpdate u r)) = Legacy.sentPlatforms u
  /\ (sent_names (Legacy.sent u) = [] ->
      sent_names (Legacy.sent (fst (Legacy.onUpdate u r))) = []).
Proof.
  intros Hr. unfold Legacy.onUpdate. cbn zeta. cbn [fst].
  rewrite (emit_loading u _ Hr).
  destruct (Parser.note (Parser.parseBotResponse r)) as [[|c n]|]; auto.
  cbn [Legacy.sentPlatforms Legacy.sent]. split; [reflexivity|].
  intros H. rewrite sent_names_snoc, H. reflexivity.
Qed.

Lemma partials_unsettled rs :
  Forall unsettled rs ->
  forall u,
    sent_names (Legacy.sent u) = [] ->
    Legacy.sentPlatforms
      (fold_left (fun u r => fst (Legacy.onUpdate u r)) rs u)
    = Legacy.sentPlatforms u
    /\ sent_names
         (Legacy.sent (fold_left (fun u r => fst (Legacy.onUpdate u r)) rs u))
       = [].
Proof.
  induction 1 as [|r rs Hr _ IH]; intros u Hu; [auto|].
  cbn [fold_left]. destruct (onUpdate_unsettled u r Hr) as [E1 E2].
  destruct (IH _ (E2 Hu)) as [F1 F2]. rewrite F1, F2, E1. auto.
Qed.

Lemma final_unsettled u r :
  unsettled r ->
  sent_names (Legacy.sent u) = [] ->
  Legacy.sentPlatforms (final_events u r) = Legacy.sentPlatforms u
  /\ sent_names (Legacy.sent (final_events u r)) = [].
Proof.
  intros Hr Hu. unfold final_events. cbn zeta. rewrite (emit_loading u _ Hr).
  destruct (Parser.note (Parser.parseBotResponse r)) as [[|c n]|]; auto.
  cbn [Legacy.sentPlatforms Legacy.sent]. split; [reflexivity|].
  rewrite sent_names_snoc, Hu. reflexivity.
Qed.

(** A turn that finds nothing settled: the slot is released, a success is
    recorded, and no platform is sent. *)
Lemma attempt_body_unsettled index slot ident seen final :
  Forall unsettled (final :: seen) ->
  exists acts,
    attempt_body index (quiet_attempt slot ident seen final) ∅
    = (acts, ∅, if (index <? MAX_ATTEMPTS - 1)%nat then Again None
                else Succeeded)
    /\ platform_names acts = []
    /\ pool_calls acts = [Pool.Release slot; Pool.RecordSuccess ident].
Proof.
  intros H. apply Forall_cons in H as [Hfinal Hseen].
  unfold attempt_body, quiet_attempt.
  cbn [granted closed_after_acquire partials ended positions].
  set (u := fold_left _ seen _).
  destruct (partials_unsettled seen Hseen (Legacy.UState ∅ false []) eq_refl)
    as [U1 U2]. fold u in U1, U2. cbn [Legacy.sentPlatforms] in U1.
  set (u' := final_events _ final).
  destruct (final_unsettled
              (Legacy.UState (Legacy.sentPlatforms u) (Legacy.sawNote u) [])
              final Hfinal eq_refl) as [V1 V2].
  fold u' in V1, V2. cbn [Legacy.sentPlatforms] in V1. rewrite U1 in V1.
  eexists. split; [|split].
  - rewrite V1, size_empty. cbn [Nat.ltb Nat.leb]. reflexivity.
  - rewrite !names_app, !names_updates, U2, V2. reflexivity.
  - rewrite !calls_app, !calls_updates. reflexivity.
Qed.

(** X21. When the first attempt is granted a slot and ends normally without
    one settled platform, the client still being there, the request is
    retried; when the second attempt does the same, the request ends with
    [done] and [count] 0, not with an error, no platform has been sent,
    and both sessions have been released and credited with a success. *)
Theorem empty_scan_is_retried_then_done (url : Url.value)
  (slot0 ident0 slot1 ident1 : nat) (seen0 seen1 : list Parser.reply)
  (final0 final1 : Parser.reply) (rest : list attempt) :
  Forall unsettled (final0 :: seen0) ->
  Forall unsettled (final1 :: seen1) ->
  exists pre,
    handler url (quiet_attempt slot0 ident0 seen0 final0
                 :: quiet_attempt slot1 ident1 seen1 final1 :: rest)
    = pre ++ [Done url 0; EndResponse]
    /\ platform_names pre = []
    /\ pool_calls pre = [Pool.Release slot0; Pool.RecordSuccess ident0;
                         Pool.Release slot1; Pool.RecordSuccess ident1].
Proof.
  intros H0 H1.
  destruct (attempt_body_unsettled 0 slot0 ident0 seen0 final0 H0)
    as (acts0 & E0 & N0 & C0).
  destruct (attempt_body_unsettled 1 slot1 ident1 seen1 final1 H1)
    as (acts1 & E1 & N1 & C1).
  exists (acts0 ++ acts1). unfold handler. cbn [attempts].
  change ((0 <? MAX_ATTEMPTS)%nat && negb false) with true. cbn iota.
  rewrite E0. cbn iota beta.
  change ((0 <? MAX_ATTEMPTS - 1)%nat) with true. cbn iota.
  change (closed_at_next_turn (quiet_attempt slot0 ident0 seen0 final0))
    with false.
  change ((1 <? MAX_ATTEMPTS)%nat && negb false) with true. cbn iota.
  rewrite E1. cbn iota beta.
  change ((1 <? MAX_ATTEMPTS - 1)%nat) with false. cbn iota.
  unfold conclude. rewrite size_empty, <- app_assoc.
  split; [reflexivity|].
  rewrite names_app, calls_app, N0, N1, C0, C1. split; reflexivity.
Qed.

Lemma empty_scan_is_retried_then_done_witness :
  exists pre,
    handler (Url.VStr (lit "example.com"))
      [quiet_attempt 0 0 [] (Parser.Reply [] []);
       quiet_attempt 1 1 [Parser.Reply [] []] (Parser.Reply [32] [])]
    = pre ++ [Done (Url.VStr (lit "example.com")) 0; EndResponse]
    /\ platform_names pre = []
    /\ pool_calls pre = [Pool.Release 0; Pool.RecordSuccess 0;
                         Pool.Release 1; Pool.RecordSuccess 1].
Proof.
  apply empty_scan_is_retried_then_done;
    repeat constructor; unfold unsettled; vm_compute; constructor.
Defined.

End StreamMore.

(** ** The two reply observers, whatever the page does *)

Section StreamCallFacts.
Import Js Observer Async.
Context {U : Type}.
Variable onUpdate : U -> Parser.reply -> U * cbresult.
Variable waitMs : Z.
Variable botId : str.

Lemma observe_found r (st : @lstate U) :
  foundBot (observe onUpdate r st) = true
  /\ lastText (observe onUpdate r st) = full r.
Proof.
  unfold observe. case_bool_decide as Hd.
  - destruct (onUpdate (user st) r) as [s' res]. split; reflexivity.
  - cbn. split; [reflexivity | symmetry; exact Hd].
Qed.

(** If the clock passes the deadline at some turn, the loop ends. *)
Lemma call_loop_finishes snap ts :
  forall st : @lstate U,
    (exists t, t ∈ ts /\ (waitMs <= StreamCall.clock t)%Z) ->
    StreamCall.loop onUpdate waitMs botId snap ts st <> StreamCall.Unfinished.
Proof.
  induction ts as [|t more IH]; intros st (q & Hq & Hd).
  { inversion Hq. }
  cbn [StreamCall.loop].
  destruct (StreamCall.clock t <? waitMs)%Z eqn:Ht; cbn [negb]; [|discriminate].
  apply Z.ltb_lt in Ht.
  assert (exists t', t' ∈ more /\ (waitMs <= StreamCall.clock t')%Z) as Hmore.
  { apply elem_of_cons in Hq as [->|Hq]; [lia|]. exists q. auto. }
  destruct (StreamCall.waited t); [|discriminate].
  destruct (StreamCall.flag t); [discriminate|].
  destruct (StreamCall.shown t) as [pg|e]; [|discriminate].
  destruct (readBot snap botId pg) as [[i r]|]; [|apply IH, Hmore].
  cbn zeta. destruct (_ && _); [discriminate | apply IH, Hmore].
Qed.

(** Where the result of the loop comes from. *)
Lemma call_loop_remembers snap ts :
  forall st : @lstate U,
    match StreamCall.loop onUpdate waitMs botId snap ts st with
    | StreamCall.Stable r =>
        exists t, t ∈ ts /\ StreamCall.reads botId snap t r
    | StreamCall.Left st' =>
        st' = st
        \/ (foundBot st' = true
            /\ exists t r, t ∈ ts /\ StreamCall.reads botId snap t r
                           /\ lastText st' = full r)
    | StreamCall.Broke e =>
        exists t, t ∈ ts /\ StreamCall.rejects waitMs t e
    | StreamCall.Unfinished => True
    end.
Proof.
  induction ts as [|t more IH]; intros st; cbn [StreamCall.loop]; [exact I|].
  destruct (StreamCall.clock t <? waitMs)%Z eqn:Ht; cbn [negb];
    [|left; reflexivity].
  apply Z.ltb_lt in Ht.
  destruct (StreamCall.waited t) as [u|e] eqn:Hw.
  2:{ exists t. split; [left|]. split; [exact Ht | left; exact Hw]. }
  destruct (StreamCall.flag t); [left; reflexivity|].
  destruct (StreamCall.shown t) as [pg|e] eqn:Hs.
  2:{ exists t. split; [left|]. split; [exact Ht | right; exact Hs]. }
  destruct (readBot snap botId pg) as [[i r]|] eqn:Hr.
  - cbn zeta. destruct (observe_found r st) as [F L].
    assert (StreamCall.reads botId snap t r) as Hreads
        by (exists pg, i; split; assumption).
    destruct (contentComplete (observe onUpdate r st)
              && (5 <=? unchangedCount (observe onUpdate r st))%nat).
    { exists t. split; [left | exact Hreads]. }
    specialize (IH (observe onUpdate r st)).
    destruct (StreamCall.loop onUpdate waitMs botId snap more
                (observe onUpdate r st)) as [r'|st'|e|]; [| | |exact I].
    + destruct IH as (q & Hq & Hq'). exists q. split; [right|]; assumption.
    + right. destruct IH as [->|(F' & q & r' & Hq & Hq' & Hl)].
      * split; [exact F|]. exists t, r. split; [left|]. split; assumption.
      * split; [exact F'|]. exists q, r'. split; [right; exact Hq|].
        split; assumption.
    + destruct IH as (q & Hq & Hq'). exists q. split; [right|]; assumption.
  - specialize (IH st).
    destruct (StreamCall.loop onUpdate waitMs botId snap more st)
      as [r'|st'|e|]; [| | |exact I].
    + destruct IH as (q & Hq & Hq'). exists q. split; [right|]; assumption.
    + destruct IH as [->|(F' & q & r' & Hq & Hq' & Hl)]; [left; reflexivity|].
      right. split; [exact F'|]. exists q, r'. split; [right; exact Hq|].
      split; assumption.
    + destruct IH as (q & Hq & Hq'). exists q. split; [right|]; assumption.
Qed.

Lemma call_loop_never_saw snap ts :
  forall st : @lstate U,
    foundBot st = false ->
    (exists st',
        StreamCall.loop onUpdate waitMs botId snap ts st = StreamCall.Left st'
        /\ foundBot st' = false)
    <-> (exists pre t rest,
            ts = pre ++ t :: rest
            /\ Forall (StreamCall.idle waitMs botId snap) pre
            /\ StreamCall.leaves waitMs t).
Proof.
  unfold StreamCall.idle, StreamCall.leaves, resolved.
  induction ts as [|t more IH]; intros st F.
  { split.
    - intros (st' & E & _). discriminate.
    - intros (pre & q & rest & E & _). destruct pre; discriminate. }
  cbn [StreamCall.loop].
  destruct (StreamCall.clock t <? waitMs)%Z eqn:Ht; cbn [negb].
  2:{ apply Z.ltb_ge in Ht. split.
      - intros _. exists [], t, more. split; [reflexivity|].
        split; [constructor | left; exact Ht].
      - intros _. exists st. split; [reflexivity | exact F]. }
  apply Z.ltb_lt in Ht.
  destruct (StreamCall.waited t) as [u|e] eqn:Hw.
  2:{ split; [intros (st' & E & _); discriminate|].
      intros (pre & q & rest & E & Hpre & Hq). destruct pre as [|q' pre].
      - injection E as <- <-. destruct Hq as [Hq|[(a & Ha) _]]; [lia|].
        congruence.
      - injection E as <- ->. apply Forall_cons in Hpre as [(_ & (a & Ha) & _) _].
        congruence. }
  destruct (StreamCall.flag t) eqn:Hf.
  { split.
    - intros _. exists [], t, more. split; [reflexivity|].
      split; [constructor | right; split; [exists u|]; auto].
    - intros _. exists st. split; [reflexivity | exact F]. }
  assert (forall pre q rest,
             t :: more = pre ++ q :: rest ->
             (waitMs <= StreamCall.clock q)%Z
             \/ (exists a, StreamCall.waited q = Resolved a)
                /\ StreamCall.flag q = true ->
             exists q' pre', pre = q' :: pre') as Hnonempty.
  { intros pre q rest E Hq. destruct pre as [|q' pre]; [|eauto].
    injection E as <- <-. destruct Hq as [Hq|[_ Hq]]; [lia | congruence]. }
  destruct (StreamCall.shown t) as [pg|e] eqn:Hs.
  2:{ split; [intros (st' & E & _); discriminate|].
      intros (pre & q & rest & E & Hpre & Hq).
      destruct (Hnonempty pre q rest E Hq) as (q' & pre' & ->).
      injection E as <- ->.
      apply Forall_cons in Hpre as [(_ & _ & _ & pg & Hpg & _) _].
      congruence. }
  destruct (readBot snap botId pg) as [[i r]|] eqn:Hr.
  - cbn zeta. destruct (observe_found r st) as [F1 _]. split.
    + intros (st' & E & F').
      destruct (contentComplete (observe onUpdate r st)
                && (5 <=? unchangedCount (observe onUpdate r st))%nat);
        [discriminate|].
      pose proof (call_loop_remembers snap more (observe onUpdate r st)) as H.
      rewrite E in H. destruct H as [->|[F'' _]]; congruence.
    + intros (pre & q & rest & E & Hpre & Hq).
      destruct (Hnonempty pre q rest E Hq) as (q' & pre' & ->).
      injection E as <- ->.
      apply Forall_cons in Hpre as [(_ & _ & _ & pg' & Hpg & Hnone) _].
      congruence.
  - rewrite (IH st F). split.
    + intros (pre & q & rest & -> & Hpre & Hq).
      exists (t :: pre), q, rest. split; [reflexivity|]. split; [|exact Hq].
      constructor; [|exact Hpre].
      split; [exact Ht|]. split; [exists u; exact Hw|].
      split; [exact Hf|]. exists pg. split; assumption.
    + intros (pre & q & rest & E & Hpre & Hq).
      destruct (Hnonempty pre q rest E Hq) as (q' & pre' & ->).
      injection E as <- ->. apply Forall_cons in Hpre as [_ Hpre].
      exists pre', q, rest. repeat split; assumption.
Qed.

(** With no rejected call, the loop is the loop of the readings. *)
Lemma call_loop_agrees snap ts :
  forall st : @lstate U,
    Forall StreamCall.answers ts ->
    StreamCall.loop onUpdate waitMs botId snap ts st
    = match Observer.loop onUpdate waitMs (StreamCall.polls_of botId snap ts) st
      with
      | Observer.Stable r _ => StreamCall.Stable r
      | Observer.Ended _ st' => StreamCall.Left st'
      | Observer.Running _ => StreamCall.Unfinished
      end.
Proof.
  induction ts as [|t more IH]; intros st Hall; [reflexivity|].
  apply Forall_cons in Hall as [[(u & Hw) (pg & Hs)] Hall].
  unfold StreamCall.polls_of. rewrite fmap_cons.
  fold (StreamCall.polls_of botId snap more).
  cbn [StreamCall.loop Observer.loop elapsed aborted current].
  rewrite Hw, Hs.
  destruct (negb (StreamCall.clock t <? waitMs)%Z); [reflexivity|].
  destruct (StreamCall.flag t); [reflexivity|].
  destruct (readBot snap botId pg) as [[i r]|]; cbn [fmap option_fmap option_map snd];
    [|apply IH, Hall].
  cbn zeta. destruct (_ && _); [reflexivity | apply IH, Hall].
Qed.


(** X22. [sendAndStreamReply] ends as soon as the clock has passed the
    deadline at the head of a turn, whatever the page does.  It rejects
    with the error of the snapshot script or of [sendMessage] when one of
    them fails (and sends nothing when the snapshot fails); any other
    error it passes on is the rejection of a page call of the loop or of
    the last [readBot].  It throws its own error, that no reply came,
    exactly when the snapshot and the sending succeeded and the loop was
    left, by the deadline or by the abort flag, before any turn read a
    message of the bot.  What it returns is a reply that [readBot] read
    in a turn of the loop or after the loop, or, when the last [readBot]
    finds nothing, the text of a reply read in the loop, without embeds.
    In a run in which no call rejects it is the loop of the readings,
    and, once the deadline is reached, it returns a reply or throws that
    no reply came. *)
Theorem stream_throws_only_without_a_reading (x : StreamCall.run) (s : U) :
  let res := StreamCall.sendAndStreamReply onUpdate waitMs botId x s in
  ((exists t, t ∈ StreamCall.turns x /\ (waitMs <= StreamCall.clock t)%Z) ->
   res <> StreamCall.Pending)
  /\ (forall e,
        StreamCall.before x = Rejected e ->
        res = StreamCall.Throws (StreamCall.Failure e))
  /\ (forall e,
        resolved (StreamCall.before x) ->
        StreamCall.send x = Rejected e ->
        res = StreamCall.Throws (StreamCall.Failure e))
  /\ (res = StreamCall.Throws StreamCall.NoReply
      <-> exists pg0,
            StreamCall.before x = Resolved pg0
            /\ resolved (StreamCall.send x)
            /\ exists pre t rest,
                 StreamCall.turns x = pre ++ t :: rest
                 /\ Forall (StreamCall.idle waitMs botId (snapshot_stream pg0))
                           pre
                 /\ StreamCall.leaves waitMs t)
  /\ (forall e,
        res = StreamCall.Throws (StreamCall.Failure e) ->
        StreamCall.before x = Rejected e
        \/ StreamCall.send x = Rejected e
        \/ (exists t, t ∈ StreamCall.turns x /\ StreamCall.rejects waitMs t e)
        \/ StreamCall.after x = Rejected e)
  /\ (forall r,
        res = StreamCall.Returns r ->
        exists pg0,
          StreamCall.before x = Resolved pg0
          /\ resolved (StreamCall.send x)
          /\ ((exists t, t ∈ StreamCall.turns x
                         /\ StreamCall.reads botId (snapshot_stream pg0) t r)
              \/ (exists pg i,
                    StreamCall.after x = Resolved pg
                    /\ readBot (snapshot_stream pg0) botId pg = Some (i, r))
              \/ (exists pg t r',
                    StreamCall.after x = Resolved pg
                    /\ readBot (snapshot_stream pg0) botId pg = None
                    /\ t ∈ StreamCall.turns x
                    /\ StreamCall.reads botId (snapshot_stream pg0) t r'
                    /\ r = Parser.Reply (full r') [])))
  /\ (forall pg0 pg1,
        StreamCall.before x = Resolved pg0 ->
        resolved (StreamCall.send x) ->
        Forall StreamCall.answers (StreamCall.turns x) ->
        StreamCall.after x = Resolved pg1 ->
        res = StreamCall.of_outcome
                (Observer.sendAndStreamReply onUpdate waitMs
                   (StreamCall.polls_of botId (snapshot_stream pg0)
                                        (StreamCall.turns x))
                   (snd <$> readBot (snapshot_stream pg0) botId pg1) s)
        /\ ((exists t, t ∈ StreamCall.turns x
                       /\ (waitMs <= StreamCall.clock t)%Z) ->
            res = StreamCall.Throws StreamCall.NoReply
            \/ exists r, res = StreamCall.Returns r)).
Proof.
  intros res. subst res. unfold StreamCall.sendAndStreamReply.
  destruct (StreamCall.before x) as [pg0|e0] eqn:Hb.
  2:{ split; [discriminate|]. split; [intros e [= <-]; reflexivity|].
      split; [intros e (a & Ha); discriminate|].
      split; [split; [discriminate | intros (pg & Hpg & _); discriminate]|].
      split; [intros e [= <-]; left; reflexivity|].
      split; [discriminate|]. intros pg0 pg1 Hpg. discriminate. }
  cbn zeta. set (snap := snapshot_stream pg0).
  destruct (StreamCall.send x) as [u|e1] eqn:Hsend.
  2:{ split; [discriminate|]. split; [discriminate|].
      split; [intros e _ [= <-]; reflexivity|].
      split; [split; [discriminate
                     | intros (pg & _ & (a & Ha) & _); discriminate]|].
      split; [intros e [= <-]; right; left; reflexivity|].
      split; [discriminate|]. intros pg1 pg2 _ (a & Ha). discriminate. }
  pose proof (call_loop_finishes snap (StreamCall.turns x) (start s)) as Hfin.
  pose proof (call_loop_remembers snap (StreamCall.turns x) (start s)) as Hrem.
  pose proof (call_loop_never_saw snap (StreamCall.turns x) (start s) eq_refl)
    as Hiff.
  pose proof (call_loop_agrees snap (StreamCall.turns x) (start s)) as Hagree.
  match goal with
  | |- _ /\ _ /\ _ /\ (_ <-> ?R) /\ _ =>
      assert (R <-> exists st',
                 StreamCall.loop onUpdate waitMs botId snap
                                 (StreamCall.turns x) (start s)
                 = StreamCall.Left st'
                 /\ foundBot st' = false) as Hno
  end.
  { rewrite Hiff. split.
    - intros (pg & [= <-] & _ & H). exact H.
    - intros H. exists pg0. split; [reflexivity|].
      split; [exists u; reflexivity | exact H]. }
  destruct (StreamCall.loop onUpdate waitMs botId snap (StreamCall.turns x)
              (start s)) as [r0|st|e|] eqn:Hloop.
  - split; [discriminate|]. split; [discriminate|]. split; [discriminate|].
    split.
    { etransitivity; [|symmetry; exact Hno].
      split; [discriminate | intros (st' & E & _); discriminate]. }
    split; [discriminate|].
    split.
    { intros r [= <-]. exists pg0. split; [reflexivity|].
      split; [exists u; reflexivity|]. left. exact Hrem. }
    intros pg1 pg2 [= <-] _ Hall Hafter. fold snap. split.
    + unfold Observer.sendAndStreamReply. specialize (Hagree Hall).
      destruct (Observer.loop onUpdate waitMs _ (start s)); try discriminate.
      injection Hagree as <-. reflexivity.
    + intros _. right. exists r0. reflexivity.
  - split.
    { intros _. destruct (negb (foundBot st)); [discriminate|].
      destruct (StreamCall.after x); discriminate. }
    split; [discriminate|]. split; [discriminate|].
    split.
    { etransitivity; [|symmetry; exact Hno]. split.
      - intros E. exists st. split; [reflexivity|].
        destruct (foundBot st); [|reflexivity]. cbn [negb] in E.
        destruct (StreamCall.after x); discriminate.
      - intros (st' & [= <-] & F). rewrite F. reflexivity. }
    split.
    { intros e E. destruct (foundBot st); cbn [negb] in E; [|discriminate].
      destruct (StreamCall.after x) as [pg|e'] eqn:Ha; [discriminate|].
      injection E as <-. right. right. right. reflexivity. }
    split.
    { intros r E. exists pg0. split; [reflexivity|].
      split; [exists u; reflexivity|].
      destruct (foundBot st) eqn:F; cbn [negb] in E; [|discriminate].
      destruct (StreamCall.after x) as [pg|e'] eqn:Ha; [|discriminate].
      injection E as <-.
      destruct (readBot snap botId pg) as [[i r1]|] eqn:Hr.
      - right. left. exists pg, i. split; [reflexivity | exact Hr].
      - right. right.
        destruct Hrem as [->|(_ & t & r' & Ht & Hr' & Hl)];
          [cbn in F; discriminate|].
        exists pg, t, r'. rewrite Hl. repeat split; assumption. }
    intros pg1 pg2 [= <-] _ Hall Hafter. fold snap.
    assert (StreamCall.of_outcome
              (Observer.sendAndStreamReply onUpdate waitMs
                 (StreamCall.polls_of botId snap (StreamCall.turns x))
                 (snd <$> readBot snap botId pg2) s)
            = if negb (foundBot st) then StreamCall.Throws StreamCall.NoReply
              else StreamCall.Returns
                     (default (Parser.Reply (lastText st) [])
                              (snd <$> readBot snap botId pg2))) as Hobs.
    { unfold Observer.sendAndStreamReply. specialize (Hagree Hall).
      destruct (Observer.loop onUpdate waitMs _ (start s)); try discriminate.
      injection Hagree as <-. unfold after_loop.
      destruct (negb (foundBot st)); reflexivity. }
    rewrite Hafter, Hobs. split; [reflexivity|].
    intros _. destruct (negb (foundBot st)); [left; reflexivity|].
    right. eexists. reflexivity.
  - split; [discriminate|]. split; [discriminate|]. split; [discriminate|].
    split.
    { etransitivity; [|symmetry; exact Hno].
      split; [discriminate | intros (st' & E & _); discriminate]. }
    split.
    { intros e' [= <-]. right. right. left. exact Hrem. }
    split; [discriminate|].
    intros pg1 pg2 _ _ Hall _. specialize (Hagree Hall).
    destruct (Observer.loop onUpdate waitMs _ (start s)); discriminate.
  - split; [intros H; destruct (Hfin H eq_refl)|].
    split; [discriminate|]. split; [discriminate|].
    split.
    { etransitivity; [|symmetry; exact Hno].
      split; [discriminate | intros (st' & E & _); discriminate]. }
    split; [discriminate|]. split; [discriminate|].
    intros pg1 pg2 [= <-] _ Hall Hafter. fold snap. split.
    + unfold Observer.sendAndStreamReply. specialize (Hagree Hall).
      destruct (Observer.loop onUpdate waitMs _ (start s)); try discriminate.
      reflexivity.
    + intros H. destruct (Hfin H eq_refl).
Qed.

End StreamCallFacts.

Section OneShotFacts.
Import Js Observer Async OneShot.
Variable botId : str.
Variable waitMs : Z.
Variable snap : snapshot.

Lemma same_reply (a b : Parser.reply) :
  Parser.text a = Parser.text b -> Parser.embeds a = Parser.embeds b -> a = b.
Proof. destruct a, b. cbn. intros -> ->. reflexivity. Qed.

Lemma rereads_cons t ts :
  rereads botId snap (t :: ts)
  = match shown t with
    | Resolved pg =>
        match find_last snap botId pg with
        | Some (_, r) => r :: rereads botId snap ts
        | None => rereads botId snap ts
        end
    | Rejected _ => rereads botId snap ts
    end.
Proof.
  unfold rereads. cbn. destruct (shown t) as [pg|e]; [|reflexivity].
  destruct (find_last snap botId pg) as [[i r]|]; reflexivity.
Qed.

(** How the inner loop ends. *)
Lemma settle_ends ticks :
  forall stable n,
    match settle botId waitMs snap ticks stable n with
    | Replied r =>
        exists mid rest,
          ticks = mid ++ rest
          /\ Forall (taken waitMs) mid
          /\ last (stable :: rereads botId snap mid) = Some r
    | TimedOut => False
    | Failed e => exists t, t ∈ ticks /\ rejects waitMs t e
    | Running => forall t, t ∈ ticks -> (elapsed t < waitMs)%Z
    end.
Proof.
  induction ticks as [|t more IH]; intros stable n; cbn [settle].
  { destruct (2 <=? n)%nat.
    - exists [], []. repeat split; constructor.
    - intros t Ht. inversion Ht. }
  destruct (2 <=? n)%nat.
  { exists [], (t :: more). repeat split; constructor. }
  destruct (elapsed t <? waitMs)%Z eqn:Ht; cbn [negb].
  2:{ exists [], (t :: more). repeat split; constructor. }
  apply Z.ltb_lt in Ht.
  destruct (waited t) as [u|e] eqn:Hw.
  2:{ exists t. split; [left|]. split; [exact Ht | left; exact Hw]. }
  destruct (shown t) as [pg|e] eqn:Hs.
  2:{ exists t. split; [left|]. split; [exact Ht | right; exact Hs]. }
  assert (taken waitMs t) as Htaken.
  { split; [exact Ht|]. split; [exists u; exact Hw | exists pg; exact Hs]. }
  assert (forall stable' n',
    (match find_last snap botId pg with
     | Some (_, r) => last (stable :: r :: nil) = Some stable'
     | None => stable' = stable
     end) ->
    match settle botId waitMs snap more stable' n' with
    | Replied r =>
        exists mid rest,
          t :: more = mid ++ rest
          /\ Forall (taken waitMs) mid
          /\ last (stable :: rereads botId snap mid) = Some r
    | TimedOut => False
    | Failed e => exists t0, t0 ∈ t :: more /\ rejects waitMs t0 e
    | Running => forall t0, t0 ∈ t :: more -> (elapsed t0 < waitMs)%Z
    end) as Hstep.
  { intros stable' n' Hst. specialize (IH stable' n').
    destruct (settle botId waitMs snap more stable' n') as [r| |e|].
    - destruct IH as (mid & rest & -> & Hmid & Hl).
      exists (t :: mid), rest. split; [reflexivity|].
      split; [constructor; assumption|].
      rewrite rereads_cons, Hs.
      destruct (find_last snap botId pg) as [[i r']|].
      + cbn in Hst. injection Hst as <-. exact Hl.
      + subst stable'. exact Hl.
    - exact IH.
    - destruct IH as (q & Hq & Hq'). exists q. split; [right|]; assumption.
    - intros q Hq. apply elem_of_cons in Hq as [->|Hq]; [exact Ht|].
      apply IH, Hq. }
  destruct (find_last snap botId pg) as [[i updated]|] eqn:Hf.
  - destruct (bool_decide (Parser.text updated = Parser.text stable)
              && bool_decide (Parser.embeds updated = Parser.embeds stable))
      eqn:Hsame.
    + apply andb_prop in Hsame as [H1 H2].
      apply bool_decide_eq_true in H1, H2.
      apply Hstep. rewrite (same_reply _ _ H1 H2). reflexivity.
    + apply Hstep. reflexivity.
  - apply Hstep. reflexivity.
Qed.

Lemma settle_finishes ticks stable n :
  (exists t, t ∈ ticks /\ (waitMs <= elapsed t)%Z) ->
  settle botId waitMs snap ticks stable n <> Running.
Proof.
  intros (t & Ht & Hd) E. pose proof (settle_ends ticks stable n) as H.
  rewrite E in H. specialize (H t Ht). lia.
Qed.

Lemma settle_returns ticks stable n :
  Forall answers ticks ->
  (exists t, t ∈ ticks /\ (waitMs <= elapsed t)%Z) ->
  exists r, settle botId waitMs snap ticks stable n = Replied r.
Proof.
  intros Hall Hd. pose proof (settle_ends ticks stable n) as H.
  pose proof (settle_finishes ticks stable n Hd) as Hfin.
  destruct (settle botId waitMs snap ticks stable n) as [r| |e|].
  - exists r. reflexivity.
  - destruct H.
  - destruct H as (t & Ht & _ & Hrej). rewrite Forall_forall in Hall.
    destruct (Hall t Ht) as [(u & Hu) (pg & Hpg)].
    destruct Hrej; congruence.
  - destruct (Hfin eq_refl).
Qed.

Lemma poll_new_idle pre :
  Forall (idle botId waitMs snap) pre ->
  forall rest,
    poll_new botId waitMs snap (pre ++ rest) = poll_new botId waitMs snap rest.
Proof.
  induction 1 as [|t pre (Ht & (u & Hw) & pg & Hs & Hn) _ IH]; intros rest;
    [reflexivity|].
  cbn [app poll_new]. apply Z.ltb_lt in Ht. rewrite Ht, Hw, Hs, Hn.
  cbn [negb]. apply IH.
Qed.

Lemma poll_new_finds t rest r0 :
  finds botId waitMs snap t r0 ->
  poll_new botId waitMs snap (t :: rest) = settle botId waitMs snap rest r0 0.
Proof.
  intros (Ht & (u & Hw) & pg & i & Hs & Hn). cbn [poll_new].
  apply Z.ltb_lt in Ht. rewrite Ht, Hw, Hs, Hn. reflexivity.
Qed.

(** How the outer loop goes: a stretch of idle turns, and then the
    deadline, a finding, a rejected call, or the end of the script. *)
Lemma poll_new_cases ticks :
  (Forall (idle botId waitMs snap) ticks
   /\ poll_new botId waitMs snap ticks = Running)
  \/ exists pre t rest,
       ticks = pre ++ t :: rest
       /\ Forall (idle botId waitMs snap) pre
       /\ (((waitMs <= elapsed t)%Z
            /\ poll_new botId waitMs snap ticks = TimedOut)
           \/ (exists e, rejects waitMs t e
                         /\ poll_new botId waitMs snap ticks = Failed e)
           \/ (exists r0, finds botId waitMs snap t r0
                          /\ poll_new botId waitMs snap ticks
                             = settle botId waitMs snap rest r0 0)).
Proof.
  induction ticks as [|t more IH].
  { left. split; [constructor | reflexivity]. }
  cbn [poll_new].
  destruct (elapsed t <? waitMs)%Z eqn:Ht; cbn [negb].
  2:{ apply Z.ltb_ge in Ht. right. exists [], t, more.
      split; [reflexivity|]. split; [constructor|]. left. auto. }
  apply Z.ltb_lt in Ht.
  destruct (waited t) as [u|e] eqn:Hw.
  2:{ right. exists [], t, more. split; [reflexivity|].
      split; [constructor|]. right. left. exists e.
      split; [split; [exact Ht | left; exact Hw] | reflexivity]. }
  destruct (shown t) as [pg|e] eqn:Hs.
  2:{ right. exists [], t, more. split; [reflexivity|].
      split; [constructor|]. right. left. exists e.
      split; [split; [exact Ht | right; exact Hs] | reflexivity]. }
  destruct (find_new snap botId pg) as [[i r0]|] eqn:Hn.
  { right. exists [], t, more. split; [reflexivity|].
    split; [constructor|]. right. right. exists r0. split; [|reflexivity].
    split; [exact Ht|]. split; [exists u; exact Hw|]. exists pg, i. auto. }
  assert (idle botId waitMs snap t) as Hidle.
  { split; [exact Ht|]. split; [exists u; exact Hw|]. exists pg. auto. }
  destruct IH as [[Hall E]|(pre & q & rest & -> & Hpre & Hq)].
  - left. split; [constructor; assumption | exact E].
  - right. exists (t :: pre), q, rest. split; [reflexivity|].
    split; [constructor; assumption | exact Hq].
Qed.

End OneShotFacts.

Section OneShotCall.
Import Js Observer Async OneShot.


End OneShotCall.

(** ** URLs, verdict words and the batch endpoint of the native server *)

Section NativeMore.
Import Js Re Url UrlShape.

(** X24. What [sanitizeUrl] or [cleanUrl] returns is never empty, is at
    most 2048 code units long, holds no space and no angle bracket, and
    holds an ASCII letter or digit. *)
Theorem accepted_urls_are_well_formed (u : str) :
  (exists raw, sanitizeUrl raw = Some u) \/ (exists s, cleanUrl s = Some u) ->
  well_formed u.
Proof.
  intros [(raw & H)|(s & H)].
  - exact (sanitizeUrl_well_formed raw u H).
  - exact (sanitizeUrl_well_formed (VStr s) u H).
Qed.

Lemma accepted_urls_are_well_formed_witness :
  well_formed (lit "example.com").
Proof.
  apply accepted_urls_are_well_formed. left.
  exists (VStr (lit " https://example.com/ ")). vm_compute. reflexivity.
Defined.

Lemma starts_with_prefix b : forall a, starts_with b a = true <-> exists t, a = b ++ t.
Proof.
  induction b as [|x b IH]; intros a; cbn [starts_with].
  { split; [intros _; exists a; reflexivity | reflexivity]. }
  destruct a as [|y a].
  { split; [discriminate | intros (t & E); discriminate]. }
  rewrite andb_true_iff, N.eqb_eq, IH. split.
  - intros (-> & t & ->). exists t. reflexivity.
  - intros (t & E). injection E as -> ->. split; [reflexivity|]. exists t.
    reflexivity.
Qed.

Lemma includes_occurs needle : forall s, includes needle s = true <-> occurs needle s.
Proof.
  unfold occurs. induction s as [|c s IH]; cbn [includes].
  - rewrite orb_false_r, starts_with_prefix. split.
    + intros (t & E). exists [], t. exact E.
    + intros (before & after & E). destruct before as [|d before];
        [|discriminate]. exists after. exact E.
  - rewrite orb_true_iff, starts_with_prefix, IH. split.
    + intros [(t & E)|(before & after & ->)].
      * exists [], t. exact E.
      * exists (c :: before), after. reflexivity.
    + intros (before & after & E). destruct before as [|d before].
      * left. exists after. exact E.
      * right. injection E as -> ->. exists before, after. reflexivity.
Qed.

Lemma occurs_trans a b s : occurs a b -> occurs b s -> occurs a s.
Proof.
  intros (x & y & ->) (before & after & ->).
  exists (before ++ x), (y ++ after). rewrite <- !app_assoc. reflexivity.
Qed.

Lemma includes_trans a b s :
  includes a b = true -> includes b s = true -> includes a s = true.
Proof. rewrite !includes_occurs. apply occurs_trans. Qed.

End NativeMore.

Section VerdictWords.
Import Js LinkChecker.

Lemma hasUnsafe_by p r :
  In p unsafePatterns -> includes p (combined r) = true -> hasUnsafe r = true.
Proof.
  intros Hp H. unfold hasUnsafe. apply existsb_exists. exists p. auto.
Qed.

Lemma unsafe_decides r : hasUnsafe r = true -> _parseReply r = Unsafe.
Proof.
  intros H. unfold _parseReply. rewrite H. destruct (hasSafe r); reflexivity.
Qed.

(** X25. [_parseReply] answers [unsafe] exactly when the lower-cased reply
    contains one of the unsafe words, whatever else it contains, and
    [safe] exactly when it contains a safe word and no unsafe one.  So a
    reply that says [no threats], [not malicious] or [no risk], all in the
    list of safe words, or [unsafe], is classified [unsafe]. *)
Theorem unsafe_words_decide_the_verdict (r : Parser.reply) :
  (_parseReply r = Unsafe
   <-> exists p, In p unsafePatterns /\ includes p (combined r) = true)
  /\ (_parseReply r = Safe
      <-> (exists p, In p safePatterns /\ includes p (combined r) = true)
          /\ forall p, In p unsafePatterns -> includes p (combined r) = false)
  /\ (forall p,
        In p [lit "no threats"; lit "not malicious"; lit "no risk";
              lit "unsafe"] ->
        includes p (combined r) = true ->
        _parseReply r = Unsafe).
Proof.
  assert (hasUnsafe r = true
          <-> exists p, In p unsafePatterns /\ includes p (combined r) = true)
    as HU by apply existsb_exists.
  assert (hasSafe r = true
          <-> exists p, In p safePatterns /\ includes p (combined r) = true)
    as HS by apply existsb_exists.
  split; [|split].
  - rewrite <- HU. split; [|apply unsafe_decides].
    unfold _parseReply. destruct (hasUnsafe r), (hasSafe r); cbn; congruence.
  - rewrite <- HS. split.
    + intros H. unfold _parseReply in H.
      destruct (hasUnsafe r) eqn:EU, (hasSafe r) eqn:ES; cbn in H;
        try discriminate.
      split; [reflexivity|]. intros p Hp.
      destruct (includes p (combined r)) eqn:E; [|reflexivity].
      rewrite (hasUnsafe_by p r Hp E) in EU. discriminate.
    + intros [ES Hno]. unfold _parseReply. rewrite ES.
      destruct (hasUnsafe r) eqn:EU; [|reflexivity].
      unfold hasUnsafe in EU. apply existsb_exists in EU as (p & Hp & E).
      rewrite (Hno p Hp) in E. discriminate.
  - intros p Hp H. apply unsafe_decides.
    assert (exists q, In q unsafePatterns /\ includes q p = true)
      as (q & Hq & Hqp).
    { cbn [In] in Hp. destruct Hp as [<-|[<-|[<-|[<-|[]]]]].
      - exists (lit "threat"). split; [cbn; tauto | vm_compute; reflexivity].
      - exists (lit "malicious"). split; [cbn; tauto | vm_compute; reflexivity].
      - exists (lit "risk"). split; [cbn; tauto | vm_compute; reflexivity].
      - exists (lit "unsafe"). split; [cbn; tauto | vm_compute; reflexivity]. }
    apply (hasUnsafe_by q r Hq). exact (includes_trans _ _ _ Hqp H).
Qed.

End VerdictWords.

Section BatchMore.
Import Js Url UrlShape NativeBatch.

Lemma valid_urls_sound items u :
  In u (valid_urls items) -> exists raw, In raw items /\ sanitizeUrl raw = Some u.
Proof.
  unfold valid_urls. intros Hin. apply list_elem_of_In in Hin.
  apply list_elem_of_omap in Hin as (raw & Hraw & H).
  exists raw. split; [apply list_elem_of_In; exact Hraw|].
  destruct (sanitizeUrl raw) as [[|c t]|]; [discriminate| |discriminate].
  injection H as <-. reflexivity.
Qed.

Lemma valid_urls_length items : (length (valid_urls items) <= length items)%nat.
Proof.
  unfold valid_urls. induction items as [|raw items IH]; [reflexivity|].
  cbn. destruct (sanitizeUrl raw) as [[|c t]|]; cbn; lia.
Qed.

Lemma valid_urls_all items : valid_urls items = omap sanitizeUrl items.
Proof.
  unfold valid_urls. induction items as [|raw items IH]; [reflexivity|].
  cbn. rewrite IH.
  destruct (sanitizeUrl raw) as [[|c u]|] eqn:E; [|reflexivity|reflexivity].
  destruct (sanitizeUrl_well_formed raw [] E) as [H _]. destruct (H eq_refl).
Qed.

(** X26. The batch endpoint refuses a missing or empty parameter, a
    parameter that is not JSON, a value that is not an array or is an
    empty one, and an array of more than 20 items, in this order and
    before the rate limiter is consulted.  Every other request consults
    the limiter once: when it denies, the request is refused; when it
    allows and no item passes [sanitizeUrl], the request is refused,
    having used one request of the client's budget; otherwise the endpoint
    streams the results of [sanitizeUrl] on the items that pass it, in
    the order of the array: between 1 and 20 URLs, all well formed. *)
Theorem batch_streams_only_checked_urls (now : Z) (ip : str)
  (rawParam : value) (l : RateLimiter.t) :
  (forall parsed,
      Legacy.falsy rawParam = true ->
      batch_open now ip rawParam parsed l = (NoParameter, l))
  /\ (Legacy.falsy rawParam = false ->
      batch_open now ip rawParam None l = (BadJson, l)
      /\ batch_open now ip rawParam (Some JOther) l = (NotAnArray, l)
      /\ batch_open now ip rawParam (Some (JArray [])) l = (NotAnArray, l)
      /\ forall items,
           items <> [] ->
           let checked := RateLimiter.check now ip l in
           batch_open now ip rawParam (Some (JArray items)) l
           = if (MAX_BATCH <? length items)%nat then (TooMany, l)
             else if negb (RateLimiter.allowed (fst checked))
             then (RateLimited, snd checked)
             else match omap sanitizeUrl items with
                  | [] => (NoValidUrl, snd checked)
                  | urls => (Streaming urls, snd checked)
                  end)
  /\ (forall parsed urls,
        fst (batch_open now ip rawParam parsed l) = Streaming urls ->
        (0 < length urls <= MAX_BATCH)%nat
        /\ Forall well_formed urls
        /\ exists items,
             parsed = Some (JArray items)
             /\ urls = omap sanitizeUrl items
             /\ (length items <= MAX_BATCH)%nat
             /\ RateLimiter.allowed (fst (RateLimiter.check now ip l)) = true)
  /\ (forall items,
        omap sanitizeUrl items = []
        <-> forall raw, In raw items -> sanitizeUrl raw = None).
Proof.
  split; [|split; [|split]].
  - intros parsed H. unfold batch_open. rewrite H. reflexivity.
  - intros H. unfold batch_open. rewrite H.
    split; [reflexivity|]. split; [reflexivity|]. split; [reflexivity|].
    intros items Hne. cbn zeta. destruct items as [|raw0 items];
      [destruct (Hne eq_refl)|].
    destruct (MAX_BATCH <? length (raw0 :: items))%nat; [reflexivity|].
    destruct (RateLimiter.check now ip l) as [rl l1].
    cbn [fst snd]. destruct (negb (RateLimiter.allowed rl)); [reflexivity|].
    rewrite valid_urls_all. reflexivity.
  - intros parsed urls. unfold batch_open.
    destruct (Legacy.falsy rawParam); [discriminate|].
    destruct parsed as [[items|]|]; [|discriminate|discriminate].
    destruct items as [|raw0 items]; [discriminate|].
    set (all := raw0 :: items).
    destruct (MAX_BATCH <? length all)%nat eqn:Hlen; [discriminate|].
    apply Nat.ltb_ge in Hlen.
    destruct (RateLimiter.check now ip l) as [rl l1]. cbn [fst snd].
    destruct (RateLimiter.allowed rl) eqn:Hrl; cbn [negb fst snd];
      [|discriminate].
    pose proof (valid_urls_length all) as Hle.
    pose proof (valid_urls_sound all) as Hsound.
    pose proof (valid_urls_all all) as Hall.
    destruct (valid_urls all) as [|u0 us]; cbn [fst]; [discriminate|].
    intros [= <-]. split; [cbn [length] in *; lia|]. split.
    + apply Forall_forall. intros u Hu. apply list_elem_of_In in Hu.
      destruct (Hsound u Hu) as (raw & _ & E).
      exact (sanitizeUrl_well_formed raw u E).
    + exists all. auto.
  - intros items. split.
    + intros H raw Hin. destruct (sanitizeUrl raw) as [u|] eqn:E;
        [|reflexivity].
      assert (u ∈ omap sanitizeUrl items) as Hu.
      { apply list_elem_of_omap. exists raw.
        split; [apply list_elem_of_In; exact Hin | exact E]. }
      rewrite H in Hu. inversion Hu.
    + intros H. induction items as [|raw items IH]; [reflexivity|].
      cbn. rewrite (H raw) by (left; reflexivity).
      apply IH. intros raw' Hin. apply H. right. exact Hin.
Qed.

End BatchMore.
